(** * Migrated-token tracker: candle aggregation, strategy evaluation,
      backfill queue, candle store, discovery, pruning and alerts.

    A shallow embedding of the JavaScript sources
      services/candleManager.js, services/strategy.js, services/storage.js,
      services/backfillQueue.js, services/moralis.js, services/dexscreener.js,
      models/*.js and the discovery loop, the candle handler, the alerts and
      the maintenance loop of index.js,
    followed by the properties of the specification that concern them and by
    further properties of the code.

    Conventions.
    - A JavaScript number is read as the rational it denotes ([Q]); the one
      non-numeric value the code tests for, NaN, is a constructor of its own
      ([jsnum]).  The sums and products of the code whose value a property
      depends on (the running volume of a candle, the market cap that is
      compared with a threshold) are the binary64 ones ([js_add], [js_mul]),
      correctly rounded; the infinities and the sign of zero are outside the
      model.
    - A [Map], a [Set] and a MongoDB collection with a unique index are finite
      maps and sets keyed by that index ([gmap], [gset]).
    - [Date]s are milliseconds since the epoch ([Z]).
    - What a function reads from the outside world (the clock, an HTTP
      collaborator) is an explicit argument. *)

From Stdlib Require Import ZArith QArith Qminmax Qround Qabs Lia.
From stdpp Require Import gmap strings list fin_maps sorting.

#[local] Set Warnings "-clear-no-such-hyp".

(* ===================================================================== *)
(** ** JavaScript values used by the code *)
(* ===================================================================== *)

(** A number argument as the callee sees it: NaN or a proper number. *)
Inductive jsnum : Type :=
  | NaN
  | Num (q : Q).

(** [isNaN(x)] *)
Definition isNaN (x : jsnum) : bool :=
  match x with NaN => true | Num _ => false end.

(** [x <= 0]; every comparison with NaN is false. *)
Definition le_zero (x : jsnum) : bool :=
  match x with NaN => false | Num q => Qle_bool q 0 end.

(** [x || 0] on a number: NaN and 0 are falsy. *)
Definition or_zero (x : jsnum) : Q :=
  match x with
  | NaN => 0%Q
  | Num q => if Qeq_bool q 0 then 0%Q else q
  end.

(** Rounding to the nearest integer, a tie going to the even one. *)
Definition roundHalfEven (q : Q) : Z :=
  let f := Qfloor q in
  match Qcompare (q - inject_Z f) (1 # 2) with
  | Lt => f
  | Gt => (f + 1)%Z
  | Eq => if Z.even f then f else (f + 1)%Z
  end.

(** The binary64 number nearest to a rational (ties to even): 53
    significant bits, and no spacing below [2^-1074].  A result beyond the
    largest binary64 number would be an infinity, which is not modelled. *)
Definition binary64 (q : Q) : Q :=
  let q := Qred q in
  if Qeq_bool q 0 then 0%Q
  else
    let a := Qabs q in
    let e0 := (Z.log2 (Qnum a) - Z.log2 (Zpos (Qden a)))%Z in
    let e := if Qle_bool (Qpower 2 e0) a then e0 else (e0 - 1)%Z in
    let s := Z.max (e - 52) (-1074) in
    let m := roundHalfEven (a / Qpower 2 s)%Q in
    Qred (inject_Z (Z.sgn (Qnum q) * m) * Qpower 2 s)%Q.

(** [x + y] and [x * y] on numbers. *)
Definition js_add (x y : Q) : Q := binary64 (x + y)%Q.
Definition js_mul (x y : Q) : Q := binary64 (x * y)%Q.

(** [cursor.limit(n)] of the database driver: a limit of 0 is no limit. *)
Definition limitTo {A : Type} (n : nat) (l : list A) : list A :=
  if n =? 0 then l else take n l.

(** [s || d] on an optional string: [undefined], [null] and [''] are falsy. *)
Definition str_or (s : option string) (d : string) : string :=
  match s with
  | Some x => if decide (x = ""%string) then d else x
  | None => d
  end.

(** [s || null] on an optional string. *)
Definition str_or_null (s : option string) : option string :=
  match s with
  | Some x => if decide (x = ""%string) then None else Some x
  | None => None
  end.

(** Result of a call that may throw; the state reached is kept either way. *)
Inductive outcome (S : Type) : Type :=
  | Return (s : S)
  | Throw (s : S).
Arguments Return {S} s.
Arguments Throw {S} s.

Definition bind_outcome {S : Type} (o : outcome S) (k : S → outcome S) : outcome S :=
  match o with
  | Return s => k s
  | Throw s => Throw s
  end.

(* ===================================================================== *)
(** ** services/candleManager.js *)
(* ===================================================================== *)

Module CandleManager.

(** The in-progress candle of one token. *)
Record Buffer : Type := mkBuffer {
  b_open : Q;
  b_high : Q;
  b_low : Q;
  b_close : Q;
  b_volume : Q;
  b_tradeCount : nat
}.

(** Token metadata as passed to [addToken]. *)
Record Meta : Type := mkMeta {
  m_symbol : option string;
  m_name : option string;
  m_poolAddress : option string;
  m_launchedAt : option Z
}.

(** The object emitted on the [candle] event. *)
Record Candle : Type := mkCandle {
  tokenAddress : string;
  poolAddress : option string;
  symbol : string;
  timestamp : Z;
  open : Q;
  high : Q;
  low : Q;
  close : Q;
  volume : Q;
  tradeCount : nat
}.

(** The three maps of the class.  In [buffers] the value [None] is the
    JavaScript [null] ("waiting for first trade"); a missing key is
    [undefined]. *)
Record t : Type := mk {
  buffers : gmap string (option Buffer);
  tracked : gmap string Meta;
  lastPrices : gmap string Q
}.

Definition empty : t := mk ∅ ∅ ∅.

Definition has {V : Type} (m : gmap string V) (k : string) : bool :=
  match m !! k with Some _ => true | None => false end.

Definition addToken (tokenAddress : string) (meta : Meta) (cm : t) : t :=
  if has (tracked cm) tokenAddress then cm
  else mk (<[tokenAddress := None]> (buffers cm))
          (<[tokenAddress := meta]> (tracked cm))
          (lastPrices cm).

Definition removeToken (tokenAddress : string) (cm : t) : t :=
  mk (delete tokenAddress (buffers cm))
     (delete tokenAddress (tracked cm))
     (delete tokenAddress (lastPrices cm)).

(** [Math.max] and [Math.min] on two numbers. *)
Definition Math_max (a b : Q) : Q := Qmax a b.
Definition Math_min (a b : Q) : Q := Qmin a b.

(** The two branches of [addTrade] on the buffer of the token. *)
Definition firstTrade (price volume : Q) : Buffer :=
  mkBuffer price price price price volume 1.

Definition nextTrade (buf : Buffer) (price volume : Q) : Buffer :=
  mkBuffer (b_open buf)
           (Math_max (b_high buf) price)
           (Math_min (b_low buf) price)
           price
           (js_add (b_volume buf) volume)
           (S (b_tradeCount buf)).

Definition addTrade (tokenAddress : string) (price volume : jsnum) (cm : t)
  : outcome t :=
  if negb (has (tracked cm) tokenAddress) then Return cm
  else if isNaN price || le_zero price then Return cm
  else
    match price with
    | NaN => Return cm
    | Num p =>
        let cm1 := mk (buffers cm) (tracked cm) (<[tokenAddress := p]> (lastPrices cm)) in
        match buffers cm !! tokenAddress with
        | Some None =>
            Return (mk (<[tokenAddress := Some (firstTrade p (or_zero volume))]> (buffers cm1))
                       (tracked cm1) (lastPrices cm1))
        | Some (Some buf) =>
            Return (mk (<[tokenAddress := Some (nextTrade buf p (or_zero volume))]> (buffers cm1))
                       (tracked cm1) (lastPrices cm1))
        | None =>
            (* buf is undefined: reading buf.high throws a TypeError *)
            Throw cm1
        end
    end.

(** The candle built from a non-null buffer in [closeCandlesFor]. *)
Definition candleOf (candleTimestamp : Z) (trk : gmap string Meta)
    (tokenAddress : string) (buf : Buffer) : Candle :=
  let meta := trk !! tokenAddress in
  mkCandle tokenAddress
           (str_or_null (meta ≫= m_poolAddress))
           (str_or (meta ≫= m_symbol) "")
           candleTimestamp
           (b_open buf) (b_high buf) (b_low buf) (b_close buf)
           (b_volume buf) (b_tradeCount buf).

(** One iteration of the loop of [closeCandlesFor]; the second component is
    the sequence of emitted [candle] events. *)
Definition closeEntry (candleTimestamp : Z) (acc : t * list Candle)
    (entry : string * option Buffer) : t * list Candle :=
  match entry.2 with
  | None => acc
  | Some buf =>
      (mk (<[entry.1 := None]> (buffers acc.1)) (tracked acc.1) (lastPrices acc.1),
       acc.2 ++ [candleOf candleTimestamp (tracked acc.1) entry.1 buf])
  end.

(** The entries are visited in the order of [map_to_list]; the insertion
    order of the JavaScript [Map] is not modelled. *)
Definition closeCandlesFor (candleTimestamp : Z) (cm : t) : t * list Candle :=
  foldl (closeEntry candleTimestamp) (cm, []) (map_to_list (buffers cm)).

(** A call of [addTrade] as data, and a run of calls. *)
Record Trade : Type := mkTrade {
  tr_token : string;
  tr_price : jsnum;
  tr_volume : jsnum
}.

Fixpoint addTrades (trades : list Trade) (cm : t) : outcome t :=
  match trades with
  | [] => Return cm
  | tr :: rest =>
      bind_outcome (addTrade (tr_token tr) (tr_price tr) (tr_volume tr) cm)
                   (addTrades rest)
  end.

(** [tracked] and [buffers] always hold the same keys: [addToken] and
    [removeToken] change both. *)
Definition consistent (cm : t) : Prop :=
  ∀ k, is_Some (tracked cm !! k) ↔ is_Some (buffers cm !! k).

(** The valid sample carried by a call for token [a], if any: its price and
    its volume argument. *)
Definition sampleFor (a : string) (tr : Trade) : option (Q * jsnum) :=
  if decide (tr_token tr = a) then
    match tr_price tr with
    | NaN => None
    | Num p => if Qle_bool p 0 then None else Some (p, tr_volume tr)
    end
  else None.

Definition samplesFor (a : string) (trades : list Trade) : list (Q * jsnum) :=
  omap (sampleFor a) trades.

Definition Qsum (l : list Q) : Q := foldr Qplus 0%Q l.

(** The sum of volumes as [addTrade] builds it: the first volume, then [+=]
    for each further one, in the order of arrival. *)
Definition jsSum (l : list Q) : Q :=
  match l with
  | [] => 0%Q
  | v :: rest => foldl js_add v rest
  end.



(** The binary64 numbers written 0.1, 0.2 and 0.3. *)
Definition tenths : list Q :=
  [ (3602879701896397 # 36028797018963968)%Q;
    (3602879701896397 # 18014398509481984)%Q;
    (5404319552844595 # 18014398509481984)%Q ].

(** What [addTrade] does to the buffer of the token it is called for. *)
Definition feed (ob : option Buffer) (s : Q * jsnum) : option Buffer :=
  match ob with
  | None => Some (firstTrade s.1 (or_zero s.2))
  | Some buf => Some (nextTrade buf s.1 (or_zero s.2))
  end.


(** The two effects of one iteration of [closeCandlesFor], apart. *)
Definition resetEntry (m : gmap string (option Buffer))
    (entry : string * option Buffer) : gmap string (option Buffer) :=
  match entry.2 with
  | None => m
  | Some _ => <[entry.1 := None]> m
  end.

Definition emittedBy (ts : Z) (trk : gmap string Meta)
    (entry : string * option Buffer) : option Candle :=
  candleOf ts trk entry.1 <$> entry.2.

(** A manager tracking two tokens, and a run of calls within one period. *)
Definition demoMeta : Meta := mkMeta (Some "AAA"%string) None (Some "pool-a"%string) None.

Definition demo : t :=
  addToken "B" (mkMeta None None None None) (addToken "A" demoMeta empty).

Definition demoTrades : list Trade :=
  [ mkTrade "A" (Num 2) (Num 0);
    mkTrade "B" (Num 7) (Num 1);
    mkTrade "A" NaN (Num 4);
    mkTrade "A" (Num 5) (Num 3);
    mkTrade "C" (Num 9) (Num 9);
    mkTrade "A" (Num (1 # 2)) NaN;
    mkTrade "A" (Num (-1)) (Num 6);
    mkTrade "A" (Num 3) (Num 2) ].


(** [getLastPrice]: [lastPrices.get(tokenAddress) || null]. *)
Definition getLastPrice (tokenAddress : string) (cm : t) : option Q :=
  match lastPrices cm !! tokenAddress with
  | Some p => if Qeq_bool p 0 then None else Some p
  | None => None
  end.

(** The candle clock.  [candlePeriod now] is the timestamp [fireCandleClose]
    computes, [Math.floor(now / I) * I]; [firstDelay now] is the delay
    [startCandleClock] waits before the first close, [I - now % I]. *)
Definition CANDLE_INTERVAL_MS : Z := 15 * 1000.

Definition candlePeriod (now : Z) : Z :=
  (now / CANDLE_INTERVAL_MS * CANDLE_INTERVAL_MS)%Z.

Definition firstDelay (now : Z) : Z :=
  (CANDLE_INTERVAL_MS - Z.rem now CANDLE_INTERVAL_MS)%Z.

(** The calls a user of the manager can make, as data; a run of calls
    collects the emitted candles.  A call of [addTrade] that throws leaves
    the state it reached. *)
Inductive Call : Type :=
  | CallAddToken (tokenAddress : string) (meta : Meta)
  | CallRemoveToken (tokenAddress : string)
  | CallAddTrade (tokenAddress : string) (price volume : jsnum)
  | CallClose (candleTimestamp : Z).

Definition call (acc : t * list Candle) (c : Call) : t * list Candle :=
  match c with
  | CallAddToken a meta => (addToken a meta acc.1, acc.2)
  | CallRemoveToken a => (removeToken a acc.1, acc.2)
  | CallAddTrade a price volume =>
      match addTrade a price volume acc.1 with
      | Return cm => (cm, acc.2)
      | Throw cm => (cm, acc.2)
      end
  | CallClose ts =>
      let r := closeCandlesFor ts acc.1 in (r.1, acc.2 ++ r.2)
  end.

Definition calls (cm : t) (cs : list Call) : t * list Candle :=
  foldl call (cm, []) cs.

(** A buffer as the aggregation leaves it: positive prices, the open and the
    close between the low and the high, at least one trade. *)
Definition wellShaped (o h l c : Q) (n : nat) : Prop :=
  (0 < l)%Q ∧ (l <= o)%Q ∧ (o <= h)%Q ∧ (l <= c)%Q ∧ (c <= h)%Q ∧ 1 ≤ n.

(** The states the calls lead to: same keys in [tracked] and [buffers], a
    last price only for tracked tokens and positive, well-shaped buffers. *)
Definition sound (cm : t) : Prop :=
  consistent cm
  ∧ (∀ k p, lastPrices cm !! k = Some p → (0 < p)%Q ∧ is_Some (tracked cm !! k))
  ∧ (∀ k b, buffers cm !! k = Some (Some b) →
       wellShaped (b_open b) (b_high b) (b_low b) (b_close b) (b_tradeCount b)).

(** A session: two tokens are added, trades arrive, a period is closed, one
    token is removed, more trades arrive and the next period is closed. *)
Definition demoCalls : list Call :=
  [ CallAddToken "A" demoMeta;
    CallAddTrade "A" (Num 2) (Num 0);
    CallAddToken "B" (mkMeta None None None None);
    CallAddTrade "A" (Num 5) (Num 3);
    CallAddTrade "B" (Num 7) NaN;
    CallClose 15000;
    CallRemoveToken "B";
    CallAddTrade "B" (Num 8) (Num 1);
    CallAddTrade "A" (Num 4) (Num 1);
    CallClose 30000 ].

End CandleManager.

(* ===================================================================== *)
(** ** services/strategy.js *)
(* ===================================================================== *)

Module Strategy.

(** A candle of the history handed to [checkStrategy]. *)
Record Candle : Type := mkCandle {
  tokenAddress : string;
  symbol : option string;
  timestamp : Z;
  open : Q;
  high : Q;
  low : Q;
  close : Q;
  volume : Q
}.

Record Signal : Type := mkSignal {
  s_tokenAddress : string;
  s_symbol : string;
  s_ema9 : Q;
  s_ema20 : Q;
  s_rsi : Q;
  s_volume : option Q;
  s_avgVolume : Q;
  s_volumeSpikeActive : bool;
  s_isVolumeSpike : bool;
  s_isSignal : bool;
  s_price : Q
}.

(** What a call of [checkStrategy] can do: return [null], return a signal,
    or throw. *)
Inductive result : Type :=
  | Null
  | Fired (s : Signal)
  | Raised.

Definition MIN_CANDLES : nat := 21.

(** [a > b] on numbers. *)
Definition gtb (a b : Q) : bool := negb (Qle_bool a b).

(** [arr.slice(start, end)] with possibly negative indices. *)
Definition slice_index (len : nat) (i : Z) : nat :=
  if (i <? 0)%Z then Z.to_nat (Z.max (Z.of_nat len + i) 0)
  else Nat.min (Z.to_nat i) len.

Definition Array_slice {A : Type} (l : list A) (start stop : Z) : list A :=
  let s := slice_index (length l) start in
  let e := slice_index (length l) stop in
  take (e - s) (drop s l).

(** The last two entries [(arr[n-2], arr[n-1])] of an array of length
    [n >= 2]. *)
Definition last_two (l : list Q) : option (Q * Q) :=
  match l !! (length l - 2), l !! (length l - 1) with
  | Some p, Some c => if 2 <=? length l then Some (p, c) else None
  | _, _ => None
  end.

Section WithIndicators.

(** [EMA.calculate({period, values})] and [RSI.calculate({period, values})]
    of the technicalindicators package, which is not part of the sources. *)
Variable EMA_calculate : nat → list Q → list Q.
Variable RSI_calculate : nat → list Q → list Q.

(** [history = None] is a missing ([null] or [undefined]) history. *)
Definition checkStrategy (history : option (list Candle)) (requireVolumeSpike : bool)
  : result :=
  match history with
  | None => Null
  | Some history =>
    if length history <? MIN_CANDLES then Null else
    let closes := map close history in
    let volumes := map volume history in
    let ema9Result := EMA_calculate 9 closes in
    let ema20Result := EMA_calculate 20 closes in
    match last_two ema9Result, last_two ema20Result with
    | Some (ema9Prev, ema9Curr), Some (ema20Prev, ema20Curr) =>
      let isCrossover := Qle_bool ema9Prev ema20Prev && gtb ema9Curr ema20Curr in
      if negb isCrossover then Null else
      let rsiResult := RSI_calculate 14 closes in
      match last rsiResult with
      | None => Null
      | Some rsi =>
        let isRsiGood := gtb rsi 50 in
        if negb isRsiGood then Null else
        let recentVolumes := Array_slice volumes (-11) (-1) in
        let currentVolume := last volumes in
        let avgVolume :=
          if 5 <=? length recentVolumes
          then (foldl Qplus 0 recentVolumes / inject_Z (Z.of_nat (length recentVolumes)))%Q
          else 0%Q in
        let isVolumeSpike :=
          gtb avgVolume 0 &&
          match currentVolume with
          | Some cv => gtb cv (avgVolume * (3 # 2))
          | None => false
          end in
        if requireVolumeSpike && negb isVolumeSpike then Null else
        match last history with
        | None => Raised (* latest is undefined: reading latest.tokenAddress throws *)
        | Some latest =>
          Fired (mkSignal (tokenAddress latest)
                          (str_or (symbol latest) (tokenAddress latest))
                          ema9Curr ema20Curr rsi currentVolume avgVolume
                          requireVolumeSpike isVolumeSpike true (close latest))
        end
      end
    | _, _ => Null
    end
  end.

(** The average volume [checkStrategy] computes for a history. *)
Definition avgVolumeOf (history : list Candle) : Q :=
  let recentVolumes := Array_slice (map volume history) (-11) (-1) in
  if 5 <=? length recentVolumes
  then (foldl Qplus 0 recentVolumes / inject_Z (Z.of_nat (length recentVolumes)))%Q
  else 0%Q.

End WithIndicators.

(** Modelled from the spec: [EMA.calculate] of the technicalindicators
    package (not under src/).  Smoothing factor 2/(period+1), seeded with the
    simple average of the first [period] values, then applied forward; one
    output per value from the seed on. *)
Definition alpha (period : nat) : Q := 2 # Pos.of_nat (period + 1).

Fixpoint ema_forward (a prev : Q) (values : list Q) : list Q :=
  match values with
  | [] => []
  | x :: rest =>
      let e := (a * x + (1 - a) * prev)%Q in
      e :: ema_forward a e rest
  end.

Definition mean (l : list Q) : Q :=
  (foldl Qplus 0 l / inject_Z (Z.of_nat (length l)))%Q.

Definition EMA_calculate (period : nat) (values : list Q) : list Q :=
  if length values <? period then []
  else
    let seed := mean (take period values) in
    seed :: ema_forward (alpha period) seed (drop period values).

(** Modelled from the spec: [RSI.calculate] of the technicalindicators
    package (not under src/).  Gains and losses of the closing-price deltas,
    averaged over the first [period] deltas and Wilder-smoothed from there;
    the oscillator is 100 - 100/(1 + gain/loss), and 100 when the average
    loss is zero; one output per delta from the [period]-th on. *)
Fixpoint deltas (values : list Q) : list Q :=
  match values with
  | x :: (y :: _) as rest => (y - x)%Q :: deltas rest
  | _ => []
  end.

Definition gain (d : Q) : Q := if gtb d 0 then d else 0%Q.
Definition loss (d : Q) : Q := if gtb 0 d then (- d)%Q else 0%Q.

Definition rsi_of (avgGain avgLoss : Q) : Q :=
  if Qeq_bool avgLoss 0 then 100%Q
  else (100 - 100 / (1 + avgGain / avgLoss))%Q.

Definition wilder (period : nat) (prev cur : Q) : Q :=
  ((prev * inject_Z (Z.of_nat (period - 1)) + cur) / inject_Z (Z.of_nat period))%Q.

Fixpoint rsi_forward (period : nat) (avgGain avgLoss : Q) (ds : list Q) : list Q :=
  match ds with
  | [] => []
  | d :: rest =>
      let g := wilder period avgGain (gain d) in
      let l := wilder period avgLoss (loss d) in
      rsi_of g l :: rsi_forward period g l rest
  end.

Definition RSI_calculate (period : nat) (values : list Q) : list Q :=
  let ds := deltas values in
  if length ds <? period then []
  else
    let g := mean (map gain (take period ds)) in
    let l := mean (map loss (take period ds)) in
    rsi_of g l :: rsi_forward period g l (drop period ds).

(** The evaluator with the indicators above. *)
Definition evaluate : option (list Candle) → bool → result :=
  checkStrategy EMA_calculate RSI_calculate.

(** The crossover scenario of test.js: 40 candles at 1.0, then one at 2.0. *)
Definition mk (c v : Q) : Candle :=
  mkCandle "TEST_MINT" (Some "TEST"%string) 0 c (c * (1001 # 1000)) (c * (999 # 1000)) c v.

Definition triggerHistory : list Candle := replicate 40 (mk 1 1) ++ [mk 2 8].

(** The same prices as the live sampler records them: every volume 0. *)
Definition sampledHistory : list Candle := replicate 40 (mk 1 0) ++ [mk 2 0].

End Strategy.

(* ===================================================================== *)
(** ** models/Candle.js and services/storage.js *)
(* ===================================================================== *)

Module Storage.

(** A document of the Candle collection. *)
Record CandleDoc : Type := mkCandleDoc {
  tokenAddress : string;
  poolAddress : option string;
  timestamp : Z;
  open : Q;
  high : Q;
  low : Q;
  close : Q;
  volume : Q
}.

(** The collection under its unique index [{tokenAddress, timestamp}]. *)
Abbreviation Candles := (gmap (string * Z) CandleDoc).

Definition keyOf (d : CandleDoc) : string * Z := (tokenAddress d, timestamp d).

(** The error object a rejected write throws.  The driver signals a key
    conflict with code 11000; it is the one failure of a write that is
    modelled. *)
Record WriteError : Type := mkWriteError {
  code : Z;
  writeErrors : option (list Z)
}.

Definition E11000 : Z := 11000.

(** [Candle.create(doc)] *)
Definition Candle_create (d : CandleDoc) (db : Candles) : Candles + WriteError :=
  match db !! keyOf d with
  | Some _ => inr (mkWriteError E11000 None)
  | None => inl (<[keyOf d := d]> db)
  end.

(** [Candle.insertMany(docs, {ordered: false})]: every document whose key is
    free is written, the others are reported together afterwards. *)
Fixpoint insertMany_loop (docs : list CandleDoc) (db : Candles) : Candles * list Z :=
  match docs with
  | [] => (db, [])
  | d :: rest =>
      match db !! keyOf d with
      | Some _ =>
          let r := insertMany_loop rest db in (r.1, E11000 :: r.2)
      | None => insertMany_loop rest (<[keyOf d := d]> db)
      end
  end.

Definition Candle_insertMany (docs : list CandleDoc) (db : Candles)
  : Candles * option WriteError :=
  let r := insertMany_loop docs db in
  match r.2 with
  | [] => (r.1, None)
  | c :: _ => (r.1, Some (mkWriteError c (Some r.2)))
  end.

(** A candle as [saveCandle] receives it from the candle manager. *)
Definition docOfCandle (c : CandleManager.Candle) : CandleDoc :=
  mkCandleDoc (CandleManager.tokenAddress c) (CandleManager.poolAddress c)
              (CandleManager.timestamp c)
              (CandleManager.open c) (CandleManager.high c) (CandleManager.low c)
              (CandleManager.close c) (CandleManager.volume c).

(** [saveCandle]: the new collection and the lines written to
    [console.error].  It has no [throw] of its own and catches what the write
    throws. *)
Definition saveCandle (candle : CandleManager.Candle) (db : Candles)
  : Candles * list string :=
  match Candle_create (docOfCandle candle) db with
  | inl db' => (db', [])
  | inr err =>
      if negb (code err =? E11000)%Z
      then (db, ["[Storage] Save candle error:"%string])
      else (db, [])
  end.

(** A candle as the backfill source delivers it. *)
Record OHLCV : Type := mkOHLCV {
  o_timestamp : Z;
  o_open : Q;
  o_high : Q;
  o_low : Q;
  o_close : Q;
  o_volume : Q
}.

Definition docOfOHLCV (tokenAddress : string) (poolAddress : option string)
    (c : OHLCV) : CandleDoc :=
  mkCandleDoc tokenAddress (str_or_null poolAddress) (o_timestamp c)
              (o_open c) (o_high c) (o_low c) (o_close c) (o_volume c).

(** [backfillCandles]: the new collection and the lines written to
    [console.error]. *)
Definition backfillCandles (tokenAddress : string) (poolAddress : option string)
    (candles : list OHLCV) (db : Candles) : Candles * list string :=
  match candles with
  | [] => (db, [])
  | _ =>
      let docs := map (docOfOHLCV tokenAddress poolAddress) candles in
      match Candle_insertMany docs db with
      | (db', None) => (db', [])
      | (db', Some err) =>
          match writeErrors err with
          | Some wes =>
              if negb (code err =? E11000)%Z then
                let realErrors := filter (λ e, e ≠ E11000) wes in
                if 0 <? length realErrors
                then (db', ["[Storage] Backfill errors:"%string])
                else (db', [])
              else (db', [])
          | None => (db', [])
          end
      end
  end.

(** The documents of one token, newest first or not: only their timestamps
    are read below. *)
Definition timestampsOf (tokenAddress : string) (db : Candles) : list Z :=
  omap (λ kv : (string * Z) * CandleDoc,
          if decide (kv.1.1 = tokenAddress) then Some kv.1.2 else None)
       (map_to_list db).

(** Two collections hold the same documents of a token. *)
Definition agreeOn (a : string) (db db' : Candles) : Prop :=
  ∀ ts : Z, db !! (a, ts) = db' !! (a, ts).

(** [Candle.countDocuments({tokenAddress})] *)
Definition countDocuments (tokenAddress : string) (db : Candles) : nat :=
  length (timestampsOf tokenAddress db).

(** [getLatestCandleTime]: the timestamp of the newest candle of the token,
    [None] for [null]. *)
Definition getLatestCandleTime (tokenAddress : string) (db : Candles) : option Z :=
  match timestampsOf tokenAddress db with
  | [] => None
  | t :: ts => Some (foldr Z.max t ts)
  end.

(** The documents of one token, as [Candle.find({tokenAddress})] returns
    them before any sort. *)
Definition docsOf (tokenAddress : string) (db : Candles) : list CandleDoc :=
  omap (λ kv : (string * Z) * CandleDoc,
          if decide (kv.1.1 = tokenAddress) then Some kv.2 else None)
       (map_to_list db).

(** [.sort({timestamp: -1})] *)
Definition newerFirst (x y : CandleDoc) : Prop := (timestamp y ≤ timestamp x)%Z.

Global Instance newerFirst_dec : RelDecision newerFirst.
Proof. intros x y. unfold newerFirst. apply _. Defined.

(** [getRecentCandles(tokenAddress, limit)]: the newest [limit] documents
    (all of them for a limit of 0), returned oldest first. *)
Definition getRecentCandles (tokenAddress : string) (limit : nat) (db : Candles)
  : list CandleDoc :=
  reverse (limitTo limit (merge_sort newerFirst (docsOf tokenAddress db))).

(** Every document sits under the key its own fields give. *)
Definition indexed (db : Candles) : Prop :=
  map_Forall (λ k d, keyOf d = k) db.

(** Three candles of a token and one of another. *)
Definition docAt (a : string) (ts : Z) (c : Q) : CandleDoc :=
  mkCandleDoc a None ts c c c c 0.

Definition fourDocs : Candles :=
  {[ ("A"%string, 30000%Z) := docAt "A" 30000 3;
     ("A"%string, 15000%Z) := docAt "A" 15000 2;
     ("B"%string, 15000%Z) := docAt "B" 15000 9;
     ("A"%string, 45000%Z) := docAt "A" 45000 4 ]}.

End Storage.

(* ===================================================================== *)
(** ** services/gecko.js (the two collaborators of the queue) *)
(* ===================================================================== *)

Module Gecko.

(** What the outside world answers during one pass: the clock, the pool
    resolver ([None] for [null]), the OHLCV request ([None] for a failed
    request, else the normalised list, oldest first), and whether the live
    sampler's [trackToken] throws for a token. *)
Record Env : Type := mkEnv {
  now : Z;
  resolvePoolAddress : string → option string;
  ohlcv : string → option (list Storage.OHLCV);
  trackToken_throws : string → bool
}.

(** [getBackfillData(poolAddress, limit)]: [[]] for a missing pool address
    and for a failed request. *)
Definition getBackfillData (env : Env) (poolAddress : option string)
  : list Storage.OHLCV :=
  match str_or_null poolAddress with
  | None => []
  | Some p =>
      match ohlcv env p with
      | None => []
      | Some l => l
      end
  end.

End Gecko.

(* ===================================================================== *)
(** ** models/Token.js, models/BackfillQueue.js, services/backfillQueue.js *)
(* ===================================================================== *)

Module BackfillQueue.

Import Gecko.

(** A document of the Token collection (unique index on [address]). *)
Record Token : Type := mkToken {
  t_address : string;
  t_symbol : option string;
  t_name : option string;
  t_poolAddress : option string;
  t_launchedAt : option Z;
  t_isActive : bool
}.

Inductive Status : Type := pending | done | failed.

Global Instance Status_eq_dec : EqDecision Status.
Proof. solve_decision. Defined.

(** A document of the BackfillQueue collection (unique index on [address]). *)
Record Task : Type := mkTask {
  address : string;
  symbol : string;
  name : string;
  poolAddress : option string;
  status : Status;
  attempts : nat;
  lastAttempt : option Z;
  error : option string;
  enqueuedAt : Z;
  completedAt : option Z
}.

Definition MAX_ATTEMPTS : nat := 5.
Definition RETRY_AFTER_MS : Z := 2 * 60 * 1000.
Definition GAP_THRESHOLD_MS : Z := 60 * 1000.

(** The collections and module variables the queue works on.
    [manager = None] and [trackToken = false] stand for the references
    [init] has not yet injected; [jupiter] is the sampler's tracked set.

    The store is taken as reliable: a query or an update of a collection
    does not throw.  The two collaborators of gecko.js catch their own
    failures and answer [null] or [[]]; the one call inside the [try] block
    of [processItem] that may throw is the injected [trackToken].  The clock
    is read once per pass. *)
Record Sys : Type := mkSys {
  queue : gmap string Task;
  tokens : gmap string Token;
  candles : Storage.Candles;
  manager : option CandleManager.t;
  trackToken : bool;
  jupiter : gset string;
  draining : bool
}.

Definition with_queue (q : gmap string Task) (s : Sys) : Sys :=
  mkSys q (tokens s) (candles s) (manager s) (trackToken s) (jupiter s) (draining s).
Definition with_tokens (t : gmap string Token) (s : Sys) : Sys :=
  mkSys (queue s) t (candles s) (manager s) (trackToken s) (jupiter s) (draining s).
Definition with_candles (c : Storage.Candles) (s : Sys) : Sys :=
  mkSys (queue s) (tokens s) c (manager s) (trackToken s) (jupiter s) (draining s).
Definition with_manager (m : option CandleManager.t) (s : Sys) : Sys :=
  mkSys (queue s) (tokens s) (candles s) m (trackToken s) (jupiter s) (draining s).
Definition with_jupiter (j : gset string) (s : Sys) : Sys :=
  mkSys (queue s) (tokens s) (candles s) (manager s) (trackToken s) j (draining s).
Definition with_draining (d : bool) (s : Sys) : Sys :=
  mkSys (queue s) (tokens s) (candles s) (manager s) (trackToken s) (jupiter s) d.

(** The argument of [enqueue]. *)
Record Enqueued : Type := mkEnqueued {
  e_address : string;
  e_symbol : option string;
  e_name : option string;
  e_poolAddress : option string
}.

(** [enqueue]: [updateOne] with [upsert] and nothing but [$setOnInsert];
    the remaining fields take the defaults of the schema. *)
Definition enqueue (token : Enqueued) (date : Z) (q : gmap string Task)
  : gmap string Task :=
  match q !! e_address token with
  | Some _ => q
  | None =>
      <[e_address token :=
          mkTask (e_address token)
                 (str_or (e_symbol token) "")
                 (str_or (e_name token) "")
                 (str_or_null (e_poolAddress token))
                 pending 0 None None date None]> q
  end.

(** [remove] *)
Definition remove (address : string) (q : gmap string Task) : gmap string Task :=
  delete address q.

(** The updates [processItem] and [maybeMarkFailed] send with
    [updateOne({address}, ...)] (no upsert). *)
Definition startAttempt (date : Z) (t : Task) : Task :=
  mkTask (address t) (symbol t) (name t) (poolAddress t) (status t)
         (attempts t + 1) (Some date) (error t) (enqueuedAt t) (completedAt t).

Definition setPool (pool : string) (t : Task) : Task :=
  mkTask (address t) (symbol t) (name t) (Some pool) (status t)
         (attempts t) (lastAttempt t) (error t) (enqueuedAt t) (completedAt t).

Definition markDone (date : Z) (t : Task) : Task :=
  mkTask (address t) (symbol t) (name t) (poolAddress t) done
         (attempts t) (lastAttempt t) None (enqueuedAt t) (Some date).

Definition markFailed (t : Task) : Task :=
  mkTask (address t) (symbol t) (name t) (poolAddress t) failed
         (attempts t) (lastAttempt t) (Some "Exhausted 5 attempts"%string)
         (enqueuedAt t) (completedAt t).

Definition setTokenPool (pool : string) (t : Token) : Token :=
  mkToken (t_address t) (t_symbol t) (t_name t) (Some pool) (t_launchedAt t)
          (t_isActive t).

(** [maybeMarkFailed]; [item] is the document as [drain] read it. *)
Definition maybeMarkFailed (item : Task) (s : Sys) : Sys :=
  let currentAttempts := attempts item + 1 in
  if MAX_ATTEMPTS <=? currentAttempts
  then with_queue (alter markFailed (address item) (queue s)) s
  else s.

(** Steps 2 to 5 of [processItem], once the pool is known. *)
Definition processWithPool (item : Task) (pool : string) (env : Env) (s : Sys) : Sys :=
  let fetched := getBackfillData env (Some pool) in
  if length fetched =? 0 then maybeMarkFailed item s
  else
    let s3 := with_candles
                (Storage.backfillCandles (address item) (Some pool) fetched (candles s)).1 s in
    let registered : outcome Sys :=
      match manager s3 with
      | Some cm =>
          if negb (CandleManager.has (CandleManager.tracked cm) (address item)) then
            let launchedAt := tokens s3 !! address item ≫= t_launchedAt in
            let meta := CandleManager.mkMeta (Some (symbol item)) (Some (name item))
                                             (Some pool) launchedAt in
            let s4 := with_manager (Some (CandleManager.addToken (address item) meta cm)) s3 in
            if trackToken s4 then
              if trackToken_throws env (address item) then Throw s4
              else Return (with_jupiter ({[address item]} ∪ jupiter s4) s4)
            else Return s4
          else Return s3
      | None => Return s3
      end in
    match registered with
    | Return s5 => with_queue (alter (markDone (now env)) (address item) (queue s5)) s5
    | Throw s5 => maybeMarkFailed item s5
    end.

(** [processItem] *)
Definition processItem (item : Task) (env : Env) (s : Sys) : Sys :=
  let s1 := with_queue (alter (startAttempt (now env)) (address item) (queue s)) s in
  match str_or_null (poolAddress item) with
  | Some pool => processWithPool item pool env s1
  | None =>
      match str_or_null (resolvePoolAddress env (address item)) with
      | None => maybeMarkFailed item s1
      | Some pool =>
          let s2 := with_tokens (alter (setTokenPool pool) (address item) (tokens s1))
                      (with_queue (alter (setPool pool) (address item) (queue s1)) s1) in
          processWithPool item pool env s2
      end
  end.

(** The query of [drain]: filter, sort on [(attempts, enqueuedAt)], limit. *)
Definition eligible (retryBefore : Z) (t : Task) : bool :=
  bool_decide (status t = pending) &&
  match lastAttempt t with
  | None => true
  | Some d => (d <? retryBefore)%Z
  end.

Definition task_le (x y : Task) : Prop :=
  attempts x < attempts y ∨ (attempts x = attempts y ∧ (enqueuedAt x ≤ enqueuedAt y)%Z).

Global Instance task_le_dec : RelDecision task_le.
Proof. intros x y. unfold task_le. apply _. Defined.

Definition selectBatch (batchSize : nat) (date : Z) (q : gmap string Task) : list Task :=
  let retryBefore := (date - RETRY_AFTER_MS)%Z in
  limitTo batchSize
    (merge_sort task_le (filter (λ t, eligible retryBefore t = true) (map_to_list q).*2)).

(** [drain] *)
Definition drain (batchSize : nat) (env : Env) (s : Sys) : Sys :=
  if draining s then s
  else
    let s0 := with_draining true s in
    let items := selectBatch batchSize (now env) (queue s0) in
    match items with
    | [] => with_draining false s0
    | _ => with_draining false (foldl (λ acc item, processItem item env acc) s0 items)
    end.

(** [auditAndEnqueueMissing] *)
Definition auditAndEnqueueMissing (date : Z) (s : Sys) : Sys :=
  let allTokens := (map_to_list (tokens s)).*2 in
  foldl (λ acc token,
           if Storage.countDocuments (t_address token) (candles acc) =? 0
           then with_queue
                  (enqueue (mkEnqueued (t_address token) (t_symbol token)
                                       (t_name token) (t_poolAddress token))
                           date (queue acc)) acc
           else acc)
        s allTokens.

(** [gapFillOnStartup] *)
Definition gapFillToken (env : Env) (acc : Sys) (token : Token) : Sys :=
  match Storage.getLatestCandleTime (t_address token) (candles acc) with
  | None => acc
  | Some latest =>
      let gapMs := (now env - latest)%Z in
      if (gapMs <? GAP_THRESHOLD_MS)%Z then acc
      else
        let fetched := getBackfillData env (t_poolAddress token) in
        if 0 <? length fetched
        then with_candles
               (Storage.backfillCandles (t_address token) (t_poolAddress token)
                                        fetched (candles acc)).1 acc
        else acc
  end.

Definition gapFillOnStartup (env : Env) (s : Sys) : Sys :=
  let found :=
    filter (λ t, t_isActive t = true ∧ is_Some (t_poolAddress t))
           (map_to_list (tokens s)).*2 in
  match found with
  | [] => s
  | _ => foldl (gapFillToken env) s found
  end.

(** The effect of one iteration of [gapFillOnStartup] on the Candle
    collection. *)
Definition fillStore (env : Env) (token : Token) (db : Storage.Candles) : Storage.Candles :=
  candles (gapFillToken env (mkSys ∅ ∅ db None false ∅ false) token).

Definition fillStores (env : Env) (found : list Token) (db : Storage.Candles)
  : Storage.Candles :=
  foldl (λ acc token, fillStore env token acc) db found.

(** The tokens [gapFillOnStartup] finds. *)
Definition gapFillTokens (m : gmap string Token) : list Token :=
  filter (λ t, t_isActive t = true ∧ is_Some (t_poolAddress t)) (map_to_list m).*2.

(** The Token collection under its unique index on [address]. *)
Definition keyedTokens (m : gmap string Token) : Prop :=
  map_Forall (λ k t, t_address t = k) m.

(** The operations on the queue as data. *)
Inductive Op : Type :=
  | OpEnqueue (token : Enqueued) (date : Z)
  | OpRemove (address : string)
  | OpDrain (batchSize : nat) (env : Env)
  | OpAudit (date : Z).

Definition step (s : Sys) (op : Op) : Sys :=
  match op with
  | OpEnqueue token date => with_queue (enqueue token date (queue s)) s
  | OpRemove a => with_queue (remove a (queue s)) s
  | OpDrain n env => drain n env s
  | OpAudit date => auditAndEnqueueMissing date s
  end.

Definition run (s : Sys) (ops : list Op) : Sys := foldl step s ops.

Definition initial : Sys := mkSys ∅ ∅ ∅ (Some CandleManager.empty) true ∅ false.

(** Every document sits under its own address. *)
Definition keyed (q : gmap string Task) : Prop :=
  ∀ a t, q !! a = Some t → address t = a.

(** The bound of the data model: a pending task has attempts to spare. *)
Definition bounded (q : gmap string Task) : Prop :=
  ∀ a t, q !! a = Some t → status t = pending → attempts t < MAX_ATTEMPTS.

(** What the queue holds for a task after [processItem] has run on the
    document [item]: one more attempt, and the task is done, or failed with
    the attempts exhausted, or as it was with attempts to spare. *)
Definition processed (item t' : Task) : Prop :=
  address t' = address item
  ∧ attempts t' = attempts item + 1
  ∧ (status t' = done
     ∨ (status t' = failed ∧ MAX_ATTEMPTS ≤ attempts item + 1)
     ∨ (status t' = status item ∧ attempts item + 1 < MAX_ATTEMPTS)).

(** The state between two operations. *)
Definition wellFormed (s : Sys) : Prop :=
  keyed (queue s) ∧ bounded (queue s) ∧ draining s = false.

(** A run of drains. *)
Definition drains (s : Sys) (rounds : list (nat * Env)) : Sys :=
  foldl (λ acc r, drain r.1 r.2 acc) s rounds.

(** Every drain of [rounds] selects the task at [a] and leaves it not done:
    its processing fails each time. *)
Fixpoint failingRounds (a : string) (rounds : list (nat * Env)) (s : Sys) : Prop :=
  match rounds with
  | [] => True
  | r :: rest =>
      a ∈ map address (selectBatch r.1 (now r.2) (queue s))
      ∧ status <$> queue (drain r.1 r.2 s) !! a ≠ Some done
      ∧ failingRounds a rest (drain r.1 r.2 s)
  end.

(** A world in which no pool is ever found, at a given time. *)
Definition noPool (date : Z) : Env := mkEnv date (λ _, None) (λ _, None) (λ _, false).

Definition tokenA : Enqueued := mkEnqueued "A" (Some "AAA"%string) None None.

Definition minute : Z := 60000.

Definition fiveRounds : list (nat * Env) :=
  [ (5, noPool (3 * minute)%Z); (5, noPool (6 * minute)%Z); (10, noPool (9 * minute)%Z);
    (5, noPool (12 * minute)%Z); (5, noPool (15 * minute)%Z) ].

(** A registry holding one token without candles, whose queue entry has
    used up its attempts. *)
Definition exhaustedTask : Task :=
  mkTask "A" "AAA" "" None failed 5 (Some (15 * minute)%Z)
         (Some "Exhausted 5 attempts"%string) 0 None.

Definition restarted : Sys :=
  mkSys {[ "A"%string := exhaustedTask ]}
        {[ "A"%string := mkToken "A" (Some "AAA"%string) None None None true ]}
        ∅ (Some CandleManager.empty) true ∅ false.

(** The same registry with an empty queue, and a start-up: the audit, then
    a first drain. *)
Definition cleared : Sys := with_queue ∅ restarted.

Definition auditThenDrain : list Op := [OpAudit 7; OpDrain 10 (noPool (3 * minute)%Z)].

(** A registry after a stop of ten minutes: token A has a pool and one
    candle from minute 1; the source now answers with three candles, the
    first of which is the one already stored. *)
Definition candleAt (m : Z) (c : Q) : Storage.OHLCV :=
  Storage.mkOHLCV (m * minute) c c c c 1.

Definition stopped : Sys :=
  mkSys ∅
        {[ "A"%string := mkToken "A" (Some "AAA"%string) None (Some "pool-a"%string) None true;
           "B"%string := mkToken "B" None None None None true ]}
        {[ ("A"%string, minute) := Storage.docOfOHLCV "A" (Some "pool-a"%string) (candleAt 1 1) ]}
        (Some CandleManager.empty) true ∅ false.

Definition tenMinutesLater : Env :=
  mkEnv (11 * minute)%Z (λ _, None)
        (λ pool, if decide (pool = "pool-a"%string)
                 then Some [candleAt 1 1; candleAt 2 2; candleAt 3 3]
                 else None)
        (λ _, false).

(** [queueStatus]: the four [countDocuments] calls. *)
Record QueueStatus : Type := mkQueueStatus {
  qs_total : nat;
  qs_pending : nat;
  qs_done : nat;
  qs_failed : nat
}.

Definition countStatus (st : Status) (q : gmap string Task) : nat :=
  length (filter (λ t, status t = st) (map_to_list q).*2).

Definition queueStatus (q : gmap string Task) : QueueStatus :=
  mkQueueStatus (size q) (countStatus pending q) (countStatus done q)
                (countStatus failed q).

(** What the queue holds for a task after [processItem] has run on the
    document [item] at time [date], field by field: the attempt is counted
    and dated, the identity and the enqueue date stay. *)
Definition attempted (date : Z) (item t' : Task) : Prop :=
  address t' = address item
  ∧ symbol t' = symbol item
  ∧ name t' = name item
  ∧ enqueuedAt t' = enqueuedAt item
  ∧ attempts t' = attempts item + 1
  ∧ lastAttempt t' = Some date.

(** A world in which the pool of token A resolves and its candles arrive. *)
Definition poolFound (date : Z) : Env :=
  mkEnv date
        (λ a, if decide (a = "A"%string) then Some "pool-a"%string else None)
        (λ pool, if decide (pool = "pool-a"%string)
                 then Some [candleAt 1 1; candleAt 2 2]
                 else None)
        (λ _, false).

(** A queue of three pending tasks with different histories. *)
Definition threeTasks : gmap string Task :=
  {[ "A"%string := mkTask "A" "AAA" "" None pending 2 (Some 0%Z) None 10 None;
     "B"%string := mkTask "B" "BBB" "" None pending 0 None None 30 None;
     "C"%string := mkTask "C" "CCC" "" None pending 0 None None 20 None ]}.

(** Two Token documents that differ at most in [poolAddress], the one field
    [processItem] sets. *)
Definition sameButPool (t t' : Token) : Prop :=
  t_address t' = t_address t ∧ t_symbol t' = t_symbol t ∧ t_name t' = t_name t
  ∧ t_launchedAt t' = t_launchedAt t ∧ t_isActive t' = t_isActive t.

(** What a later state [s'] keeps of an earlier state [s]: the stored
    candles, the Token documents up to their pool, and what the candle
    manager holds for the tokens it tracked. *)
Definition keepsManager (cm cm' : CandleManager.t) : Prop :=
  (∀ a m, CandleManager.tracked cm !! a = Some m → CandleManager.tracked cm' !! a = Some m)
  ∧ (∀ a, is_Some (CandleManager.tracked cm !! a) →
          CandleManager.buffers cm' !! a = CandleManager.buffers cm !! a)
  ∧ CandleManager.lastPrices cm' = CandleManager.lastPrices cm.

Definition keeps (s s' : Sys) : Prop :=
  (∀ k d, candles s !! k = Some d → candles s' !! k = Some d)
  ∧ (∀ a, option_Forall2 sameButPool (tokens s !! a) (tokens s' !! a))
  ∧ option_Forall2 keepsManager (manager s) (manager s')
  ∧ jupiter s ⊆ jupiter s'.

(** The document [enqueue] inserts for a Token document. *)
Definition taskOf (token : Token) (date : Z) : Task :=
  mkTask (t_address token) (str_or (t_symbol token) "") (str_or (t_name token) "")
         (str_or_null (t_poolAddress token)) pending 0 None None date None.

End BackfillQueue.

(* ===================================================================== *)
(** ** index.js: the seen-set of the discovery loop *)
(* ===================================================================== *)

Module Discovery.

(** A token as [getMigratedTokens] returns it. *)
Record Migrated : Type := mkMigrated {
  address : string;
  symbol : string;
  name : string;
  createdAt : option Z
}.

Definition MAX_SEEN : nat := 5000.

(** The low-market-cap filter of the loop: a callback that also marks the
    tokens it drops as seen. *)
Definition mcFilter (mcMap : gmap string Q) (acc : list Migrated * gset string)
    (t : Migrated) : list Migrated * gset string :=
  match mcMap !! address t with
  | Some mc =>
      if negb (Qle_bool 2000 mc)
      then (acc.1, {[address t]} ∪ acc.2)
      else (acc.1 ++ [t], acc.2)
  | None => (acc.1 ++ [t], acc.2)
  end.

(** The tokens the final loop reaches.  An awaited call of its body may
    throw, which ends the cycle: [abortAt = Some k] says the body of the
    iteration with index [k] throws, after that token has been marked. *)
Definition visited (abortAt : option nat) (liveTokens : list Migrated) : list Migrated :=
  match abortAt with
  | None => liveTokens
  | Some k => take (S k) liveTokens
  end.

(** [discoveryLoop], as far as it reads or writes [seenAddresses].
    [tokens] is the answer of [getMigratedTokens(20)], [tokenDb] the Token
    collection, [mcMap] the answer of [getMarketCaps]. *)
Definition discoveryLoop (tokens : list Migrated)
    (tokenDb : gmap string BackfillQueue.Token) (mcMap : gmap string Q)
    (abortAt : option nat) (seenAddresses : gset string) : gset string :=
  let seen0 : gset string :=
    if MAX_SEEN <? size seenAddresses then ∅ else seenAddresses in
  if length tokens =? 0 then seen0 else
  let addresses := filter (λ a, a ≠ ""%string) (map address tokens) in
  let notSeenYet := filter (λ a, a ∉ seen0) addresses in
  if length notSeenYet =? 0 then seen0 else
  let isActiveInDb (a : string) : Prop :=
    a ∈ notSeenYet ∧ (BackfillQueue.t_isActive <$> tokenDb !! a) = Some true in
  let processTokens :=
    filter (λ t, address t ≠ ""%string ∧ (address t ∉ seen0) ∧ ¬ isActiveInDb (address t))
           tokens in
  if length processTokens =? 0 then seen0 else
  let filtered := foldl (mcFilter mcMap) ([], seen0) processTokens in
  let liveTokens := filtered.1 in
  let seen1 := filtered.2 in
  if length liveTokens =? 0 then seen1 else
  foldl (λ (seen : gset string) token, {[address token]} ∪ seen) seen1
        (visited abortAt liveTokens).

(** The set at the start of a cycle, after the cap check. *)
Definition afterCapCheck (seen : gset string) : gset string :=
  if MAX_SEEN <? size seen then ∅ else seen.

(** A batch of tokens with the given addresses. *)
Definition batchOf (addresses : list string) : list Migrated :=
  map (λ a, mkMigrated a "" "" None) addresses.

(** One discovery cycle with what the outside world answers to it. *)
Record Cycle : Type := mkCycle {
  c_tokens : list Migrated;
  c_tokenDb : gmap string BackfillQueue.Token;
  c_mcMap : gmap string Q;
  c_abortAt : option nat
}.

Definition cycle (seen : gset string) (c : Cycle) : gset string :=
  discoveryLoop (c_tokens c) (c_tokenDb c) (c_mcMap c) (c_abortAt c) seen.

Definition cycles (seen : gset string) (cs : list Cycle) : gset string :=
  foldl cycle seen cs.

(** Three cycles: two batches of new tokens, the second cut short by a
    throw in its second iteration, then an empty answer. *)
Definition threeCycles : list Cycle :=
  [ mkCycle (batchOf ["1"; "2"; "3"]%string) ∅ ∅ None;
    mkCycle (batchOf ["4"; "1"; "2"; "5"; "6"]%string) ∅ {[ "4"%string := 1000%Q ]} (Some 0);
    mkCycle [] ∅ ∅ None ].

End Discovery.

(* ===================================================================== *)
(** ** services/moralis.js: the feeds of graduated tokens *)
(* ===================================================================== *)

Module Moralis.

Import Discovery.

(** The body of the two loops of [getMigratedTokens]; an address that is
    [undefined] or [''] is the falsy address [""]. *)
Definition dedup (acc : gset string * list Migrated) (t : Migrated)
  : gset string * list Migrated :=
  if decide (address t ≠ ""%string ∧ address t ∉ acc.1)
  then ({[address t]} ∪ acc.1, acc.2 ++ [t])
  else acc.

(** [getMigratedTokens]: [results] are the answers of [fetchFromExchange]
    for the exchanges, in their order; the second component is the module
    variable [lastUpdate] afterwards. *)
Definition getMigratedTokens (now : Z) (results : list (list Migrated)) (lastUpdate : Z)
  : list Migrated * Z :=
  let tokens := (foldl (λ acc batch, foldl dedup acc batch) (∅, []) results).2 in
  (tokens, if 0 <? length tokens then now else lastUpdate).

(** Two feeds that overlap. *)
Definition twoFeeds : list (list Migrated) :=
  [ [mkMigrated "1" "ONE" "" None; mkMigrated "" "NONE" "" None;
     mkMigrated "2" "TWO" "" None];
    [mkMigrated "2" "two" "" None; mkMigrated "3" "THREE" "" None;
     mkMigrated "1" "one" "" None] ].

End Moralis.

(* ===================================================================== *)
(** ** services/dexscreener.js *)
(* ===================================================================== *)

Module DexScreener.

Definition BATCH_SIZE : nat := 30.

(** A pair of the answer, as far as it is read: [baseToken?.address],
    [marketCap], [fdv] and [volume?.m5]; [None] is [undefined] or [null]. *)
Record Pair : Type := mkPair {
  baseToken_address : option string;
  marketCap : option Q;
  fdv : option Q;
  volume_m5 : option Q
}.

(** [pair?.marketCap ?? pair?.fdv ?? 0] and [pair?.volume?.m5 ?? 0] *)
Definition mcOf (pair : Pair) : Q :=
  match marketCap pair with
  | Some mc => mc
  | None => match fdv pair with Some f => f | None => 0%Q end
  end.

Definition volOf (pair : Pair) : Q :=
  match volume_m5 pair with Some v => v | None => 0%Q end.

(** The body of the loop over the pairs of one answer. *)
Definition keepMax (value : Pair → Q) (result : gmap string Q) (pair : Pair)
  : gmap string Q :=
  match str_or_null (baseToken_address pair) with
  | None => result
  | Some addr =>
      let v := value pair in
      match result !! addr with
      | None => <[addr := v]> result
      | Some old => if Strategy.gtb v old then <[addr := v]> result else result
      end
  end.

(** The slices [addresses.slice(i, i + BATCH_SIZE)] the loop
    [for (i = 0; i < addresses.length; i += BATCH_SIZE)] goes through,
    starting at [i]. *)
Fixpoint slices (fuel i : nat) (addresses : list string) : list (list string) :=
  match fuel with
  | 0 => []
  | S fuel' =>
      if i <? length addresses
      then take BATCH_SIZE (drop i addresses) :: slices fuel' (i + BATCH_SIZE) addresses
      else []
  end.

Definition requests (addresses : list string) : list (list string) :=
  slices (length addresses) 0 addresses.

(** The two functions differ in the value they read from a pair only.
    [get batch] is the answer to the request for [batch]: [None] when the
    request throws, else [data?.pairs || []]. *)
Definition collect (value : Pair → Q) (get : list string → option (list Pair))
    (addresses : option (list string)) : gmap string Q :=
  match addresses with
  | None => ∅
  | Some addresses =>
      if length addresses =? 0 then ∅
      else foldl (λ result batch,
                    match get batch with
                    | Some pairs => foldl (keepMax value) result pairs
                    | None => result
                    end)
                 ∅ (requests addresses)
  end.

Definition getVolume5m := collect volOf.
Definition getMarketCaps := collect mcOf.

(** The pairs of all the answers that arrived. *)
Definition answered (get : list string → option (list Pair)) (addresses : list string)
  : list Pair :=
  concat (omap get (requests addresses)).

(** Forty addresses, and a source that fails on the first request. *)
Definition forty : list string :=
  map (λ n, String.string_of_list_ascii [Ascii.ascii_of_nat (48 + n / 10);
                                          Ascii.ascii_of_nat (48 + n mod 10)]) (seq 0 40).

Definition secondOnly (batch : list string) : option (list Pair) :=
  if length batch =? 30 then None
  else Some [mkPair (Some "30"%string) (Some 5%Q) None None;
             mkPair (Some "30"%string) (Some 9%Q) None None;
             mkPair None (Some 100%Q) None None;
             mkPair (Some "31"%string) None (Some 7%Q) None].

End DexScreener.

(* ===================================================================== *)
(** ** index.js: alerts, the candle handler and the maintenance loop *)
(* ===================================================================== *)

Module App.

Definition PUMP_FUN_SUPPLY : Q := 1000000000.

(** [a < b] on numbers. *)
Definition ltb (a b : Q) : bool := negb (Qle_bool b a).

(** A value of the map [lastAlertData]. *)
Record AlertData : Type := mkAlertData {
  marketCap : Q;
  sentAt : Z;
  firstMarketCap : Q;
  firstSentAt : Z
}.

(** The alert fields of a Token document; [None] is [undefined]. *)
Record TokenAlerts : Type := mkTokenAlerts {
  lastAlertMarketCap : option Q;
  lastAlertSentAt : option Z;
  firstAlertMarketCap : option Q;
  firstAlertSentAt : option Z
}.

(** What the text handed to [bot.sendMessage] is made of. *)
Record Alert : Type := mkAlert {
  a_signal : Strategy.Signal;
  a_marketCap : Q;
  a_poolAddress : option string;
  a_launchedAt : option Z;
  a_prev : option AlertData
}.

(** The state the handlers of index.js work on: the Candle, Token and
    BackfillQueue collections ([tokenAlerts] holds the alert fields of the
    Token documents, by address), the candle manager, the set [trackedMints]
    of the price poller, the map [lastAlertData], and the messages the bot
    has delivered. *)
Record World : Type := mkWorld {
  candles : Storage.Candles;
  tokens : gmap string BackfillQueue.Token;
  tokenAlerts : gmap string TokenAlerts;
  queue : gmap string BackfillQueue.Task;
  manager : CandleManager.t;
  trackedMints : gset string;
  lastAlertData : gmap string AlertData;
  sent : list Alert
}.

(** [Token.updateOne({address}, {$set: {isActive: false}})] *)
Definition setInactive (t : BackfillQueue.Token) : BackfillQueue.Token :=
  BackfillQueue.mkToken (BackfillQueue.t_address t) (BackfillQueue.t_symbol t)
                        (BackfillQueue.t_name t) (BackfillQueue.t_poolAddress t)
                        (BackfillQueue.t_launchedAt t) false.

(** The five calls with which both the candle handler and the maintenance
    loop stop tracking a token: [candleManager.removeToken], [untrackToken],
    [lastAlertData.delete], [removeFromQueue] and the update of the Token
    document. *)
Definition prune (address : string) (w : World) : World :=
  mkWorld (candles w)
          (alter setInactive address (tokens w))
          (tokenAlerts w)
          (BackfillQueue.remove address (queue w))
          (CandleManager.removeToken address (manager w))
          (trackedMints w ∖ {[address]})
          (delete address (lastAlertData w))
          (sent w).

(** [sendAlert]; [sendThrows] says whether [bot.sendMessage] throws, [now]
    is the clock, read as one instant for the call. *)
Definition sendAlert (sendThrows : bool) (now : Z) (signal : Strategy.Signal)
    (poolAddress : option string) (launchedAt : option Z) (w : World) : World :=
  let marketCap := js_mul (Strategy.s_price signal) PUMP_FUN_SUPPLY in
  let prev := lastAlertData w !! Strategy.s_tokenAddress signal in
  if sendThrows then w
  else
    let existing := lastAlertData w !! Strategy.s_tokenAddress signal in
    let firstMC :=
      match existing with
      | Some e => if Qeq_bool (firstMarketCap e) 0 then marketCap else firstMarketCap e
      | None => marketCap
      end in
    let firstAt :=
      match existing with
      | Some e => if (firstSentAt e =? 0)%Z then now else firstSentAt e
      | None => now
      end in
    let firstKnown :=
      match existing with
      | Some e => negb (Qeq_bool (firstMarketCap e) 0)
      | None => false
      end in
    let dbUpdate (t : TokenAlerts) : TokenAlerts :=
      if firstKnown
      then mkTokenAlerts (Some marketCap) (Some now)
                         (firstAlertMarketCap t) (firstAlertSentAt t)
      else mkTokenAlerts (Some marketCap) (Some now) (Some marketCap) (Some now) in
    let noAlerts := mkTokenAlerts None None None None in
    mkWorld (candles w) (tokens w)
            (match tokens w !! Strategy.s_tokenAddress signal with
             | Some _ =>
                 <[Strategy.s_tokenAddress signal :=
                     dbUpdate (default noAlerts
                                 (tokenAlerts w !! Strategy.s_tokenAddress signal))]>
                   (tokenAlerts w)
             | None => tokenAlerts w
             end)
            (queue w) (manager w) (trackedMints w)
            (<[Strategy.s_tokenAddress signal :=
                 mkAlertData marketCap now firstMC firstAt]> (lastAlertData w))
            (sent w ++ [mkAlert signal marketCap poolAddress launchedAt prev]).

(** [{ ...c, symbol }] *)
Definition withSymbol (symbol : string) (c : Storage.CandleDoc) : Strategy.Candle :=
  Strategy.mkCandle (Storage.tokenAddress c) (Some symbol) (Storage.timestamp c)
                    (Storage.open c) (Storage.high c) (Storage.low c)
                    (Storage.close c) (Storage.volume c).

Section WithIndicators.

Variable EMA_calculate : nat → list Q → list Q.
Variable RSI_calculate : nat → list Q → list Q.

(** The handler of the [candle] event; [requireVolumeSpike] is the setting
    of that name.  The two market caps are binary64 products. *)
Definition onCandle (requireVolumeSpike sendThrows : bool) (now : Z)
    (candle : CandleManager.Candle) (w : World) : World :=
  let address := CandleManager.tokenAddress candle in
  let w1 := mkWorld (Storage.saveCandle candle (candles w)).1 (tokens w) (tokenAlerts w)
                    (queue w) (manager w) (trackedMints w) (lastAlertData w) (sent w) in
  let history := Storage.getRecentCandles address 60 (candles w1) in
  if length history =? 0 then w1 else
  let meta := CandleManager.tracked (manager w1) !! address in
  let symbol := str_or (meta ≫= CandleManager.m_symbol) (String.substring 0 8 address) in
  let currentMcap := js_mul (CandleManager.close candle) PUMP_FUN_SUPPLY in
  if ltb currentMcap 2000 then prune address w1 else
  let historyWithMeta := map (withSymbol symbol) history in
  match Strategy.checkStrategy EMA_calculate RSI_calculate (Some historyWithMeta)
                               requireVolumeSpike with
  | Strategy.Fired signal =>
      let mcap := js_mul (Strategy.s_price signal) PUMP_FUN_SUPPLY in
      if ltb mcap 5000 then w1
      else sendAlert sendThrows now signal
                     (str_or_null (meta ≫= CandleManager.m_poolAddress))
                     (meta ≫= CandleManager.m_launchedAt) w1
  | _ => w1
  end.

End WithIndicators.

(** [Candle.findOne({tokenAddress}).sort({timestamp: -1})] *)
Definition latestCandle (address : string) (db : Storage.Candles)
  : option Storage.CandleDoc :=
  head (merge_sort Storage.newerFirst (Storage.docsOf address db)).

Inductive Reason : Type :=
  | LowVolume
  | OldLowMc.

(** The [reason] one iteration of [maintenanceLoop] finds for a token;
    [volMap] is the answer of [getVolume5m].  The market cap is the product
    of the latest close and the supply as the code computes it, in
    binary64.  The age is a difference of clock values in milliseconds,
    which is exact, and its quotient is only compared with 2: the quotient
    of the code is above 2 exactly when the exact one is. *)
Definition pruneReason (volMap : gmap string Q) (now : Z) (w : World) (address : string)
  : option Reason :=
  let meta := CandleManager.tracked (manager w) !! address in
  let vol5m := volMap !! address in
  let mc :=
    match latestCandle address (candles w) with
    | Some c => if Qeq_bool (Storage.close c) 0 then None
                else Some (js_mul (Storage.close c) PUMP_FUN_SUPPLY)
    | None => None
    end in
  let launchedAt := default 0%Z (meta ≫= CandleManager.m_launchedAt) in
  let ageHours := (inject_Z (now - launchedAt) / 3600000)%Q in
  let reason :=
    match vol5m with
    | Some v => if ltb v 100 then Some LowVolume else None
    | None => None
    end in
  match reason with
  | Some r => Some r
  | None =>
      match mc with
      | Some m => if ltb m 5000 && Strategy.gtb ageHours 2 then Some OldLowMc else None
      | None => None
      end
  end.

(** [maintenanceLoop]: the tracked addresses are gone through one by one;
    what happens for one of them reads and writes nothing of another, so
    that the order of the keys does not matter. *)
Definition maintain (volMap : gmap string Q) (now : Z) (w : World) (address : string)
  : World :=
  match pruneReason volMap now w address with
  | Some _ => prune address w
  | None => w
  end.

Definition maintenanceLoop (volMap : gmap string Q) (now : Z) (w : World) : World :=
  let addresses := (map_to_list (CandleManager.tracked (manager w))).*1 in
  if length addresses =? 0 then w
  else foldl (maintain volMap now) w addresses.

(** What the stores other than the Candle collection hold for one address. *)
Definition untouched (a : string) (w w' : World) : Prop :=
  tokens w' !! a = tokens w !! a
  ∧ queue w' !! a = queue w !! a
  ∧ CandleManager.tracked (manager w') !! a = CandleManager.tracked (manager w) !! a
  ∧ CandleManager.buffers (manager w') !! a = CandleManager.buffers (manager w) !! a
  ∧ CandleManager.lastPrices (manager w') !! a = CandleManager.lastPrices (manager w) !! a
  ∧ (a ∈ trackedMints w' ↔ a ∈ trackedMints w)
  ∧ lastAlertData w' !! a = lastAlertData w !! a.

(** The token at [a] is no longer followed anywhere, and its document, when
    there is one, is inactive and otherwise as before. *)
Definition pruned (a : string) (w w' : World) : Prop :=
  tokens w' !! a = setInactive <$> tokens w !! a
  ∧ queue w' !! a = None
  ∧ CandleManager.tracked (manager w') !! a = None
  ∧ CandleManager.buffers (manager w') !! a = None
  ∧ CandleManager.lastPrices (manager w') !! a = None
  ∧ (a ∉ trackedMints w')
  ∧ lastAlertData w' !! a = None.

(** A world that follows token A, with forty stored candles at price 1, and
    two candles the manager may emit next: one at price 2, one at a price
    that puts the market cap at 1000. *)
Definition flatWorld : World :=
  mkWorld (list_to_map (map (λ i : nat, (("A"%string, (Z.of_nat i * 15000)%Z),
                                         Storage.docAt "A" (Z.of_nat i * 15000) 1))
                            (seq 1 40)))
          {[ "A"%string := BackfillQueue.mkToken "A" (Some "AAA"%string) None
                             (Some "pool-a"%string) None true ]}
          ∅ ∅
          (CandleManager.addToken "A"
             (CandleManager.mkMeta (Some "AAA"%string) None (Some "pool-a"%string) None)
             CandleManager.empty)
          {[ "A"%string ]} ∅ [].

Definition risingCandle : CandleManager.Candle :=
  CandleManager.mkCandle "A" (Some "pool-a"%string) "AAA" (41 * 15000) 2 2 2 2 0 1.

Definition lowCandle : CandleManager.Candle :=
  CandleManager.mkCandle "A" (Some "pool-a"%string) "AAA" (41 * 15000)
                         (1 # 1000000) (1 # 1000000) (1 # 1000000) (1 # 1000000) 0 1.

(** Two prices at the thresholds: the binary64 numbers written 2e-6 and
    4.9999999999999996e-06.  Their exact products with the supply are below
    2000 and 5000, their binary64 products are 2000 and 5000. *)
Definition twoMillionths : Q := 4722366482869645 # 2361183241434822606848.
Definition nearlyFiveMillionths : Q := 368934881474191 # 73786976294838206464.

Definition thresholdCandle : CandleManager.Candle :=
  CandleManager.mkCandle "A" (Some "pool-a"%string) "AAA" (41 * 15000)
                         twoMillionths twoMillionths twoMillionths twoMillionths 0 1.

(** A world that follows token A, launched at the epoch, whose one candle
    closed at the second of these prices. *)
Definition oldWorld : World :=
  mkWorld {[ ("A"%string, 15000%Z) := Storage.docAt "A" 15000 nearlyFiveMillionths ]}
          {[ "A"%string := BackfillQueue.mkToken "A" (Some "AAA"%string) None
                             (Some "pool-a"%string) None true ]}
          ∅ ∅
          (CandleManager.addToken "A"
             (CandleManager.mkMeta (Some "AAA"%string) None (Some "pool-a"%string) (Some 0%Z))
             CandleManager.empty)
          {[ "A"%string ]} ∅ [].

End App.

(* ===================================================================== *)
(** * Properties *)
(* ===================================================================== *)

(** ** Cursors *)

Lemma limitTo_take {A : Type} (n : nat) (l : list A) :
  limitTo n l = take (if n =? 0 then length l else n) l.
Proof. unfold limitTo. destruct (n =? 0); [by rewrite firstn_all | done]. Qed.

Lemma limitTo_length {A : Type} (n : nat) (l : list A) :
  length (limitTo n l) = if n =? 0 then length l else n `min` length l.
Proof. unfold limitTo. destruct (n =? 0); [done | apply length_take]. Qed.

(** ** Candle aggregation *)

Section CandleAggregation.

Import CandleManager.

Local Open Scope Q_scope.

Lemma or_zero_Num (v : Q) : or_zero (Num v) == v.
Proof.
  unfold or_zero. destruct (Qeq_bool v 0) eqn:E; [|reflexivity].
  apply Qeq_bool_eq in E. symmetry. exact E.
Qed.

Lemma Qsum_snoc (l : list Q) (v : Q) : Qsum (l ++ [v]) == Qsum l + v.
Proof.
  induction l as [|x l IH]; simpl.
  - ring.
  - transitivity (x + (Qsum l + v)); [|ring].
    apply Qplus_comp; [reflexivity | exact IH].
Qed.

Lemma Qsum_or_zero (vs : list Q) : Qsum (map or_zero (map Num vs)) == Qsum vs.
Proof.
  induction vs as [|v vs IH]; simpl; [reflexivity|].
  apply Qplus_comp; [apply or_zero_Num | exact IH].
Qed.








Lemma has_true {V : Type} (m : gmap string V) (k : string) :
  has m k = true ↔ is_Some (m !! k).
Proof.
  unfold has. destruct (m !! k); split; intros H; eauto; try done.
  all: by destruct H.
Qed.

(** *** The key sets of [tracked] and [buffers] agree in every state the
        class can reach. *)

Lemma consistent_empty : consistent empty.
Proof. intros k. simpl. rewrite !lookup_empty. split; intros [? ?]; done. Qed.

Lemma consistent_addToken (a : string) (meta : Meta) (cm : t) :
  consistent cm → consistent (addToken a meta cm).
Proof.
  intros Hc k. unfold addToken. destruct (has (tracked cm) a); [apply Hc|].
  simpl. destruct (decide (a = k)) as [->|Hne].
  - rewrite !lookup_insert_eq. split; eauto.
  - rewrite !lookup_insert_ne by done. apply Hc.
Qed.

Lemma consistent_removeToken (a : string) (cm : t) :
  consistent cm → consistent (removeToken a cm).
Proof.
  intros Hc k. unfold removeToken. simpl. destruct (decide (a = k)) as [->|Hne].
  - rewrite !lookup_delete_eq. split; intros [? ?]; done.
  - rewrite !lookup_delete_ne by done. apply Hc.
Qed.

Lemma addTrade_step (tr : Trade) (cm : t) :
  consistent cm →
  ∃ cm', addTrade (tr_token tr) (tr_price tr) (tr_volume tr) cm = Return cm'
         ∧ consistent cm'
         ∧ tracked cm' = tracked cm
         ∧ ∀ a ob, buffers cm !! a = Some ob →
             buffers cm' !! a =
               Some (match sampleFor a tr with Some s => feed ob s | None => ob end).
Proof.
  intros Hc. unfold addTrade, sampleFor.
  destruct (has (tracked cm) (tr_token tr)) eqn:Ht; simpl.
  2:{ exists cm. split_and!; [done..|]. intros a ob Hb.
      destruct (decide (tr_token tr = a)) as [<-|]; [|done].
      assert (is_Some (tracked cm !! tr_token tr)) as Hs by (apply Hc; eauto).
      apply has_true in Hs. congruence. }
  destruct (tr_price tr) as [|p]; simpl.
  { exists cm. split_and!; [done..|]. intros a ob Hb. by destruct (decide _). }
  destruct (Qle_bool p 0) eqn:Hp.
  { exists cm. split_and!; [done..|]. intros a ob Hb. by destruct (decide _). }
  apply has_true, Hc in Ht. destruct Ht as [ob0 Hb0]. rewrite Hb0.
  destruct ob0 as [buf|]; eexists; (split; [reflexivity|]); simpl.
  - split; [|split; [done|]].
    + intros k. simpl. destruct (decide (tr_token tr = k)) as [<-|Hne].
      * rewrite lookup_insert_eq. split; [eauto|]. intros _. apply Hc. eauto.
      * rewrite lookup_insert_ne by done. apply Hc.
    + intros a ob Hb. destruct (decide (tr_token tr = a)) as [<-|Hne].
      * rewrite lookup_insert_eq. rewrite Hb0 in Hb. by simplify_eq.
      * by rewrite lookup_insert_ne.
  - split; [|split; [done|]].
    + intros k. simpl. destruct (decide (tr_token tr = k)) as [<-|Hne].
      * rewrite lookup_insert_eq. split; [eauto|]. intros _. apply Hc. eauto.
      * rewrite lookup_insert_ne by done. apply Hc.
    + intros a ob Hb. destruct (decide (tr_token tr = a)) as [<-|Hne].
      * rewrite lookup_insert_eq. rewrite Hb0 in Hb. by simplify_eq.
      * by rewrite lookup_insert_ne.
Qed.


(** *** What a buffer holds after a run of samples *)







(** *** The loop of [closeCandlesFor] *)

Lemma closeEntry_foldl (ts : Z) (l : list (string * option Buffer))
    (cm : t) (out : list Candle) :
  foldl (closeEntry ts) (cm, out) l =
    (mk (foldl resetEntry (buffers cm) l) (tracked cm) (lastPrices cm),
     out ++ omap (emittedBy ts (tracked cm)) l).
Proof.
  revert cm out. induction l as [|[k [buf|]] l IH]; intros cm out; simpl.
  - rewrite app_nil_r. by destruct cm.
  - unfold closeEntry at 2. simpl. rewrite IH. simpl.
    by rewrite <- app_assoc.
  - unfold closeEntry at 2. simpl. by rewrite IH.
Qed.

Lemma resetEntry_keeps_null (l : list (string * option Buffer))
    (m : gmap string (option Buffer)) (k : string) :
  m !! k = Some None → foldl resetEntry m l !! k = Some None.
Proof.
  revert m. induction l as [|[k' [buf|]] l IH]; intros m Hm; simpl; [done| |by apply IH].
  apply IH. unfold resetEntry; simpl.
  destruct (decide (k' = k)) as [->|]; [by rewrite lookup_insert_eq|].
  by rewrite lookup_insert_ne.
Qed.

Lemma resetEntry_resets (l : list (string * option Buffer))
    (m : gmap string (option Buffer)) (k : string) (buf : Buffer) :
  (k, Some buf) ∈ l → foldl resetEntry m l !! k = Some None.
Proof.
  revert m. induction l as [|e l IH]; intros m Hin; [by apply elem_of_nil in Hin|].
  apply elem_of_cons in Hin as [<- | Hin]; simpl.
  - apply resetEntry_keeps_null. unfold resetEntry; simpl.
    by rewrite lookup_insert_eq.
  - by apply IH.
Qed.

Lemma resetEntry_untouched (l : list (string * option Buffer))
    (m : gmap string (option Buffer)) (k : string) :
  (∀ buf, (k, Some buf) ∉ l) → foldl resetEntry m l !! k = m !! k.
Proof.
  revert m. induction l as [|[k' ob] l IH]; intros m Hnot; simpl; [done|].
  rewrite IH.
  - unfold resetEntry; simpl. destruct ob as [buf|]; [|done].
    apply lookup_insert_ne. intros ->. apply (Hnot buf). by left.
  - intros buf Hin. apply (Hnot buf). by right.
Qed.

Lemma closeCandlesFor_buffers (ts : Z) (cm : t) (k : string) :
  buffers (closeCandlesFor ts cm).1 !! k = (λ _, None) <$> buffers cm !! k.
Proof.
  unfold closeCandlesFor. rewrite closeEntry_foldl. simpl.
  destruct (buffers cm !! k) as [[buf|]|] eqn:E; simpl.
  - apply (resetEntry_resets _ _ _ buf). by apply elem_of_map_to_list.
  - rewrite resetEntry_untouched; [done|].
    intros buf Hin%elem_of_map_to_list. congruence.
  - rewrite resetEntry_untouched; [done|].
    intros buf Hin%elem_of_map_to_list. congruence.
Qed.

Lemma closeCandlesFor_emitted (ts : Z) (cm : t) (c : Candle) :
  c ∈ (closeCandlesFor ts cm).2 ↔
  ∃ k buf, buffers cm !! k = Some (Some buf) ∧ c = candleOf ts (tracked cm) k buf.
Proof.
  unfold closeCandlesFor. rewrite closeEntry_foldl. simpl.
  rewrite list_elem_of_omap. split.
  - intros ([k ob] & Hin%elem_of_map_to_list & He). unfold emittedBy in He; simpl in He.
    destruct ob as [buf|]; simpl in He; [|done]. exists k, buf. by simplify_eq.
  - intros (k & buf & Hb & ->). exists (k, Some buf).
    split; [by apply elem_of_map_to_list | done].
Qed.

Lemma closeCandlesFor_consistent (ts : Z) (cm : t) :
  consistent cm → consistent (closeCandlesFor ts cm).1.
Proof.
  intros Hc k. rewrite closeCandlesFor_buffers.
  unfold closeCandlesFor. rewrite closeEntry_foldl. simpl.
  rewrite (Hc k). destruct (buffers cm !! k); simpl; split; intros [? ?]; eauto; done.
Qed.



(** Three trades with the volumes 0.1, 0.2 and 0.3: the candle carries the
    volume the two additions of the code give, 0.6000000000000001, which is
    not the exact sum of the three. *)
Example three_tenths :
  jsSum tenths = 1351079888211149 # 2251799813685248
  ∧ ¬ jsSum tenths == Qsum tenths
  ∧ volume <$> (closeCandlesFor 15000
                  match addTrades (map (λ v, mkTrade "A" (Num 1) (Num v)) tenths) demo with
                  | Return cm | Throw cm => cm
                  end).2
    = [1351079888211149 # 2251799813685248].
Proof.
  split_and!; [by vm_compute | | by vm_compute].
  intros H. vm_compute in H. discriminate H.
Qed.

(** C9. [addTrade] returns without touching [buffers], [lastPrices] or
    [tracked], and without throwing, when the token is not tracked, when the
    price is NaN, and when the price is at most 0. *)
Theorem addTrade_drops_invalid (a : string) (price volume : jsnum) (cm : t) :
  tracked cm !! a = None ∨ price = NaN ∨ (∃ q, price = Num q ∧ q <= 0) →
  addTrade a price volume cm = Return cm.
Proof.
  intros H. unfold addTrade, has.
  destruct (tracked cm !! a) eqn:Et; simpl; [|done].
  destruct H as [H | [-> | (q & -> & Hq)]]; [done|done|].
  simpl. apply Qle_bool_iff in Hq. by rewrite Hq.
Qed.

Lemma addTrade_drops_invalid_witness :
  addTrade "A" (Num (-1)) (Num 6) demo = Return demo.
Proof.
  apply (addTrade_drops_invalid "A" (Num (-1)) (Num 6) demo).
  right. right. exists (-1). split; [reflexivity | vm_compute; discriminate].
Defined.

End CandleAggregation.

(** ** Strategy evaluation *)

Section StrategyEvaluation.

Import Strategy.

Local Open Scope Q_scope.

Lemma checkStrategy_below_minimum
    (EMA RSI : nat → list Q → list Q) (h : list Candle) (flag : bool) :
  (length h < 21)%nat → checkStrategy EMA RSI (Some h) flag = Null.
Proof.
  intros H. unfold checkStrategy.
  destruct (Nat.ltb_spec (length h) MIN_CANDLES) as [_|Hge]; [reflexivity|].
  unfold MIN_CANDLES in Hge. lia.
Qed.

(** C8. On a missing history and on a history of fewer than 21 candles
    (the empty one included), [checkStrategy] returns [null]; it does not
    throw.  This holds whatever the indicator functions compute, since
    they are not reached. *)
Theorem short_history_returns_null
    (EMA RSI : nat → list Q → list Q)
    (history : option (list Candle)) (requireVolumeSpike : bool) :
  (∀ h, history = Some h → (length h < 21)%nat) →
  checkStrategy EMA RSI history requireVolumeSpike = Null.
Proof.
  intros H. destruct history as [h|]; [|reflexivity].
  apply checkStrategy_below_minimum, H. reflexivity.
Qed.

Lemma short_history_returns_null_witness :
  evaluate (Some (replicate 20 (mk 1 1))) true = Null.
Proof.
  apply (short_history_returns_null EMA_calculate RSI_calculate).
  intros h [= <-]. vm_compute. lia.
Defined.

Lemma short_history_missing (EMA RSI : nat → list Q → list Q) (flag : bool) :
  checkStrategy EMA RSI None flag = Null ∧ checkStrategy EMA RSI (Some []) flag = Null.
Proof. split; reflexivity. Qed.

(** C2. On every history of 41 candles whose closes are forty times 1.0 and
    then 2.0, the evaluator with the volume flag off returns a signal, whose
    fast EMA (period 9) is above its slow EMA (period 20) and whose RSI is
    above 50. *)
Theorem crossover_scenario_fires (history : list Candle) :
  map close history = replicate 40 1 ++ [2] →
  ∃ s, evaluate (Some history) false = Fired s
       ∧ s_ema20 s < s_ema9 s
       ∧ 50 < s_rsi s.
Proof.
  intros Hc.
  assert (length history = 41%nat) as Hlen.
  { rewrite <- (length_map close), Hc. reflexivity. }
  destruct (last history) as [latest|] eqn:El.
  2:{ apply last_None in El. subst history. discriminate Hlen. }
  unfold evaluate, checkStrategy. rewrite Hlen, Hc, El.
  eexists. split; [vm_compute; reflexivity|].
  split; vm_compute; reflexivity.
Qed.

Lemma crossover_scenario_fires_witness :
  ∃ s, evaluate (Some triggerHistory) false = Fired s
       ∧ s_ema20 s < s_ema9 s
       ∧ 50 < s_rsi s.
Proof.
  apply (crossover_scenario_fires triggerHistory). vm_compute. reflexivity.
Defined.

(** The values behind C2: the fast EMA is 6/5, the slow one 23/21, the RSI
    100. *)
Example crossover_scenario_values :
  ∃ s, evaluate (Some triggerHistory) false = Fired s
       ∧ s_ema9 s == 6 # 5 ∧ s_ema20 s == 23 # 21 ∧ s_rsi s == 100.
Proof. eexists. split; [vm_compute; reflexivity|]. by vm_compute. Qed.

(** The flat scenario of test.js: no crossover, no signal. *)
Example flat_scenario_is_silent :
  evaluate (Some (replicate 50 (mk 1 1))) false = Null.
Proof. vm_compute. reflexivity. Qed.

(** *** The volume gate *)

Lemma foldl_Qplus_zero (l : list Q) (acc : Q) :
  acc == 0 → Forall (λ v, v == 0) l → foldl Qplus acc l == 0.
Proof.
  revert acc. induction l as [|v l IH]; intros acc Hacc Hl; simpl; [done|].
  inversion Hl; subst. apply IH; [|done].
  transitivity (0 + 0); [by apply Qplus_comp | ring].
Qed.

Lemma Array_slice_Forall {A : Type} (P : A → Prop) (l : list A) (i j : Z) :
  Forall P l → Forall P (Array_slice l i j).
Proof. intros H. unfold Array_slice. by apply Forall_take, Forall_drop. Qed.

Lemma avgVolumeOf_zero_volumes (h : list Candle) :
  Forall (λ c, volume c == 0) h → avgVolumeOf h == 0.
Proof.
  intros H. unfold avgVolumeOf.
  destruct (5 <=? length _)%nat; [|reflexivity].
  unfold Qdiv.
  transitivity (0 * / inject_Z (Z.of_nat (length (Array_slice (map volume h) (-11) (-1)))));
    [|ring].
  apply Qmult_comp; [|reflexivity].
  apply foldl_Qplus_zero; [reflexivity|].
  apply Array_slice_Forall. by apply Forall_fmap.
Qed.

Lemma gate_closed_on_zero_average
    (EMA RSI : nat → list Q → list Q) (h : list Candle) :
  avgVolumeOf h == 0 → checkStrategy EMA RSI (Some h) true = Null.
Proof.
  intros Havg. unfold checkStrategy.
  destruct (length h <? MIN_CANDLES)%nat; [reflexivity|].
  destruct (last_two (EMA 9%nat _)) as [[e9p e9c]|]; [|reflexivity].
  destruct (last_two (EMA 20%nat _)) as [[e20p e20c]|]; [|reflexivity].
  destruct (negb (Qle_bool e9p e20p && gtb e9c e20c)); [reflexivity|].
  destruct (last (RSI 14%nat _)) as [rsi|]; [|reflexivity].
  destruct (negb (gtb rsi 50)); [reflexivity|].
  fold (avgVolumeOf h).
  assert (gtb (avgVolumeOf h) 0 = false) as ->; [|reflexivity].
  unfold gtb. apply negb_false_iff, Qle_bool_iff.
  rewrite Havg. apply Qle_refl.
Qed.

(** C10. With the volume flag on, [checkStrategy] returns [null] when the
    trailing average volume is zero, when fewer than 5 completed candles
    precede the current one, and when every volume of the history is zero
    (what the live sampler produces), whatever the EMAs and the RSI are. *)
Theorem volume_flag_blocks_zero_volume
    (EMA RSI : nat → list Q → list Q) (h : list Candle) :
  avgVolumeOf h == 0 ∨ (length h - 1 < 5)%nat ∨ Forall (λ c, volume c == 0) h →
  checkStrategy EMA RSI (Some h) true = Null.
Proof.
  intros [Havg | [Hfew | Hzero]].
  - by apply gate_closed_on_zero_average.
  - apply checkStrategy_below_minimum. lia.
  - by apply gate_closed_on_zero_average, avgVolumeOf_zero_volumes.
Qed.

Lemma volume_flag_blocks_zero_volume_witness :
  evaluate (Some sampledHistory) true = Null.
Proof.
  apply (volume_flag_blocks_zero_volume EMA_calculate RSI_calculate sampledHistory).
  right. right. unfold sampledHistory.
  apply Forall_app. split; [apply Forall_replicate|apply Forall_singleton]; reflexivity.
Defined.

(** The same history does fire once the flag is off: the crossover and the
    RSI condition hold on it, the gate alone withholds the signal. *)
Example sampled_history_fires_without_flag :
  ∃ s, evaluate (Some sampledHistory) false = Fired s ∧ s_isVolumeSpike s = false.
Proof. eexists. split; [vm_compute; reflexivity|]. reflexivity. Qed.

End StrategyEvaluation.

(** ** The backfill queue *)

Section BackfillQueueProps.

Import Gecko BackfillQueue.

(** C5. [enqueue] inserts only when the address has no entry: an existing
    entry, whatever its status, is left as it is with the whole queue; so a
    second [enqueue] of the same address changes nothing, the size of the
    queue included, and an entry the first call created is still pending with
    0 attempts. *)
Theorem enqueue_insert_if_absent
    (token token' : Enqueued) (d d' : Z) (q : gmap string Task) :
  e_address token' = e_address token →
  (∀ t, q !! e_address token = Some t → enqueue token d q = q)
  ∧ enqueue token' d' (enqueue token d q) = enqueue token d q
  ∧ size (enqueue token' d' (enqueue token d q)) = size (enqueue token d q)
  ∧ (q !! e_address token = None →
     size (enqueue token' d' (enqueue token d q)) = S (size q)
     ∧ ∃ t, enqueue token' d' (enqueue token d q) !! e_address token = Some t
            ∧ attempts t = 0 ∧ status t = pending).
Proof.
  intros Ha.
  assert (enqueue token' d' (enqueue token d q) = enqueue token d q) as Hsame.
  { unfold enqueue at 1. rewrite Ha.
    unfold enqueue. destruct (q !! e_address token) as [t|] eqn:E.
    - by rewrite E.
    - by rewrite lookup_insert_eq. }
  split_and!.
  - intros t Ht. unfold enqueue. by rewrite Ht.
  - exact Hsame.
  - by rewrite Hsame.
  - intros Hnone. rewrite Hsame. unfold enqueue. rewrite Hnone. split.
    + by apply map_size_insert_None.
    + eexists. rewrite lookup_insert_eq. done.
Qed.

Lemma enqueue_insert_if_absent_witness :
  (∀ t, queue restarted !! "A"%string = Some t →
        enqueue tokenA 7 (queue restarted) = queue restarted)
  ∧ enqueue tokenA 9 (enqueue tokenA 7 (queue restarted)) = enqueue tokenA 7 (queue restarted)
  ∧ size (enqueue tokenA 9 (enqueue tokenA 7 (queue restarted)))
    = size (enqueue tokenA 7 (queue restarted))
  ∧ (queue restarted !! "A"%string = None →
     size (enqueue tokenA 9 (enqueue tokenA 7 (queue restarted))) = S (size (queue restarted))
     ∧ ∃ t, enqueue tokenA 9 (enqueue tokenA 7 (queue restarted)) !! "A"%string = Some t
            ∧ attempts t = 0 ∧ status t = pending).
Proof.
  apply (enqueue_insert_if_absent tokenA tokenA 7 9 (queue restarted)).
  reflexivity.
Defined.

(** Enqueueing twice into the empty queue: one entry, no attempts. *)
Example enqueue_twice_fresh :
  size (enqueue tokenA 9 (enqueue tokenA 7 ∅)) = 1
  ∧ (attempts <$> enqueue tokenA 9 (enqueue tokenA 7 ∅) !! "A"%string) = Some 0
  ∧ (enqueuedAt <$> enqueue tokenA 9 (enqueue tokenA 7 ∅) !! "A"%string) = Some 7%Z.
Proof. by vm_compute. Qed.

(** *** One item *)

Ltac processItem_cases :=
  unfold processItem, processWithPool, maybeMarkFailed;
  repeat (case_match; simpl in *; simplify_eq; try done).

Lemma processItem_other (item : Task) (env : Env) (s : Sys) (b : string) :
  b ≠ address item → queue (processItem item env s) !! b = queue s !! b.
Proof.
  intros Hne.
  processItem_cases; repeat (progress (simpl; rewrite ?lookup_alter_ne by done)); done.
Qed.

Lemma processItem_draining (item : Task) (env : Env) (s : Sys) :
  draining (processItem item env s) = draining s.
Proof. processItem_cases. Qed.

Lemma processItem_self (item cur : Task) (env : Env) (s : Sys) :
  queue s !! address item = Some cur →
  ∃ t', queue (processItem item env s) !! address item = Some t'
        ∧ address t' = address cur
        ∧ attempts t' = attempts cur + 1
        ∧ (status t' = done
           ∨ (status t' = failed ∧ MAX_ATTEMPTS ≤ attempts item + 1)
           ∨ (status t' = status cur ∧ attempts item + 1 < MAX_ATTEMPTS)).
Proof.
  intros Hcur.
  processItem_cases;
    repeat (progress (simpl; rewrite ?lookup_alter_eq, ?Hcur)); simpl;
    (eexists; split; [reflexivity|]); simpl; split_and!; try done;
    repeat match goal with
           | H : (_ <=? _) = true |- _ => apply Nat.leb_le in H
           | H : (_ <=? _) = false |- _ => apply Nat.leb_gt in H
           end;
    unfold MAX_ATTEMPTS in *;
    first [ by left
          | right; left; split; [done | lia]
          | right; right; split; [done | lia] ].
Qed.

(** *** The batch of a drain *)

Lemma selectBatch_elem (q : gmap string Task) (n : nat) (d : Z) (item : Task) :
  keyed q → item ∈ selectBatch n d q →
  q !! address item = Some item ∧ status item = pending.
Proof.
  intros Hk Hin. unfold selectBatch in Hin. rewrite limitTo_take in Hin.
  apply elem_of_take in Hin as (i & Hi%list_elem_of_lookup_2 & _).
  rewrite merge_sort_Permutation in Hi.
  apply list_elem_of_filter in Hi as [He Hi].
  apply list_elem_of_fmap in Hi as ([k t] & -> & Hi%elem_of_map_to_list).
  simpl in *. rewrite (Hk _ _ Hi). split; [done|].
  unfold eligible in He. apply andb_true_iff in He as [He _].
  by apply bool_decide_eq_true in He.
Qed.

Lemma keyed_addresses (q : gmap string Task) :
  keyed q → address <$> (map_to_list q).*2 = (map_to_list q).*1.
Proof.
  intros Hk. rewrite <- list_fmap_compose. apply list_fmap_ext.
  intros i [k t] Hi%list_elem_of_lookup_2%elem_of_map_to_list. simpl.
  by apply Hk.
Qed.

Lemma selectBatch_NoDup (q : gmap string Task) (n : nat) (d : Z) :
  keyed q → NoDup (address <$> selectBatch n d q).
Proof.
  intros Hk. unfold selectBatch. rewrite limitTo_take.
  assert (NoDup (address <$> (map_to_list q).*2)) as Hall.
  { rewrite keyed_addresses by done. apply NoDup_fst_map_to_list. }
  set (P := λ t : Task, eligible (d - RETRY_AFTER_MS) t = true).
  assert (NoDup (address <$> filter P (map_to_list q).*2)) as Hfil.
  { apply (sublist_NoDup _ _ Hall), fmap_sublist, sublist_filter. }
  assert (NoDup (address <$> merge_sort task_le (filter P (map_to_list q).*2))) as Hsort.
  { by rewrite merge_sort_Permutation. }
  apply (sublist_NoDup _ _ Hsort), fmap_sublist, sublist_take.
Qed.

Lemma selectBatch_skips (q : gmap string Task) (n : nat) (d : Z) (a : string) (t : Task) :
  keyed q → q !! a = Some t → status t ≠ pending →
  a ∉ address <$> selectBatch n d q.
Proof.
  intros Hk Ht Hst Hin.
  apply list_elem_of_fmap in Hin as (item & -> & Hin).
  destruct (selectBatch_elem _ _ _ _ Hk Hin) as [Hq Hp]. congruence.
Qed.

(** *** A whole drain *)

Lemma processItems_queue (items : list Task) (env : Env) (s : Sys) :
  NoDup (address <$> items) →
  (∀ item, item ∈ items → queue s !! address item = Some item) →
  (∀ b, b ∉ address <$> items →
        queue (foldl (λ acc item, processItem item env acc) s items) !! b = queue s !! b)
  ∧ (∀ item, item ∈ items →
       ∃ t', queue (foldl (λ acc item, processItem item env acc) s items) !! address item
               = Some t'
             ∧ processed item t').
Proof.
  revert s. induction items as [|item items IH]; intros s Hnd Hacc.
  { split; [done|]. intros item Hin. by apply elem_of_nil in Hin. }
  apply NoDup_cons in Hnd as [Hfresh Hnd]. simpl.
  destruct (IH (processItem item env s) Hnd) as [IHother IHself].
  { intros item' Hin'. rewrite processItem_other.
    - apply Hacc. by right.
    - intros E. apply Hfresh. rewrite <- E. by apply list_elem_of_fmap_2. }
  split.
  - intros b Hb. apply not_elem_of_cons in Hb as [Hb1 Hb2].
    rewrite IHother by done. by apply processItem_other.
  - intros item' [-> | Hin']%elem_of_cons; [|by apply IHself].
    rewrite IHother by done.
    destruct (processItem_self item item env s) as (t' & Ht' & Ha & Hn & Hst).
    { apply Hacc. by left. }
    exists t'. split; [done|]. by split_and!.
Qed.

Lemma processItems_draining (items : list Task) (env : Env) (s : Sys) :
  draining (foldl (λ acc item, processItem item env acc) s items) = draining s.
Proof.
  revert s. induction items as [|item items IH]; intros s; simpl; [done|].
  by rewrite IH, processItem_draining.
Qed.

Lemma drain_unfold (n : nat) (env : Env) (s : Sys) :
  draining s = false →
  drain n env s =
    with_draining false
      (foldl (λ acc item, processItem item env acc) (with_draining true s)
             (selectBatch n (now env) (queue s))).
Proof.
  intros Hd. unfold drain. rewrite Hd. simpl.
  by destruct (selectBatch n (now env) (queue s)).
Qed.

Lemma drain_queue (n : nat) (env : Env) (s : Sys) :
  keyed (queue s) → draining s = false →
  draining (drain n env s) = false
  ∧ (∀ b, b ∉ address <$> selectBatch n (now env) (queue s) →
          queue (drain n env s) !! b = queue s !! b)
  ∧ (∀ item, item ∈ selectBatch n (now env) (queue s) →
       ∃ t', queue (drain n env s) !! address item = Some t' ∧ processed item t').
Proof.
  intros Hk Hd. rewrite drain_unfold by done. split; [done|]. simpl.
  apply (processItems_queue _ env (with_draining true s)).
  - by apply selectBatch_NoDup.
  - intros item Hin. simpl. by apply (selectBatch_elem _ _ _ _ Hk Hin).
Qed.

(** *** The operations keep the queue well formed *)

Lemma enqueue_keeps (token : Enqueued) (d : Z) (q : gmap string Task) (a : string) (t : Task) :
  q !! a = Some t → enqueue token d q !! a = Some t.
Proof.
  intros Ht. unfold enqueue. destruct (q !! e_address token) eqn:E; [done|].
  rewrite lookup_insert_ne; [done|]. intros Heq. rewrite Heq in E. congruence.
Qed.

Lemma enqueue_lookup (token : Enqueued) (d : Z) (q : gmap string Task) (a : string) (t : Task) :
  enqueue token d q !! a = Some t →
  q !! a = Some t ∨ (address t = a ∧ status t = pending ∧ attempts t = 0).
Proof.
  unfold enqueue. destruct (q !! e_address token) eqn:E; [by left|].
  destruct (decide (e_address token = a)) as [<-|Hne].
  - rewrite lookup_insert_eq. intros [= <-]. by right.
  - rewrite lookup_insert_ne by done. by left.
Qed.

Lemma audit_queue_ind (P : gmap string Task → Prop) (d : Z) (s : Sys) :
  (∀ token q, P q → P (enqueue token d q)) →
  P (queue s) → P (queue (auditAndEnqueueMissing d s)).
Proof.
  intros Hstep. unfold auditAndEnqueueMissing.
  generalize ((map_to_list (tokens s)).*2). intros l. revert s.
  induction l as [|token l IH]; intros s HP; simpl; [done|].
  apply IH. destruct (_ =? 0); simpl; [by apply Hstep | done].
Qed.

Lemma audit_draining (d : Z) (s : Sys) :
  draining (auditAndEnqueueMissing d s) = draining s.
Proof.
  unfold auditAndEnqueueMissing.
  generalize ((map_to_list (tokens s)).*2). intros l. revert s.
  induction l as [|token l IH]; intros s; simpl; [done|].
  rewrite IH. by destruct (_ =? 0).
Qed.

Lemma enqueue_wellFormed (token : Enqueued) (d : Z) (q : gmap string Task) :
  keyed q ∧ bounded q → keyed (enqueue token d q) ∧ bounded (enqueue token d q).
Proof.
  intros [Hk Hb]. split.
  - intros a t [Ht | (Ha & _)]%enqueue_lookup; [by apply Hk | done].
  - intros a t [Ht | (_ & _ & Hn)]%enqueue_lookup Hp; [by eapply Hb|].
    rewrite Hn. unfold MAX_ATTEMPTS. lia.
Qed.

Lemma drain_wellFormed (n : nat) (env : Env) (s : Sys) :
  wellFormed s → wellFormed (drain n env s).
Proof.
  intros (Hk & Hb & Hd).
  destruct (drain_queue n env s Hk Hd) as (Hd' & Hother & Hself).
  assert (∀ a t', queue (drain n env s) !! a = Some t' →
            queue s !! a = Some t'
            ∨ ∃ item, queue s !! a = Some item ∧ status item = pending
                      ∧ address item = a ∧ processed item t') as Hcases.
  { intros a t' Ht'.
    destruct (decide (a ∈ address <$> selectBatch n (now env) (queue s))) as [Hin|Hout].
    - right. apply list_elem_of_fmap in Hin as (item & -> & Hin).
      destruct (Hself item Hin) as (t'' & Ht'' & Hp).
      destruct (selectBatch_elem _ _ _ _ Hk Hin) as [Hq Hst].
      exists item. split_and!; try done. congruence.
    - left. by rewrite <- Hother. }
  split_and!; [| |done].
  - intros a t' [Ht | (item & Hq & _ & Ha & Hp & _)]%Hcases; [by apply Hk | congruence].
  - intros a t' [Ht | (item & Hq & Hst & Ha & _ & Hn & Hs)]%Hcases Hpend; [by eapply Hb|].
    destruct Hs as [Hs | [[Hs _] | [_ Hs]]]; [congruence | congruence | lia].
Qed.

Lemma step_wellFormed (s : Sys) (op : Op) : wellFormed s → wellFormed (step s op).
Proof.
  intros (Hk & Hb & Hd). destruct op as [token d | a | n env | d]; simpl.
  - destruct (enqueue_wellFormed token d (queue s)) as [? ?]; [done|].
    by split_and!.
  - split_and!; [| |done]; simpl; unfold remove.
    + intros b t Ht. apply lookup_delete_Some in Ht as [_ Ht]. by apply Hk.
    + intros b t Ht. apply lookup_delete_Some in Ht as [_ Ht]. by eapply Hb.
  - by apply drain_wellFormed.
  - split_and!.
    + apply (audit_queue_ind (λ q, keyed q ∧ bounded q)); [|done].
      intros; by apply enqueue_wellFormed.
    + apply (audit_queue_ind (λ q, keyed q ∧ bounded q)); [|done].
      intros; by apply enqueue_wellFormed.
    + by rewrite audit_draining.
Qed.

Lemma run_wellFormed (ops : list Op) (s : Sys) : wellFormed s → wellFormed (run s ops).
Proof.
  revert s. induction ops as [|op ops IH]; intros s Hs; simpl; [done|].
  by apply IH, step_wellFormed.
Qed.

Lemma initial_wellFormed : wellFormed initial.
Proof. split_and!; [| |done]; intros a t Ht; simpl in Ht; by rewrite lookup_empty in Ht. Qed.

(** *** A failed task stays as it is *)

Lemma step_keeps_failed (s : Sys) (op : Op) (a : string) (t : Task) :
  wellFormed s → queue s !! a = Some t → status t = failed → op ≠ OpRemove a →
  queue (step s op) !! a = Some t.
Proof.
  intros (Hk & Hb & Hd) Ht Hf Hop. destruct op as [token d | b | n env | d]; simpl.
  - by apply enqueue_keeps.
  - unfold remove. rewrite lookup_delete_ne; [done|]. congruence.
  - destruct (drain_queue n env s Hk Hd) as (_ & Hother & _).
    rewrite Hother; [done|]. eapply selectBatch_skips; [done..|]. congruence.
  - apply (audit_queue_ind (λ q, q !! a = Some t)); [|done].
    intros; by apply enqueue_keeps.
Qed.

Lemma run_keeps_failed (ops : list Op) (s : Sys) (a : string) (t : Task) :
  wellFormed s → queue s !! a = Some t → status t = failed → OpRemove a ∉ ops →
  queue (run s ops) !! a = Some t.
Proof.
  revert s. induction ops as [|op ops IH]; intros s Hs Ht Hf Hops; simpl; [done|].
  apply not_elem_of_cons in Hops as [Hop Hops].
  apply IH; [by apply step_wellFormed | | done..].
  by apply step_keeps_failed.
Qed.

(** *** Failing rounds use up the attempts *)

Lemma failing_round (n : nat) (env : Env) (s : Sys) (a : string) (t : Task) :
  wellFormed s → queue s !! a = Some t →
  a ∈ address <$> selectBatch n (now env) (queue s) →
  status <$> queue (drain n env s) !! a ≠ Some done →
  ∃ t', queue (drain n env s) !! a = Some t'
        ∧ attempts t' = attempts t + 1
        ∧ ((status t' = failed ∧ MAX_ATTEMPTS ≤ attempts t + 1)
           ∨ (status t' = pending ∧ attempts t + 1 < MAX_ATTEMPTS)).
Proof.
  intros (Hk & Hb & Hd) Ht Hin Hnot.
  destruct (drain_queue n env s Hk Hd) as (_ & _ & Hself).
  apply list_elem_of_fmap in Hin as (item & -> & Hin).
  destruct (selectBatch_elem _ _ _ _ Hk Hin) as [Hq Hst].
  assert (item = t) as -> by congruence.
  destruct (Hself t Hin) as (t' & Ht' & _ & Hn & Hs).
  exists t'. split_and!; try done.
  rewrite Ht' in Hnot. simpl in Hnot.
  destruct Hs as [Hs | [Hs | [Hs Hlt]]]; [congruence | by left | right].
  split; [congruence | done].
Qed.

Lemma failing_rounds_exhaust (rounds : list (nat * Env)) (s : Sys) (a : string) (t : Task) :
  wellFormed s → queue s !! a = Some t → status t = pending →
  attempts t + length rounds = MAX_ATTEMPTS →
  failingRounds a rounds s →
  ∃ t', queue (drains s rounds) !! a = Some t'
        ∧ status t' = failed ∧ attempts t' = MAX_ATTEMPTS.
Proof.
  revert s t. induction rounds as [|[n env] rounds IH]; intros s t Hs Ht Hp Hlen Hfail.
  { simpl in Hlen. destruct Hs as (_ & Hb & _). specialize (Hb a t Ht Hp). lia. }
  simpl in Hfail. destruct Hfail as (Hin & Hnot & Hrest).
  destruct (failing_round n env s a t Hs Ht Hin Hnot) as (t' & Ht' & Hn & Hcase).
  simpl in Hlen. unfold drains. simpl. fold (drains (drain n env s) rounds).
  destruct Hcase as [[Hf Hge] | [Hpend Hlt]].
  - assert (rounds = []) as -> by (destruct rounds; [done | simpl in Hlen; lia]).
    exists t'. split_and!; try done. simpl in Hlen. lia.
  - apply (IH _ t'); try done; [by apply drain_wellFormed | lia].
Qed.

(** C3. In every state reached from an empty queue by [enqueue], [remove],
    [drain] and the audit: a pending task has fewer than 5 attempts; a fresh
    pending task that five drains in a row select and fail to complete ends
    up failed, with 5 attempts; and a failed task, unless removed, stays
    exactly as it is through any later operations and is in the batch of no
    later drain. *)
Theorem backfill_attempts_bounded (s0 : Sys) (ops : list Op) :
  queue s0 = ∅ → draining s0 = false →
  (∀ a t, queue (run s0 ops) !! a = Some t → status t = pending →
          attempts t < MAX_ATTEMPTS)
  ∧ (∀ a t rounds,
       queue (run s0 ops) !! a = Some t → status t = pending → attempts t = 0 →
       length rounds = 5 → failingRounds a rounds (run s0 ops) →
       ∃ t', queue (drains (run s0 ops) rounds) !! a = Some t'
             ∧ status t' = failed ∧ attempts t' = MAX_ATTEMPTS)
  ∧ (∀ a t later,
       queue (run s0 ops) !! a = Some t → status t = failed → OpRemove a ∉ later →
       queue (run (run s0 ops) later) !! a = Some t
       ∧ ∀ n env,
           a ∉ address <$> selectBatch n (now env) (queue (run (run s0 ops) later))).
Proof.
  intros Hq Hd.
  assert (wellFormed (run s0 ops)) as Hwf.
  { apply run_wellFormed. split_and!; [| |done]; intros a t; rewrite Hq, lookup_empty; done. }
  split_and!.
  - intros a t Ht Hp. destruct Hwf as (_ & Hb & _). by eapply Hb.
  - intros a t rounds Ht Hp Hn Hlen Hfail.
    apply (failing_rounds_exhaust rounds _ a t); try done.
    rewrite Hn, Hlen. reflexivity.
  - intros a t later Ht Hf Hlater.
    assert (queue (run (run s0 ops) later) !! a = Some t) as Hkept
      by by apply run_keeps_failed.
    split; [done|]. intros n env.
    eapply selectBatch_skips; [|exact Hkept|congruence].
    by apply run_wellFormed.
Qed.

Lemma backfill_attempts_bounded_witness :
  (∀ a t, queue (run cleared auditThenDrain) !! a = Some t → status t = pending →
          attempts t < MAX_ATTEMPTS)
  ∧ (∀ a t rounds,
       queue (run cleared auditThenDrain) !! a = Some t → status t = pending →
       attempts t = 0 →
       length rounds = 5 → failingRounds a rounds (run cleared auditThenDrain) →
       ∃ t', queue (drains (run cleared auditThenDrain) rounds) !! a = Some t'
             ∧ status t' = failed ∧ attempts t' = MAX_ATTEMPTS)
  ∧ (∀ a t later,
       queue (run cleared auditThenDrain) !! a = Some t → status t = failed →
       OpRemove a ∉ later →
       queue (run (run cleared auditThenDrain) later) !! a = Some t
       ∧ ∀ n env,
           a ∉ address <$>
               selectBatch n (now env) (queue (run (run cleared auditThenDrain) later))).
Proof.
  apply (backfill_attempts_bounded cleared auditThenDrain); reflexivity.
Defined.

(** The max-attempts scenario on concrete data: a token is enqueued, five
    drains three minutes apart find no pool for it, and the task is failed;
    a sixth drain, however late, selects nothing. *)
Example five_failed_rounds :
  failingRounds "A" fiveRounds (step initial (OpEnqueue tokenA 0))
  ∧ queue (drains (step initial (OpEnqueue tokenA 0)) fiveRounds) !! "A"%string
    = Some exhaustedTask
  ∧ selectBatch 10 (60 * minute)
      (queue (drains (step initial (OpEnqueue tokenA 0)) fiveRounds)) = [].
Proof.
  split_and!.
  - vm_compute. repeat split; try discriminate; apply list_elem_of_here.
  - vm_compute. reflexivity.
  - vm_compute. reflexivity.
Qed.

(** *** The audit *)

Lemma audit_candles (d : Z) (s : Sys) :
  candles (auditAndEnqueueMissing d s) = candles s.
Proof.
  unfold auditAndEnqueueMissing.
  generalize ((map_to_list (tokens s)).*2). intros l. revert s.
  induction l as [|token l IH]; intros s; simpl; [done|].
  rewrite IH. by destruct (_ =? 0).
Qed.

(** What the audit does achieve: an entry it finds is left as it is, and
    every token without candles has an entry afterwards. *)
Lemma audit_keeps_entries (d : Z) (s : Sys) (a : string) (t : Task) :
  queue s !! a = Some t → queue (auditAndEnqueueMissing d s) !! a = Some t.
Proof.
  intros Ht. apply (audit_queue_ind (λ q, q !! a = Some t)); [|done].
  intros; by apply enqueue_keeps.
Qed.

Lemma audit_enqueues_missing (d : Z) (s : Sys) (k : string) (token : Token) :
  tokens s !! k = Some token →
  Storage.countDocuments (t_address token) (candles s) = 0 →
  is_Some (queue (auditAndEnqueueMissing d s) !! t_address token).
Proof.
  intros Hk Hc.
  assert (token ∈ (map_to_list (tokens s)).*2) as Hin.
  { apply list_elem_of_fmap. exists (k, token). split; [done|].
    by apply elem_of_map_to_list. }
  clear Hk. unfold auditAndEnqueueMissing. revert Hin Hc.
  generalize ((map_to_list (tokens s)).*2). intros l. revert s.
  induction l as [|token' l IH]; intros s Hin Hc; [by apply elem_of_nil in Hin|].
  apply elem_of_cons in Hin as [<- | Hin]; simpl.
  - rewrite Hc. simpl.
    match goal with
    | |- is_Some (queue (foldl ?f ?s1 l) !! _) =>
        assert (is_Some (queue s1 !! t_address token)) as [t Ht]
    end.
    { unfold enqueue; simpl.
      destruct (queue s !! t_address token) eqn:E; simpl; [by rewrite E|].
      rewrite lookup_insert_eq. eauto. }
    exists t. revert Ht.
    match goal with
    | |- context [foldl ?f ?s1 l] => generalize s1
    end.
    clear. induction l as [|x l IH]; intros s1 Ht; simpl; [done|].
    apply IH. destruct (_ =? 0); simpl; [by apply enqueue_keeps | done].
  - apply IH; [done | by destruct (_ =? 0)].
Qed.

(** A token without candles whose queue entry is failed with 5 attempts:
    after the audit the entry is still failed with 5 attempts. *)
Example audit_leaves_exhausted_entry :
  Storage.countDocuments "A" (candles restarted) = 0
  ∧ (t_address <$> tokens restarted !! "A"%string) = Some "A"%string
  ∧ queue (auditAndEnqueueMissing (20 * minute) restarted) !! "A"%string
    = Some exhaustedTask
  ∧ status exhaustedTask = failed
  ∧ attempts exhaustedTask = 5.
Proof. vm_compute. by split_and!. Qed.

End BackfillQueueProps.

(** ** The dedup gate *)

Section DedupGate.

Import Discovery.

Lemma size_union_le (X Y : gset string) : size (X ∪ Y) ≤ size X + size Y.
Proof.
  rewrite size_union_alt.
  assert (size (Y ∖ X) ≤ size Y) as Hle.
  { apply subseteq_size. set_solver. }
  lia.
Qed.

Lemma size_list_to_set_le (l : list string) :
  size (list_to_set l : gset string) ≤ length l.
Proof.
  induction l as [|x l IH].
  - rewrite list_to_set_nil, size_empty. done.
  - rewrite list_to_set_cons. etrans; [apply size_union_le|].
    rewrite size_singleton. simpl. lia.
Qed.

Lemma mcFilter_foldl (mcMap : gmap string Q) (l : list Migrated)
    (acc : list Migrated * gset string) :
  acc.2 ⊆ (foldl (mcFilter mcMap) acc l).2
  ∧ (foldl (mcFilter mcMap) acc l).2 ⊆ acc.2 ∪ list_to_set (address <$> l)
  ∧ (∀ t, t ∈ (foldl (mcFilter mcMap) acc l).1 → t ∈ acc.1 ∨ t ∈ l).
Proof.
  revert acc. induction l as [|x l IH]; intros acc; simpl.
  { split_and!; [set_solver | set_solver | auto]. }
  destruct (IH (mcFilter mcMap acc x)) as (H1 & H2 & H3).
  assert (acc.2 ⊆ (mcFilter mcMap acc x).2
          ∧ (mcFilter mcMap acc x).2 ⊆ acc.2 ∪ {[address x]}
          ∧ ∀ t, t ∈ (mcFilter mcMap acc x).1 → t ∈ acc.1 ∨ t = x) as (G1 & G2 & G3).
  { unfold mcFilter. destruct (mcMap !! address x) as [mc|]; [destruct (negb _)|];
      simpl; (split_and!; [set_solver | set_solver |]);
      intros t Ht; rewrite ?elem_of_app, ?list_elem_of_singleton in Ht; tauto. }
  split_and!; [set_solver | set_solver |].
  intros t Ht. destruct (H3 t Ht) as [Ht' | Ht']; [|right; by right].
  destruct (G3 t Ht') as [? | ->]; [by left | right; by left].
Qed.

Lemma mark_foldl (l : list Migrated) (seen : gset string) :
  foldl (λ (seen : gset string) token, {[address token]} ∪ seen) seen l
  = seen ∪ list_to_set (address <$> l).
Proof.
  revert seen. induction l as [|x l IH]; intros seen; simpl.
  - set_solver.
  - rewrite IH. set_solver.
Qed.

Lemma visited_elem (abortAt : option nat) (l : list Migrated) (t : Migrated) :
  t ∈ visited abortAt l → t ∈ l.
Proof.
  destruct abortAt as [k|]; simpl; [|done].
  intros (i & Hi & _)%elem_of_take. by eapply list_elem_of_lookup_2.
Qed.

Lemma discoveryLoop_between (tokens : list Migrated)
    (tokenDb : gmap string BackfillQueue.Token) (mcMap : gmap string Q)
    (abortAt : option nat) (seen : gset string) :
  afterCapCheck seen ⊆ discoveryLoop tokens tokenDb mcMap abortAt seen
  ∧ discoveryLoop tokens tokenDb mcMap abortAt seen
    ⊆ afterCapCheck seen ∪ list_to_set (address <$> tokens).
Proof.
  unfold discoveryLoop. cbv zeta. fold (afterCapCheck seen).
  generalize (afterCapCheck seen). intros seen0.
  destruct (length tokens =? 0); [set_solver|].
  destruct (length (filter _ (filter _ _)) =? 0); [set_solver|].
  match goal with
  | |- context [foldl (mcFilter mcMap) _ ?p] => set (processTokens := p)
  end.
  destruct (length processTokens =? 0); [set_solver|].
  destruct (mcFilter_foldl mcMap processTokens ([], seen0)) as (H1 & H2 & H3).
  simpl in H1, H2, H3.
  assert (∀ t, t ∈ processTokens → t ∈ tokens) as Hsub.
  { intros t Ht. unfold processTokens in Ht. by apply list_elem_of_filter in Ht as [_ Ht]. }
  assert (list_to_set (address <$> processTokens) ⊆@{gset string}
          list_to_set (address <$> tokens)) as Hsub'.
  { intros a Ha. apply elem_of_list_to_set in Ha. apply elem_of_list_to_set.
    apply list_elem_of_fmap in Ha as (t & -> & Ht). apply list_elem_of_fmap_2. auto. }
  destruct (length _ =? 0); [set_solver|].
  rewrite mark_foldl.
  assert (list_to_set (address <$> visited abortAt
                         (foldl (mcFilter mcMap) ([], seen0) processTokens).1)
          ⊆@{gset string} list_to_set (address <$> tokens)) as Hvis.
  { intros a Ha. apply elem_of_list_to_set in Ha. apply elem_of_list_to_set.
    apply list_elem_of_fmap in Ha as (t & -> & Ht%visited_elem).
    apply list_elem_of_fmap_2. destruct (H3 t Ht) as [Hnil | Hp]; [|auto].
    by apply elem_of_nil in Hnil. }
  set_solver.
Qed.

Lemma afterCapCheck_size (seen : gset string) : size (afterCapCheck seen) ≤ MAX_SEEN.
Proof.
  unfold afterCapCheck. destruct (Nat.ltb_spec MAX_SEEN (size seen)); [|done].
  rewrite size_empty. lia.
Qed.

Lemma cycle_size (seen : gset string) (c : Cycle) :
  size (cycle seen c) ≤ MAX_SEEN + length (c_tokens c).
Proof.
  destruct (discoveryLoop_between (c_tokens c) (c_tokenDb c) (c_mcMap c) (c_abortAt c) seen)
    as [_ Hup].
  etrans; [apply (subseteq_size _ _ Hup)|].
  etrans; [apply size_union_le|].
  pose proof (afterCapCheck_size seen).
  pose proof (size_list_to_set_le (address <$> c_tokens c)) as Hl.
  rewrite length_fmap in Hl. lia.
Qed.

(** C7. A discovery cycle first checks the size of the seen-set and empties
    it when the size exceeds [MAX_SEEN]: nothing of the old set survives,
    only addresses of the current batch are in it afterwards; a set within
    the cap loses nothing.  Over any run of cycles whose batches have at most
    [b] tokens, the size of the set stays within [MAX_SEEN + b]. *)
Theorem seen_set_bounded (seen : gset string) (cs : list Cycle) (b : nat) :
  size seen ≤ MAX_SEEN + b →
  Forall (λ c, length (c_tokens c) ≤ b) cs →
  size (cycles seen cs) ≤ MAX_SEEN + b
  ∧ (∀ old c, MAX_SEEN < size old →
       cycle old c ⊆ list_to_set (address <$> c_tokens c))
  ∧ (∀ old c, size old ≤ MAX_SEEN → old ⊆ cycle old c)
  ∧ (∀ old c, size (cycle old c) ≤ MAX_SEEN + length (c_tokens c)).
Proof.
  intros Hseen Hcs. split_and!.
  - revert seen Hseen. induction Hcs as [|c cs Hc Hcs IH]; intros seen Hseen; simpl; [done|].
    apply IH. pose proof (cycle_size seen c). lia.
  - intros old c Hbig.
    destruct (discoveryLoop_between (c_tokens c) (c_tokenDb c) (c_mcMap c) (c_abortAt c) old)
      as [_ Hup].
    unfold afterCapCheck in Hup. apply Nat.ltb_lt in Hbig. rewrite Hbig in Hup.
    unfold cycle. set_solver.
  - intros old c Hsmall.
    destruct (discoveryLoop_between (c_tokens c) (c_tokenDb c) (c_mcMap c) (c_abortAt c) old)
      as [Hlow _].
    unfold afterCapCheck in Hlow.
    destruct (Nat.ltb_spec MAX_SEEN (size old)); [lia|]. exact Hlow.
  - intros old c. apply cycle_size.
Qed.

Lemma seen_set_bounded_witness :
  size (cycles ∅ threeCycles) ≤ MAX_SEEN + 5
  ∧ (∀ old c, MAX_SEEN < size old →
       cycle old c ⊆ list_to_set (address <$> c_tokens c))
  ∧ (∀ old c, size old ≤ MAX_SEEN → old ⊆ cycle old c)
  ∧ (∀ old c, size (cycle old c) ≤ MAX_SEEN + length (c_tokens c)).
Proof.
  apply (seen_set_bounded ∅ threeCycles 5).
  - rewrite size_empty. lia.
  - unfold threeCycles. repeat constructor; simpl; lia.
Defined.

(** The run of the three cycles: tokens 1 to 3 are marked; then 4 is
    dropped for its market cap and marked, 1 and 2 are filtered as seen, 5 is
    marked and its iteration throws, so that 6 is not reached. *)
Example three_cycles_seen :
  cycles ∅ threeCycles = list_to_set ["1"; "2"; "3"; "4"; "5"]%string.
Proof. vm_compute. reflexivity. Qed.

End DedupGate.

(** ** The candle store *)

Section CandleStore.

Import Storage.

(** *** [insertMany] with [ordered: false] *)

Lemma insertMany_loop_lookup (docs : list CandleDoc) (db : Candles) (k : string * Z) :
  (insertMany_loop docs db).1 !! k =
    match db !! k with
    | Some d => Some d
    | None => head (filter (λ d, keyOf d = k) docs)
    end.
Proof.
  revert db. induction docs as [|d docs IH]; intros db; simpl.
  { by destruct (db !! k). }
  rewrite filter_cons.
  destruct (db !! keyOf d) as [old|] eqn:E; simpl.
  - rewrite IH. destruct (db !! k) eqn:Ek; [done|].
    destruct (decide (keyOf d = k)) as [Heq|]; [|done]. congruence.
  - rewrite IH. destruct (decide (keyOf d = k)) as [<-|Hne].
    + rewrite lookup_insert_eq, E. done.
    + by rewrite lookup_insert_ne.
Qed.

Lemma insertMany_loop_present (docs : list CandleDoc) (db : Candles) :
  (∀ d, d ∈ docs → is_Some (db !! keyOf d)) → (insertMany_loop docs db).1 = db.
Proof.
  intros Hall. apply map_eq. intros k. rewrite insertMany_loop_lookup.
  destruct (db !! k) eqn:Ek; [done|].
  destruct (filter _ docs) as [|d rest] eqn:Ef; [done|].
  assert (d ∈ filter (λ d, keyOf d = k) docs) as Hd by (rewrite Ef; by left).
  apply list_elem_of_filter in Hd as [<- Hd].
  destruct (Hall d Hd) as [? ?]. congruence.
Qed.

Lemma insertMany_loop_codes (docs : list CandleDoc) (db : Candles) :
  Forall (λ c, c = E11000) (insertMany_loop docs db).2.
Proof.
  revert db. induction docs as [|d docs IH]; intros db; simpl; [constructor|].
  destruct (db !! keyOf d); simpl; [constructor; [done|apply IH] | apply IH].
Qed.

Lemma insertMany_loop_written (docs : list CandleDoc) (db : Candles) (d : CandleDoc) :
  d ∈ docs → is_Some ((insertMany_loop docs db).1 !! keyOf d).
Proof.
  intros Hd. rewrite insertMany_loop_lookup. destruct (db !! keyOf d); [eauto|].
  destruct (filter _ docs) as [|x rest] eqn:Ef; simpl; [|eauto].
  assert (d ∈ filter (λ d', keyOf d' = keyOf d) docs) as Hin
    by (apply list_elem_of_filter; done).
  rewrite Ef in Hin. by apply elem_of_nil in Hin.
Qed.

(** *** [backfillCandles] and [saveCandle] *)

Lemma backfillCandles_store (a : string) (p : option string) (cs : list OHLCV) (db : Candles) :
  (backfillCandles a p cs db).1 = (insertMany_loop (map (docOfOHLCV a p) cs) db).1.
Proof.
  unfold backfillCandles, Candle_insertMany. destruct cs as [|c cs]; [done|].
  destruct (insertMany_loop _ db) as [db' errs]. simpl.
  destruct errs as [|e errs]; simpl; [done|].
  destruct (negb _); [|done]. by destruct (0 <? _).
Qed.

Lemma backfillCandles_silent (a : string) (p : option string) (cs : list OHLCV) (db : Candles) :
  (backfillCandles a p cs db).2 = [].
Proof.
  unfold backfillCandles, Candle_insertMany. destruct cs as [|c cs]; [done|].
  pose proof (insertMany_loop_codes (map (docOfOHLCV a p) (c :: cs)) db) as Hcodes.
  destruct (insertMany_loop _ db) as [db' errs]. simpl in *.
  destruct errs as [|e errs]; simpl; [done|].
  inversion Hcodes; subst. by rewrite Z.eqb_refl.
Qed.

Lemma backfillCandles_lookup (a : string) (p : option string) (cs : list OHLCV)
    (db : Candles) (k : string * Z) :
  (backfillCandles a p cs db).1 !! k =
    match db !! k with
    | Some d => Some d
    | None => head (filter (λ d, keyOf d = k) (map (docOfOHLCV a p) cs))
    end.
Proof. rewrite backfillCandles_store. apply insertMany_loop_lookup. Qed.

Lemma backfillCandles_elsewhere (a : string) (p : option string) (cs : list OHLCV)
    (db : Candles) (b : string) :
  b ≠ a → agreeOn b (backfillCandles a p cs db).1 db.
Proof.
  intros Hne ts. rewrite backfillCandles_lookup. destruct (db !! (b, ts)); [done|].
  destruct (filter _ _) as [|d rest] eqn:Ef; [done|].
  assert (d ∈ filter (λ d, keyOf d = (b, ts)) (map (docOfOHLCV a p) cs)) as Hd
    by (rewrite Ef; by left).
  apply list_elem_of_filter in Hd as [Hk Hd].
  apply list_elem_of_fmap in Hd as (c & -> & _). unfold keyOf in Hk; simpl in Hk. congruence.
Qed.

Lemma backfillCandles_agree (a : string) (p : option string) (cs : list OHLCV)
    (db db' : Candles) (b : string) :
  agreeOn b db db' → agreeOn b (backfillCandles a p cs db).1 (backfillCandles a p cs db').1.
Proof. intros H ts. by rewrite !backfillCandles_lookup, H. Qed.

Lemma backfillCandles_again (a : string) (p : option string) (cs : list OHLCV) (db : Candles) :
  (backfillCandles a p cs (backfillCandles a p cs db).1).1 = (backfillCandles a p cs db).1.
Proof.
  rewrite (backfillCandles_store a p cs (backfillCandles a p cs db).1).
  apply insertMany_loop_present. intros d Hd.
  rewrite backfillCandles_store. by apply insertMany_loop_written.
Qed.

(** *** [getLatestCandleTime] *)

Lemma timestampsOf_elem (a : string) (db : Candles) (ts : Z) :
  ts ∈ timestampsOf a db ↔ is_Some (db !! (a, ts)).
Proof.
  unfold timestampsOf. rewrite list_elem_of_omap. split.
  - intros ([[b t] d] & Hin%elem_of_map_to_list & He). simpl in He.
    destruct (decide (b = a)) as [->|]; [|done]. simplify_eq. eauto.
  - intros [d Hd]. exists ((a, ts), d). split; [by apply elem_of_map_to_list|].
    simpl. by rewrite decide_True.
Qed.

Lemma foldr_max_spec (t : Z) (ts : list Z) :
  foldr Z.max t ts ∈ t :: ts ∧ ∀ x, x ∈ t :: ts → (x ≤ foldr Z.max t ts)%Z.
Proof.
  induction ts as [|y ts [IHin IHmax]]; simpl.
  - split; [by left|]. intros x Hx%list_elem_of_singleton. lia.
  - split.
    + destruct (Z.max_spec y (foldr Z.max t ts)) as [[_ ->] | [_ ->]].
      * apply elem_of_cons in IHin as [-> | Hin]; [by left | right; by right].
      * right; by left.
    + intros x [-> | [-> | Hx]%elem_of_cons]%elem_of_cons.
      * specialize (IHmax t (ltac:(by left))). lia.
      * lia.
      * specialize (IHmax x (ltac:(by right))). lia.
Qed.

Lemma getLatest_None (a : string) (db : Candles) :
  getLatestCandleTime a db = None ↔ ∀ ts, db !! (a, ts) = None.
Proof.
  unfold getLatestCandleTime. split.
  - destruct (timestampsOf a db) as [|t ts'] eqn:E; [|done]. intros _ ts.
    destruct (db !! (a, ts)) eqn:El; [|done].
    assert (ts ∈ timestampsOf a db) as Hin by (apply timestampsOf_elem; eauto).
    rewrite E in Hin. by apply elem_of_nil in Hin.
  - intros Hnone. destruct (timestampsOf a db) as [|t ts'] eqn:E; [done|].
    assert (t ∈ timestampsOf a db) as Hin by (rewrite E; by left).
    apply timestampsOf_elem in Hin as [d Hd]. rewrite Hnone in Hd. done.
Qed.

Lemma getLatest_Some (a : string) (db : Candles) (m : Z) :
  getLatestCandleTime a db = Some m ↔
  is_Some (db !! (a, m)) ∧ ∀ ts, is_Some (db !! (a, ts)) → (ts ≤ m)%Z.
Proof.
  unfold getLatestCandleTime. split.
  - destruct (timestampsOf a db) as [|t ts'] eqn:E; [done|]. intros [= <-].
    destruct (foldr_max_spec t ts') as [Hin Hmax]. rewrite <- E in Hin, Hmax.
    split; [by apply timestampsOf_elem|].
    intros ts Hts. by apply Hmax, timestampsOf_elem.
  - intros [Hm Hmax]. destruct (timestampsOf a db) as [|t ts'] eqn:E.
    + apply timestampsOf_elem in Hm. rewrite E in Hm. by apply elem_of_nil in Hm.
    + destruct (foldr_max_spec t ts') as [Hin Hmax']. rewrite <- E in Hin, Hmax'.
      f_equal. apply Z.le_antisymm.
      * by apply Hmax, timestampsOf_elem.
      * by apply Hmax', timestampsOf_elem.
Qed.

Lemma getLatest_agree (a : string) (db db' : Candles) :
  agreeOn a db db' → getLatestCandleTime a db = getLatestCandleTime a db'.
Proof.
  intros Hag. destruct (getLatestCandleTime a db') as [m|] eqn:E.
  - apply getLatest_Some in E as [Hm Hmax]. apply getLatest_Some.
    split; [by rewrite Hag|]. intros ts. rewrite Hag. apply Hmax.
  - apply getLatest_None. intros ts. rewrite Hag. revert ts. by apply getLatest_None.
Qed.

(** *** One token of [gapFillOnStartup] *)

Import Gecko BackfillQueue.

Lemma gapFillToken_fillStore (env : Env) (acc : Sys) (token : Token) :
  gapFillToken env acc token = with_candles (fillStore env token (candles acc)) acc.
Proof.
  unfold fillStore, gapFillToken. simpl.
  destruct (getLatestCandleTime _ _); [|by destruct acc].
  destruct (_ <? GAP_THRESHOLD_MS)%Z; [by destruct acc|].
  destruct (0 <? _); [done | by destruct acc].
Qed.

Lemma fillStore_elsewhere (env : Env) (token : Token) (db : Candles) (b : string) :
  b ≠ t_address token → agreeOn b (fillStore env token db) db.
Proof.
  intros Hne. unfold fillStore, gapFillToken. simpl.
  destruct (getLatestCandleTime _ _); [|done].
  destruct (_ <? GAP_THRESHOLD_MS)%Z; [done|].
  destruct (0 <? _); [|done]. simpl. by apply backfillCandles_elsewhere.
Qed.

Lemma fillStore_agree (env : Env) (token : Token) (db db' : Candles) :
  agreeOn (t_address token) db db' →
  agreeOn (t_address token) (fillStore env token db) (fillStore env token db').
Proof.
  intros Hag. unfold fillStore, gapFillToken. simpl.
  rewrite (getLatest_agree _ _ _ Hag).
  destruct (getLatestCandleTime _ _); [|done].
  destruct (_ <? GAP_THRESHOLD_MS)%Z; [done|].
  destruct (0 <? _); [|done]. simpl. by apply backfillCandles_agree.
Qed.

Lemma fillStore_eq (env : Env) (token : Token) (db : Candles) :
  fillStore env token db =
    match getLatestCandleTime (t_address token) db with
    | None => db
    | Some latest =>
        if (now env - latest <? GAP_THRESHOLD_MS)%Z then db
        else if 0 <? length (getBackfillData env (t_poolAddress token))
             then (backfillCandles (t_address token) (t_poolAddress token)
                     (getBackfillData env (t_poolAddress token)) db).1
             else db
    end.
Proof.
  unfold fillStore, gapFillToken. simpl.
  destruct (getLatestCandleTime _ _); [|done].
  destruct (_ <? GAP_THRESHOLD_MS)%Z; [done|].
  by destruct (0 <? _).
Qed.

Lemma fillStore_again (env : Env) (token : Token) (db : Candles) :
  fillStore env token (fillStore env token db) = fillStore env token db.
Proof.
  rewrite (fillStore_eq env token db).
  destruct (getLatestCandleTime (t_address token) db) as [latest|] eqn:El.
  2:{ by rewrite fillStore_eq, El. }
  destruct (now env - latest <? GAP_THRESHOLD_MS)%Z eqn:Eg.
  { by rewrite fillStore_eq, El, Eg. }
  destruct (0 <? length (getBackfillData env (t_poolAddress token))) eqn:Ef.
  2:{ by rewrite fillStore_eq, El, Eg, Ef. }
  rewrite fillStore_eq.
  destruct (getLatestCandleTime (t_address token) (backfillCandles _ _ _ db).1) as [l'|];
    [|done].
  destruct (now env - l' <? GAP_THRESHOLD_MS)%Z; [done|].
  rewrite Ef. apply backfillCandles_again.
Qed.

(** *** The whole pass *)

Lemma fillStores_elsewhere (env : Env) (found : list Token) (db : Candles) (b : string) :
  b ∉ t_address <$> found → agreeOn b (fillStores env found db) db.
Proof.
  revert db. induction found as [|token found IH]; intros db Hb; [done|].
  rewrite fmap_cons in Hb. apply not_elem_of_cons in Hb as [Hne Hb].
  intros ts. unfold fillStores. simpl. fold (fillStores env found (fillStore env token db)).
  rewrite IH by done. by apply fillStore_elsewhere.
Qed.

Lemma fillStores_own (env : Env) (found : list Token) (db db' : Candles) (token : Token) :
  NoDup (t_address <$> found) → token ∈ found →
  agreeOn (t_address token) db db' →
  agreeOn (t_address token) (fillStores env found db) (fillStore env token db').
Proof.
  revert db. induction found as [|x found IH]; intros db Hnd Hin Hag.
  { by apply elem_of_nil in Hin. }
  rewrite fmap_cons in Hnd. apply NoDup_cons in Hnd as [Hfresh Hnd].
  unfold fillStores. simpl. fold (fillStores env found (fillStore env x db)).
  apply elem_of_cons in Hin as [-> | Hin].
  - intros ts. rewrite fillStores_elsewhere by done. by apply fillStore_agree.
  - apply IH; [done..|].
    assert (t_address token ≠ t_address x) as Hne.
    { intros E. apply Hfresh. rewrite <- E. by apply list_elem_of_fmap_2. }
    intros ts. rewrite fillStore_elsewhere by done. apply Hag.
Qed.

Lemma fillStores_again (env : Env) (found : list Token) (db : Candles) :
  NoDup (t_address <$> found) →
  fillStores env found (fillStores env found db) = fillStores env found db.
Proof.
  intros Hnd. apply map_eq. intros [a ts].
  destruct (decide (a ∈ t_address <$> found)) as [Hin | Hout].
  - apply list_elem_of_fmap in Hin as (token & -> & Hin).
    assert (agreeOn (t_address token) (fillStores env found db) (fillStore env token db)) as H1.
    { by apply fillStores_own. }
    rewrite (fillStores_own env found _ (fillStore env token db) token Hnd Hin H1).
    rewrite fillStore_again. symmetry. apply H1.
  - by rewrite fillStores_elsewhere.
Qed.

Lemma gapFillOnStartup_fillStores (env : Env) (s : Sys) :
  gapFillOnStartup env s =
    with_candles (fillStores env (gapFillTokens (tokens s)) (candles s)) s.
Proof.
  unfold gapFillOnStartup. fold (gapFillTokens (tokens s)).
  assert (∀ l acc, foldl (gapFillToken env) acc l
                   = with_candles (fillStores env l (candles acc)) acc) as Hfold.
  { induction l as [|t l IH]; intros acc; simpl; [by destruct acc|].
    rewrite IH, gapFillToken_fillStore. done. }
  destruct (gapFillTokens (tokens s)) as [|t l] eqn:E; [by destruct s|].
  apply Hfold.
Qed.

Lemma gapFillTokens_NoDup (m : gmap string Token) :
  keyedTokens m → NoDup (t_address <$> gapFillTokens m).
Proof.
  intros Hk. unfold gapFillTokens.
  assert (NoDup (t_address <$> (map_to_list m).*2)) as Hall.
  { replace (t_address <$> (map_to_list m).*2) with (map_to_list m).*1;
      [apply NoDup_fst_map_to_list|].
    rewrite <- list_fmap_compose. apply list_fmap_ext.
    intros i [k t] Hi%list_elem_of_lookup_2%elem_of_map_to_list. simpl.
    symmetry. by apply Hk. }
  apply (sublist_NoDup _ _ Hall), fmap_sublist, sublist_filter.
Qed.

(** C6. A write under a key the collection already holds changes nothing
    and reports nothing: [saveCandle] and [backfillCandles] return the
    collection as it was, with no line on the error log, and neither can
    throw.  Hence [gapFillOnStartup], run again at the same instant against
    the same answers of the source, returns the state of the first run, with
    the same number of candles. *)
Theorem duplicate_writes_are_silent (env : Env) (s : Sys) :
  keyedTokens (tokens s) →
  (∀ c db, is_Some (db !! keyOf (docOfCandle c)) → saveCandle c db = (db, []))
  ∧ (∀ a p cs db,
       (∀ c, c ∈ cs → is_Some (db !! (a, o_timestamp c))) →
       backfillCandles a p cs db = (db, []))
  ∧ gapFillOnStartup env (gapFillOnStartup env s) = gapFillOnStartup env s
  ∧ size (candles (gapFillOnStartup env (gapFillOnStartup env s)))
    = size (candles (gapFillOnStartup env s)).
Proof.
  intros Hk.
  assert (gapFillOnStartup env (gapFillOnStartup env s) = gapFillOnStartup env s) as Hagain.
  { rewrite (gapFillOnStartup_fillStores env (gapFillOnStartup env s)).
    rewrite (gapFillOnStartup_fillStores env s). simpl.
    rewrite fillStores_again by by apply gapFillTokens_NoDup. done. }
  split_and!.
  - intros c db [d Hd]. unfold saveCandle, Candle_create. by rewrite Hd.
  - intros a p cs db Hall.
    rewrite (surjective_pairing (backfillCandles a p cs db)).
    rewrite backfillCandles_silent, backfillCandles_store. f_equal.
    apply insertMany_loop_present.
    intros d (c & -> & Hc)%list_elem_of_fmap. by apply Hall.
  - exact Hagain.
  - by rewrite Hagain.
Qed.

Lemma duplicate_writes_are_silent_witness :
  (∀ c db, is_Some (db !! keyOf (docOfCandle c)) → saveCandle c db = (db, []))
  ∧ (∀ a p cs db,
       (∀ c, c ∈ cs → is_Some (db !! (a, o_timestamp c))) →
       backfillCandles a p cs db = (db, []))
  ∧ gapFillOnStartup tenMinutesLater (gapFillOnStartup tenMinutesLater stopped)
    = gapFillOnStartup tenMinutesLater stopped
  ∧ size (candles (gapFillOnStartup tenMinutesLater (gapFillOnStartup tenMinutesLater stopped)))
    = size (candles (gapFillOnStartup tenMinutesLater stopped)).
Proof.
  apply (duplicate_writes_are_silent tenMinutesLater stopped).
  unfold keyedTokens. apply (bool_decide_unpack _). vm_compute. exact I.
Defined.

(** The gap fill on concrete data: one candle stored, three fetched of which
    one is the stored one; three candles after the first run, three after the
    second. *)
Example gap_fill_twice :
  size (candles stopped) = 1
  ∧ size (candles (gapFillOnStartup tenMinutesLater stopped)) = 3
  ∧ size (candles (gapFillOnStartup tenMinutesLater
                     (gapFillOnStartup tenMinutesLater stopped))) = 3.
Proof. by vm_compute. Qed.

End CandleStore.

(** ** More on the candle manager *)

Section CandleManagerCalls.

Import CandleManager.

Local Open Scope Q_scope.

(** X1. Adding a token a second time changes nothing, whatever metadata the
    second call carries: the metadata of the first call, the buffer (an
    in-progress candle included) and the number of buffers stay; a token that
    was not tracked gets a null buffer and no last price of its own. *)
Theorem addToken_twice (a : string) (m1 m2 : Meta) (cm : t) :
  addToken a m2 (addToken a m1 cm) = addToken a m1 cm
  ∧ size (buffers (addToken a m2 (addToken a m1 cm))) = size (buffers (addToken a m1 cm))
  ∧ (∀ m, tracked cm !! a = Some m →
          addToken a m1 cm = cm)
  ∧ (tracked cm !! a = None →
     tracked (addToken a m1 cm) !! a = Some m1
     ∧ buffers (addToken a m1 cm) !! a = Some None
     ∧ lastPrices (addToken a m1 cm) = lastPrices cm).
Proof.
  assert (addToken a m2 (addToken a m1 cm) = addToken a m1 cm) as Hsame.
  { unfold addToken at 1. unfold addToken, has.
    destruct (tracked cm !! a) eqn:E; simpl.
    - by rewrite E.
    - by rewrite lookup_insert_eq. }
  split_and!.
  - exact Hsame.
  - by rewrite Hsame.
  - intros m Hm. unfold addToken, has. by rewrite Hm.
  - intros Hnone. unfold addToken, has. rewrite Hnone. simpl.
    by rewrite !lookup_insert_eq.
Qed.

(** X2. After [removeToken] the token is in none of the three maps, its
    last price reads [null], a trade for it is dropped, no later close emits
    a candle for it (its in-progress candle is discarded), and the entries of
    every other token are as before. *)
Theorem removeToken_forgets (a : string) (cm : t) :
  tracked (removeToken a cm) !! a = None
  ∧ buffers (removeToken a cm) !! a = None
  ∧ getLastPrice a (removeToken a cm) = None
  ∧ (∀ price volume, addTrade a price volume (removeToken a cm) = Return (removeToken a cm))
  ∧ (∀ ts c, c ∈ (closeCandlesFor ts (removeToken a cm)).2 → tokenAddress c ≠ a)
  ∧ (∀ b, b ≠ a →
       tracked (removeToken a cm) !! b = tracked cm !! b
       ∧ buffers (removeToken a cm) !! b = buffers cm !! b
       ∧ getLastPrice b (removeToken a cm) = getLastPrice b cm)
  ∧ removeToken a (removeToken a cm) = removeToken a cm.
Proof.
  split_and!.
  - apply lookup_delete_eq.
  - apply lookup_delete_eq.
  - unfold getLastPrice, removeToken. simpl. by rewrite lookup_delete_eq.
  - intros price volume. unfold addTrade, has, removeToken at 1. simpl.
    by rewrite lookup_delete_eq.
  - intros ts c (k & buf & Hk & ->)%closeCandlesFor_emitted. simpl. intros ->.
    unfold removeToken in Hk. simpl in Hk. by rewrite lookup_delete_eq in Hk.
  - intros b Hne. unfold getLastPrice, removeToken. simpl.
    by rewrite !lookup_delete_ne.
  - unfold removeToken. simpl. f_equal; apply delete_delete_eq.
Qed.

(** *** The states the calls lead to *)

Lemma valid_price_positive (p : Q) : Qle_bool p 0 = false → 0 < p.
Proof.
  intros H. apply Qnot_le_lt. intros Hle. apply Qle_bool_iff in Hle. congruence.
Qed.

Lemma wellShaped_first (p v : Q) :
  0 < p →
  wellShaped (b_open (firstTrade p v)) (b_high (firstTrade p v)) (b_low (firstTrade p v))
             (b_close (firstTrade p v)) (b_tradeCount (firstTrade p v)).
Proof.
  intros Hp. unfold wellShaped, firstTrade. simpl.
  split_and!; try apply Qle_refl; [done | lia].
Qed.

Lemma wellShaped_next (b : Buffer) (p v : Q) :
  0 < p →
  wellShaped (b_open b) (b_high b) (b_low b) (b_close b) (b_tradeCount b) →
  wellShaped (b_open (nextTrade b p v)) (b_high (nextTrade b p v)) (b_low (nextTrade b p v))
             (b_close (nextTrade b p v)) (b_tradeCount (nextTrade b p v)).
Proof.
  intros Hp (Hl & Hlo & Hoh & Hlc & Hch & Hn).
  unfold wellShaped, nextTrade, Math_max, Math_min. simpl. split_and!.
  - apply Q.min_glb_lt; done.
  - eapply Qle_trans; [apply Q.le_min_l | done].
  - eapply Qle_trans; [done | apply Q.le_max_l].
  - apply Q.le_min_r.
  - apply Q.le_max_r.
  - lia.
Qed.

Lemma sound_empty : sound empty.
Proof.
  split_and!; [apply consistent_empty | |]; intros k x; simpl; by rewrite lookup_empty.
Qed.

Lemma sound_addToken (a : string) (meta : Meta) (cm : t) :
  sound cm → sound (addToken a meta cm).
Proof.
  intros (Hc & Hp & Hb). split_and!; [by apply consistent_addToken | |].
  - unfold addToken, has. destruct (tracked cm !! a) eqn:E; [done|]. simpl.
    intros k p Hk. destruct (Hp k p Hk) as [? [m Hm]]. split; [done|].
    destruct (decide (a = k)) as [->|]; [by rewrite lookup_insert_eq|].
    rewrite lookup_insert_ne by done. eauto.
  - unfold addToken, has. destruct (tracked cm !! a) eqn:E; [done|]. simpl.
    intros k b Hk. destruct (decide (a = k)) as [->|].
    + by rewrite lookup_insert_eq in Hk.
    + rewrite lookup_insert_ne in Hk by done. eauto.
Qed.

Lemma sound_removeToken (a : string) (cm : t) :
  sound cm → sound (removeToken a cm).
Proof.
  intros (Hc & Hp & Hb). split_and!; [by apply consistent_removeToken | |];
    unfold removeToken; simpl.
  - intros k p [Hne Hk]%lookup_delete_Some. destruct (Hp k p Hk) as [? ?].
    split; [done|]. by rewrite lookup_delete_ne.
  - intros k b [Hne Hk]%lookup_delete_Some. eauto.
Qed.

Lemma sound_addTrade (a : string) (price volume : jsnum) (cm : t) :
  sound cm → ∃ cm', addTrade a price volume cm = Return cm' ∧ sound cm'.
Proof.
  intros (Hc & Hp & Hb). unfold addTrade.
  destruct (has (tracked cm) a) eqn:Ht; simpl; [|by exists cm].
  destruct price as [|p]; simpl; [by exists cm|].
  destruct (Qle_bool p 0) eqn:Hpos; [by exists cm|].
  apply valid_price_positive in Hpos.
  apply has_true in Ht. pose proof Ht as [ob Hob]%Hc. rewrite Hob.
  assert (∀ nb, wellShaped (b_open nb) (b_high nb) (b_low nb) (b_close nb) (b_tradeCount nb) →
            sound (mk (<[a := Some nb]> (buffers cm)) (tracked cm)
                      (<[a := p]> (lastPrices cm)))) as Hnew.
  { intros nb Hnb. split_and!; simpl.
    - intros k. simpl. destruct (decide (a = k)) as [<-|].
      + rewrite lookup_insert_eq. split; eauto.
      + rewrite lookup_insert_ne by done. apply Hc.
    - intros k q. destruct (decide (a = k)) as [<-|].
      + rewrite lookup_insert_eq. by intros [= <-].
      + rewrite lookup_insert_ne by done. apply Hp.
    - intros k b. destruct (decide (a = k)) as [<-|].
      + rewrite lookup_insert_eq. by intros [= <-].
      + rewrite lookup_insert_ne by done. apply Hb. }
  destruct ob as [buf|]; eexists; (split; [reflexivity|]); apply Hnew.
  - apply wellShaped_next; eauto.
  - by apply wellShaped_first.
Qed.

Lemma closeCandlesFor_state (ts : Z) (cm : t) :
  (closeCandlesFor ts cm).1
  = mk ((λ _, None) <$> buffers cm) (tracked cm) (lastPrices cm).
Proof.
  pose proof (closeCandlesFor_buffers ts cm) as Hb. revert Hb.
  unfold closeCandlesFor. rewrite closeEntry_foldl. simpl. intros Hb.
  f_equal. apply map_eq. intros k. by rewrite Hb, lookup_fmap.
Qed.

Lemma sound_close (ts : Z) (cm : t) : sound cm → sound (closeCandlesFor ts cm).1.
Proof.
  intros (Hc & Hp & Hb). split_and!; [by apply closeCandlesFor_consistent | |];
    rewrite closeCandlesFor_state; simpl; [done|].
  intros k b. rewrite lookup_fmap. by destruct (buffers cm !! k).
Qed.

Lemma emitted_wellShaped (ts : Z) (cm : t) (c : Candle) :
  sound cm → c ∈ (closeCandlesFor ts cm).2 →
  wellShaped (open c) (high c) (low c) (close c) (tradeCount c).
Proof.
  intros (_ & _ & Hb) (k & buf & Hk & ->)%closeCandlesFor_emitted. simpl. eauto.
Qed.

Lemma calls_sound (cs : list Call) (cm : t) (out : list Candle) :
  sound cm →
  Forall (λ c, wellShaped (open c) (high c) (low c) (close c) (tradeCount c)) out →
  sound (foldl call (cm, out) cs).1
  ∧ Forall (λ c, wellShaped (open c) (high c) (low c) (close c) (tradeCount c))
           (foldl call (cm, out) cs).2.
Proof.
  revert cm out. induction cs as [|c cs IH]; intros cm out Hs Hout; simpl; [done|].
  destruct c as [a meta | a | a price volume | ts]; simpl.
  - apply IH; [by apply sound_addToken | done].
  - apply IH; [by apply sound_removeToken | done].
  - destruct (sound_addTrade a price volume cm Hs) as (cm' & -> & Hs').
    by apply IH.
  - apply IH; [by apply sound_close|].
    apply Forall_app. split; [done|]. apply Forall_forall.
    intros c Hc. by eapply emitted_wellShaped.
Qed.

(** X3. In no state reached from the empty manager by [addToken],
    [removeToken], [addTrade] and [closeCandlesFor] does [addTrade] throw: the
    buffer of a tracked token is never [undefined]. *)
Theorem addTrade_never_throws (cs : list Call) (a : string) (price volume : jsnum) :
  ∃ cm', addTrade a price volume (calls empty cs).1 = Return cm'.
Proof.
  destruct (calls_sound cs empty [] sound_empty (Forall_nil_2 _)) as [Hs _].
  destruct (sound_addTrade a price volume _ Hs) as (cm' & E & _). eauto.
Qed.

(** X4. Every candle emitted in a run of calls from the empty manager has
    positive prices, its open and its close between its low and its high,
    and counts at least one trade. *)
Theorem emitted_candles_well_shaped (cs : list Call) (c : Candle) :
  c ∈ (calls empty cs).2 →
  0 < low c ∧ low c <= open c ∧ open c <= high c
  ∧ low c <= close c ∧ close c <= high c ∧ 1 ≤ tradeCount c.
Proof.
  intros Hc.
  destruct (calls_sound cs empty [] sound_empty (Forall_nil_2 _)) as [_ Hout].
  rewrite Forall_forall in Hout. exact (Hout c Hc).
Qed.

Lemma emitted_candles_well_shaped_witness :
  0 < low (mkCandle "A" (Some "pool-a"%string) "AAA" 15000 2 5 2 5 3 2)
  ∧ low (mkCandle "A" (Some "pool-a"%string) "AAA" 15000 2 5 2 5 3 2)
    <= open (mkCandle "A" (Some "pool-a"%string) "AAA" 15000 2 5 2 5 3 2)
  ∧ open (mkCandle "A" (Some "pool-a"%string) "AAA" 15000 2 5 2 5 3 2)
    <= high (mkCandle "A" (Some "pool-a"%string) "AAA" 15000 2 5 2 5 3 2)
  ∧ low (mkCandle "A" (Some "pool-a"%string) "AAA" 15000 2 5 2 5 3 2)
    <= close (mkCandle "A" (Some "pool-a"%string) "AAA" 15000 2 5 2 5 3 2)
  ∧ close (mkCandle "A" (Some "pool-a"%string) "AAA" 15000 2 5 2 5 3 2)
    <= high (mkCandle "A" (Some "pool-a"%string) "AAA" 15000 2 5 2 5 3 2)
  ∧ 1 ≤ tradeCount (mkCandle "A" (Some "pool-a"%string) "AAA" 15000 2 5 2 5 3 2).
Proof.
  apply (emitted_candles_well_shaped demoCalls).
  vm_compute. apply list_elem_of_here.
Defined.

(** *** The last-price cache *)

Lemma addTrade_lastPrice (tr : Trade) (cm cm' : t) (a : string) :
  consistent cm → is_Some (tracked cm !! a) →
  addTrade (tr_token tr) (tr_price tr) (tr_volume tr) cm = Return cm' →
  lastPrices cm' !! a =
    match sampleFor a tr with
    | Some s => Some s.1
    | None => lastPrices cm !! a
    end.
Proof.
  intros Hc Ha. unfold addTrade, sampleFor.
  destruct (has (tracked cm) (tr_token tr)) eqn:Ht; simpl.
  2:{ intros [= <-]. destruct (decide (tr_token tr = a)) as [E|]; [|done].
      rewrite E in Ht. apply has_true in Ha. congruence. }
  destruct (tr_price tr) as [|p]; simpl.
  { intros [= <-]. by destruct (decide _). }
  destruct (Qle_bool p 0) eqn:Hp.
  { intros [= <-]. by destruct (decide _). }
  apply has_true, Hc in Ht. destruct Ht as [ob Hob]. rewrite Hob.
  destruct ob as [buf|]; intros [= <-]; simpl;
    (destruct (decide (tr_token tr = a)) as [<-|Hne];
       [by rewrite lookup_insert_eq | by rewrite lookup_insert_ne]).
Qed.

Lemma addTrades_lastPrice (trades : list Trade) (cm : t) (a : string) :
  consistent cm → is_Some (tracked cm !! a) →
  ∃ cm', addTrades trades cm = Return cm'
         ∧ consistent cm'
         ∧ tracked cm' = tracked cm
         ∧ lastPrices cm' !! a =
             match last (samplesFor a trades) with
             | Some s => Some s.1
             | None => lastPrices cm !! a
             end.
Proof.
  revert cm. induction trades as [|tr trades IH]; intros cm Hc Ha.
  { exists cm. by split_and!. }
  destruct (addTrade_step tr cm Hc) as (cm1 & E1 & Hc1 & Ht1 & _).
  pose proof (addTrade_lastPrice tr cm cm1 a Hc Ha E1) as Hl1.
  assert (is_Some (tracked cm1 !! a)) as Ha1 by by rewrite Ht1.
  destruct (IH cm1 Hc1 Ha1) as (cm' & E & Hc' & Ht' & Hl').
  exists cm'. simpl. rewrite E1. simpl. split_and!; [done | done | congruence |].
  rewrite Hl', Hl1. unfold samplesFor. simpl.
  destruct (sampleFor a tr) as [s|]; [|done].
  fold (samplesFor a trades). rewrite last_cons.
  by destruct (last (samplesFor a trades)).
Qed.

Lemma sampleFor_positive (a : string) (tr : Trade) (s : Q * jsnum) :
  sampleFor a tr = Some s → 0 < s.1.
Proof.
  unfold sampleFor. destruct (decide _); [|done].
  destruct (tr_price tr) as [|p]; [done|].
  destruct (Qle_bool p 0) eqn:E; [done|]. intros [= <-]. simpl.
  by apply valid_price_positive.
Qed.

Lemma getLastPrice_positive (cm : t) (a : string) (p : Q) :
  lastPrices cm !! a = Some p → 0 < p → getLastPrice a cm = Some p.
Proof.
  intros Hl Hp. unfold getLastPrice. rewrite Hl.
  destruct (Qeq_bool p 0) eqn:E; [|done].
  apply Qeq_bool_eq in E. rewrite E in Hp. by apply Qlt_irrefl in Hp.
Qed.

(** X5. After a run of [addTrade] calls that carries a valid sample for a
    tracked token, [getLastPrice] answers the price of the last valid sample
    (not [null], the price being positive); closing the period leaves the
    answer as it is. *)
Theorem last_price_follows_trades (cm : t) (a : string) (trades : list Trade) (s : Q * jsnum) :
  consistent cm → is_Some (tracked cm !! a) →
  last (samplesFor a trades) = Some s →
  ∃ cm', addTrades trades cm = Return cm'
         ∧ getLastPrice a cm' = Some s.1
         ∧ ∀ ts, getLastPrice a (closeCandlesFor ts cm').1 = Some s.1.
Proof.
  intros Hc Ha Hlast.
  destruct (addTrades_lastPrice trades cm a Hc Ha) as (cm' & E & _ & _ & Hl).
  rewrite Hlast in Hl.
  assert (0 < s.1) as Hpos.
  { assert (s ∈ samplesFor a trades) as Hin.
    { apply last_Some in Hlast as [l' ->]. apply elem_of_app. right. by left. }
    apply list_elem_of_omap in Hin as (tr & _ & Hs). by eapply sampleFor_positive. }
  exists cm'. split_and!; [done | by apply getLastPrice_positive |].
  intros ts. apply getLastPrice_positive; [|done].
  by rewrite closeCandlesFor_state.
Qed.

Lemma last_price_follows_trades_witness :
  ∃ cm', addTrades demoTrades demo = Return cm'
         ∧ getLastPrice "A" cm' = Some 3
         ∧ ∀ ts, getLastPrice "A" (closeCandlesFor ts cm').1 = Some 3.
Proof.
  apply (last_price_follows_trades demo "A" demoTrades (3, Num 2)).
  - apply consistent_addToken, consistent_addToken, consistent_empty.
  - vm_compute. eauto.
  - vm_compute. reflexivity.
Defined.

(** *** Closing a period *)

Lemma emittedBy_sublist (ts : Z) (trk : gmap string Meta) (l : list (string * option Buffer)) :
  tokenAddress <$> omap (emittedBy ts trk) l `sublist_of` l.*1.
Proof.
  induction l as [|[k [buf|]] l IH]; simpl; [done| |].
  - by apply sublist_skip.
  - by apply sublist_cons.
Qed.

(** X6. [closeCandlesFor] emits one candle for each token with a non-null
    buffer and none for any other (a token without trades in the period gets
    no candle), at most one per token; it leaves [tracked] and [lastPrices]
    alone, and closing again straight away emits nothing and changes
    nothing. *)
Theorem close_emits_once (ts ts' : Z) (cm : t) :
  (∀ c, c ∈ (closeCandlesFor ts cm).2 →
        ∃ buf, buffers cm !! tokenAddress c = Some (Some buf))
  ∧ (∀ k buf, buffers cm !! k = Some (Some buf) →
        ∃ c, c ∈ (closeCandlesFor ts cm).2 ∧ tokenAddress c = k ∧ timestamp c = ts)
  ∧ NoDup (tokenAddress <$> (closeCandlesFor ts cm).2)
  ∧ tracked (closeCandlesFor ts cm).1 = tracked cm
  ∧ lastPrices (closeCandlesFor ts cm).1 = lastPrices cm
  ∧ closeCandlesFor ts' (closeCandlesFor ts cm).1 = ((closeCandlesFor ts cm).1, []).
Proof.
  split_and!.
  - intros c (k & buf & Hk & ->)%closeCandlesFor_emitted. simpl. eauto.
  - intros k buf Hk. exists (candleOf ts (tracked cm) k buf).
    split; [|done]. apply closeCandlesFor_emitted. eauto.
  - unfold closeCandlesFor. rewrite closeEntry_foldl. simpl.
    apply (sublist_NoDup _ _ (NoDup_fst_map_to_list (buffers cm))), emittedBy_sublist.
  - by rewrite closeCandlesFor_state.
  - by rewrite closeCandlesFor_state.
  - rewrite (surjective_pairing (closeCandlesFor ts' _)). f_equal.
    + rewrite (closeCandlesFor_state ts'), (closeCandlesFor_state ts). simpl.
      f_equal. apply map_eq. intros k. rewrite !lookup_fmap.
      by destruct (buffers cm !! k).
    + destruct ((closeCandlesFor ts' (closeCandlesFor ts cm).1).2) as [|c l] eqn:E; [done|].
      assert (c ∈ (closeCandlesFor ts' (closeCandlesFor ts cm).1).2) as Hc
        by (rewrite E; by left).
      apply closeCandlesFor_emitted in Hc as (k & buf & Hk & _).
      rewrite closeCandlesFor_buffers in Hk. by destruct (buffers cm !! k).
Qed.

(** *** The candle clock *)

(** X7. At any time (milliseconds since the epoch) the timestamp the clock
    stamps on the closed candles is a multiple of 15 s, at most the current
    time and less than 15 s before it; the delay before the first close is
    positive, at most 15 s, and ends on a multiple of 15 s, which is then the
    timestamp of that close; a close [k] whole intervals later is stamped
    [k] intervals later. *)
Theorem candle_clock_aligned (now : Z) :
  (0 ≤ now)%Z →
  (CANDLE_INTERVAL_MS | candlePeriod now)%Z
  ∧ (candlePeriod now ≤ now < candlePeriod now + CANDLE_INTERVAL_MS)%Z
  ∧ (0 < firstDelay now ≤ CANDLE_INTERVAL_MS)%Z
  ∧ candlePeriod (now + firstDelay now) = (now + firstDelay now)%Z
  ∧ ∀ k, candlePeriod (now + k * CANDLE_INTERVAL_MS)
         = (candlePeriod now + k * CANDLE_INTERVAL_MS)%Z.
Proof.
  intros Hnow. unfold candlePeriod, firstDelay.
  assert (0 < CANDLE_INTERVAL_MS)%Z as Hpos by (unfold CANDLE_INTERVAL_MS; lia).
  generalize dependent CANDLE_INTERVAL_MS. intros I HI.
  rewrite Z.rem_mod_nonneg by lia.
  pose proof (Z.mod_pos_bound now I HI) as Hmod.
  pose proof (Z.div_mod now I ltac:(lia)) as Hdiv.
  split_and!; try lia.
  - apply Z.divide_factor_r.
  - replace (now + (I - now mod I))%Z with ((now / I + 1) * I)%Z by lia.
    rewrite Z.div_mul by lia. done.
  - intros k. rewrite Z.div_add by lia. lia.
Qed.

Lemma candle_clock_aligned_witness :
  (CANDLE_INTERVAL_MS | candlePeriod 1700000012345)%Z
  ∧ (candlePeriod 1700000012345 ≤ 1700000012345
     < candlePeriod 1700000012345 + CANDLE_INTERVAL_MS)%Z
  ∧ (0 < firstDelay 1700000012345 ≤ CANDLE_INTERVAL_MS)%Z
  ∧ candlePeriod (1700000012345 + firstDelay 1700000012345)
    = (1700000012345 + firstDelay 1700000012345)%Z
  ∧ ∀ k, candlePeriod (1700000012345 + k * CANDLE_INTERVAL_MS)
         = (candlePeriod 1700000012345 + k * CANDLE_INTERVAL_MS)%Z.
Proof. apply (candle_clock_aligned 1700000012345). lia. Defined.

End CandleManagerCalls.

(** ** More on the strategy *)

Section StrategySignals.

Import Strategy.

Local Open Scope Q_scope.

Lemma gtb_lt (a b : Q) : gtb a b = true ↔ b < a.
Proof.
  unfold gtb. rewrite negb_true_iff. split.
  - intros H. apply Qnot_le_lt. intros Hle. apply Qle_bool_iff in Hle. congruence.
  - intros H. destruct (Qle_bool a b) eqn:E; [|done].
    apply Qle_bool_iff in E. by apply Qlt_not_le in H.
Qed.

Lemma last_two_last (l : list Q) (p c : Q) :
  last_two l = Some (p, c) → last l = Some c ∧ p ∈ l ∧ c ∈ l.
Proof.
  unfold last_two.
  destruct (l !! (length l - 2)%nat) as [p'|] eqn:Ep; [|done].
  destruct (l !! (length l - 1)%nat) as [c'|] eqn:Ec; [|done].
  destruct (2 <=? length l)%nat; [|done]. intros [= <- <-].
  split_and!.
  - rewrite last_lookup. by replace (pred (length l)) with (length l - 1)%nat by lia.
  - by eapply list_elem_of_lookup_2.
  - by eapply list_elem_of_lookup_2.
Qed.



(** *** The volume window *)

Lemma Array_slice_window {A : Type} (l : list A) (x : A) :
  Array_slice (l ++ [x]) (-11) (-1) = drop (length l - 10) l.
Proof.
  unfold Array_slice, slice_index. rewrite length_app. simpl.
  replace (Z.to_nat (Z.max (Z.of_nat (length l + 1) + -11) 0)) with (length l - 10)%nat by lia.
  replace (Z.to_nat (Z.max (Z.of_nat (length l + 1) + -1) 0)) with (length l) by lia.
  rewrite drop_app_le by lia.
  apply take_app_length'. rewrite length_drop. lia.
Qed.

(** X9. The window [volumes.slice(-11, -1)] of a non-empty history is made
    of the candles before the newest one, the last ten of them when there
    are that many: the newest candle is not part of it, so the average volume
    does not depend on the newest candle. *)
Theorem volume_window_excludes_newest (h : list Candle) (c c' : Candle) :
  Array_slice (map volume (h ++ [c])) (-11) (-1) = drop (length h - 10) (map volume h)
  ∧ length (Array_slice (map volume (h ++ [c])) (-11) (-1)) = (length h `min` 10)%nat
  ∧ avgVolumeOf (h ++ [c]) = avgVolumeOf (h ++ [c']).
Proof.
  assert (∀ x, Array_slice (map volume (h ++ [x])) (-11) (-1)
               = drop (length h - 10) (map volume h)) as Hw.
  { intros x. rewrite map_app. simpl. rewrite Array_slice_window, length_map. done. }
  split_and!.
  - apply Hw.
  - rewrite Hw, length_drop, length_map. lia.
  - unfold avgVolumeOf. by rewrite !Hw.
Qed.

(** *** Flat prices *)

Lemma foldl_Qplus_const (l : list Q) (c acc : Q) :
  Forall (λ x, x == c) l →
  foldl Qplus acc l == acc + inject_Z (Z.of_nat (length l)) * c.
Proof.
  revert acc. induction l as [|x l IH]; intros acc Hl.
  - simpl. ring.
  - inversion Hl as [|? ? Hx Hl']; subst.
    change (foldl Qplus acc (x :: l)) with (foldl Qplus (acc + x) l).
    change (length (x :: l)) with (S (length l)).
    rewrite Nat2Z.inj_succ, <- Z.add_1_r, inject_Z_plus.
    transitivity (acc + x + inject_Z (Z.of_nat (length l)) * c); [by apply IH|].
    transitivity (acc + c + inject_Z (Z.of_nat (length l)) * c).
    + apply Qplus_comp; [|reflexivity]. apply Qplus_comp; [reflexivity | exact Hx].
    + change (inject_Z 1) with 1. ring.
Qed.

Lemma mean_const (l : list Q) (c : Q) :
  l ≠ [] → Forall (λ x, x == c) l → mean l == c.
Proof.
  intros Hne Hl. unfold mean.
  transitivity (c * inject_Z (Z.of_nat (length l)) / inject_Z (Z.of_nat (length l))).
  - apply Qmult_comp; [|reflexivity].
    transitivity (0 + inject_Z (Z.of_nat (length l)) * c);
      [by apply foldl_Qplus_const | ring].
  - apply Qdiv_mult_l. destruct l as [|x l]; [done|].
    change (length (x :: l)) with (S (length l)).
    unfold inject_Z, Qeq. simpl. lia.
Qed.

Lemma ema_forward_const (a prev c : Q) (values : list Q) :
  prev == c → Forall (λ x, x == c) values →
  Forall (λ x, x == c) (ema_forward a prev values).
Proof.
  revert prev. induction values as [|x values IH]; intros prev Hp Hv; simpl; [constructor|].
  inversion Hv as [|? ? Hx Hv']; subst.
  assert (a * x + (1 - a) * prev == c) as He.
  { transitivity (a * c + (1 - a) * c); [|ring].
    apply Qplus_comp; (apply Qmult_comp; [reflexivity | done]). }
  constructor; [done|]. by apply IH.
Qed.

Lemma EMA_calculate_const (period : nat) (values : list Q) (c : Q) :
  (0 < period)%nat → Forall (λ x, x == c) values →
  Forall (λ x, x == c) (EMA_calculate period values).
Proof.
  intros Hp Hv. unfold EMA_calculate.
  destruct (Nat.ltb_spec (length values) period) as [|Hlen]; [constructor|].
  assert (mean (take period values) == c) as Hseed.
  { apply mean_const; [|by apply Forall_take].
    intros E. apply (f_equal length) in E. rewrite length_take in E. simpl in E. lia. }
  constructor; [done|]. apply ema_forward_const; [done | by apply Forall_drop].
Qed.

(** X10. On a history whose closes are all the same price the evaluator
    (with the EMA modelled as smoothing of factor 2/(period+1) from the
    simple average) returns [null], whatever the length of the history and
    the volume flag: both EMAs equal that price, so there is no crossover. *)
Theorem flat_history_is_silent (h : list Candle) (c : Q) (flag : bool) :
  Forall (λ x, close x == c) h →
  evaluate (Some h) flag = Null.
Proof.
  intros Hflat. unfold evaluate, checkStrategy.
  destruct (length h <? MIN_CANDLES)%nat; [done|].
  assert (Forall (λ x, x == c) (map close h)) as Hc by by apply Forall_fmap.
  destruct (last_two (EMA_calculate 9 _)) as [[e9p e9c]|] eqn:E9; [|done].
  destruct (last_two (EMA_calculate 20 _)) as [[e20p e20c]|] eqn:E20; [|done].
  apply last_two_last in E9 as (_ & _ & H9). apply last_two_last in E20 as (_ & _ & H20).
  pose proof (EMA_calculate_const 9 _ c ltac:(lia) Hc) as F9.
  pose proof (EMA_calculate_const 20 _ c ltac:(lia) Hc) as F20.
  rewrite Forall_forall in F9, F20.
  specialize (F9 _ H9). specialize (F20 _ H20).
  assert (gtb e9c e20c = false) as ->.
  { unfold gtb. apply negb_false_iff, Qle_bool_iff. rewrite F9, F20. apply Qle_refl. }
  by rewrite andb_false_r.
Qed.

Lemma flat_history_is_silent_witness :
  evaluate (Some (replicate 50 (mk 1 1))) false = Null.
Proof.
  apply (flat_history_is_silent (replicate 50 (mk 1 1)) 1 false).
  apply Forall_replicate. reflexivity.
Defined.

End StrategySignals.

(** ** More on the candle store *)

Section CandleStoreReads.

Import Storage.

Lemma saveCandle_lookup (c : CandleManager.Candle) (db : Candles) (k : string * Z) :
  (saveCandle c db).1 !! k =
    match db !! k with
    | Some d => Some d
    | None => if decide (keyOf (docOfCandle c) = k) then Some (docOfCandle c) else None
    end.
Proof.
  unfold saveCandle, Candle_create.
  destruct (db !! keyOf (docOfCandle c)) as [old|] eqn:E; simpl.
  - destruct (db !! k) eqn:Ek; [done|]. destruct (decide _) as [<-|]; [congruence|done].
  - destruct (decide (keyOf (docOfCandle c) = k)) as [<-|Hne].
    + by rewrite lookup_insert_eq, E.
    + rewrite lookup_insert_ne by done. by destruct (db !! k).
Qed.

(** X11. A write never replaces or removes a stored candle: after
    [saveCandle] and after [backfillCandles] every document that was stored
    is still there, unchanged, under its key.  The candle handed to
    [saveCandle] and every candle handed to [backfillCandles] has a document
    under its key afterwards (the earlier one when the key was taken), no
    other key is filled, and documents stay under the keys their fields
    give. *)
Theorem writes_keep_documents
    (c : CandleManager.Candle) (a : string) (p : option string) (cs : list OHLCV)
    (db : Candles) :
  (∀ k d, db !! k = Some d →
          (saveCandle c db).1 !! k = Some d ∧ (backfillCandles a p cs db).1 !! k = Some d)
  ∧ is_Some ((saveCandle c db).1 !! keyOf (docOfCandle c))
  ∧ (∀ x, x ∈ cs → is_Some ((backfillCandles a p cs db).1 !! (a, o_timestamp x)))
  ∧ (∀ k, db !! k = None → is_Some ((saveCandle c db).1 !! k) → k = keyOf (docOfCandle c))
  ∧ (∀ k, db !! k = None → is_Some ((backfillCandles a p cs db).1 !! k) →
          ∃ x, x ∈ cs ∧ k = (a, o_timestamp x))
  ∧ (indexed db → indexed (saveCandle c db).1 ∧ indexed (backfillCandles a p cs db).1).
Proof.
  split_and!.
  - intros k d Hk. rewrite saveCandle_lookup, backfillCandles_lookup, Hk. done.
  - rewrite saveCandle_lookup. destruct (db !! _); [eauto|]. rewrite decide_True by done. eauto.
  - intros x Hx. rewrite backfillCandles_store.
    apply (insertMany_loop_written _ db (docOfOHLCV a p x)). by apply list_elem_of_fmap_2.
  - intros k Hk. rewrite saveCandle_lookup, Hk. destruct (decide _); [done|]. by intros [? ?].
  - intros k Hk. rewrite backfillCandles_lookup, Hk.
    destruct (filter _ _) as [|d rest] eqn:Ef; simpl; [by intros [? ?]|]. intros _.
    assert (d ∈ filter (λ d, keyOf d = k) (map (docOfOHLCV a p) cs)) as Hd
      by (rewrite Ef; by left).
    apply list_elem_of_filter in Hd as [<- Hd].
    apply list_elem_of_fmap in Hd as (x & -> & Hx). by exists x.
  - intros Hi. split; intros k d.
    + rewrite saveCandle_lookup. destruct (db !! k) eqn:Ek.
      * intros [= <-]. by apply (Hi k).
      * destruct (decide _) as [<-|]; [by intros [= <-] | done].
    + rewrite backfillCandles_lookup. destruct (db !! k) eqn:Ek.
      * intros [= <-]. by apply (Hi k).
      * intros Hh. destruct (filter _ _) as [|d' rest] eqn:Ef; simpl in Hh; [done|].
        injection Hh as ->.
        assert (d ∈ filter (λ d, keyOf d = k) (map (docOfOHLCV a p) cs)) as Hd
          by (rewrite Ef; by left).
        by apply list_elem_of_filter in Hd as [? _].
Qed.

(** X12. [getLatestCandleTime] answers [null] exactly when the token has no
    candle, which is exactly when [countDocuments] is 0 (the test of the
    audit); otherwise it answers the greatest timestamp among the token's
    candles.  After [saveCandle] of a candle of the token it answers the
    later of the former answer and the candle's timestamp. *)
Theorem latest_candle_time_is_newest (a : string) (db : Candles) :
  (getLatestCandleTime a db = None ↔ ∀ ts, db !! (a, ts) = None)
  ∧ (getLatestCandleTime a db = None ↔ countDocuments a db = 0)
  ∧ (∀ m, getLatestCandleTime a db = Some m ↔
          is_Some (db !! (a, m)) ∧ ∀ ts, is_Some (db !! (a, ts)) → (ts ≤ m)%Z)
  ∧ (∀ c, CandleManager.tokenAddress c = a →
          getLatestCandleTime a (saveCandle c db).1
          = Some (match getLatestCandleTime a db with
                  | Some m => Z.max m (CandleManager.timestamp c)
                  | None => CandleManager.timestamp c
                  end)).
Proof.
  split_and!.
  - apply getLatest_None.
  - unfold getLatestCandleTime, countDocuments.
    destruct (timestampsOf a db); simpl; split; done.
  - intros m. apply getLatest_Some.
  - intros c <-. apply getLatest_Some.
    assert (∀ ts, is_Some ((saveCandle c db).1 !! (CandleManager.tokenAddress c, ts)) ↔
                  is_Some (db !! (CandleManager.tokenAddress c, ts))
                  ∨ ts = CandleManager.timestamp c) as Hkeys.
    { intros ts. rewrite saveCandle_lookup. unfold keyOf, docOfCandle. simpl.
      destruct (db !! (CandleManager.tokenAddress c, ts)) eqn:E.
      - split; eauto.
      - destruct (decide _) as [Heq|Hne].
        + injection Heq as <-. split; eauto.
        + split; [by intros [? ?]|]. intros [[? ?] | ->]; done. }
    destruct (getLatestCandleTime (CandleManager.tokenAddress c) db) as [m|] eqn:El.
    + apply getLatest_Some in El as [Hm Hmax]. split.
      * apply Hkeys. destruct (Z.max_spec m (CandleManager.timestamp c)) as [[_ ->] | [_ ->]];
          [by right | by left].
      * intros ts [Hts | ->]%Hkeys; [specialize (Hmax ts Hts)|]; lia.
    + split.
      * apply Hkeys. by right.
      * intros ts [[d Hd] | ->]%Hkeys; [|lia].
        assert (db !! (CandleManager.tokenAddress c, ts) = None) as Hn.
        { clear Hd. revert ts. by apply getLatest_None. }
        congruence.
Qed.

(** *** [getRecentCandles] *)

#[local] Instance newerFirst_trans : Transitive newerFirst.
Proof. intros x y z. unfold newerFirst. lia. Qed.

#[local] Instance newerFirst_total : Total newerFirst.
Proof. intros x y. unfold newerFirst. lia. Qed.

Lemma StronglySorted_reverse {A : Type} (R : relation A) (l : list A) :
  StronglySorted R l → StronglySorted (flip R) (reverse l).
Proof.
  induction l as [|x l IH]; [constructor|].
  intros [Hx Hl]%StronglySorted_cons. rewrite reverse_cons.
  apply StronglySorted_app_2; [|by apply IH | repeat constructor].
  intros y z Hy Hz. rewrite elem_of_reverse in Hy. apply list_elem_of_singleton in Hz.
  subst z. unfold flip. rewrite Forall_forall in Hx. by apply Hx.
Qed.

Lemma StronglySorted_strict {A : Type} (R R' : relation A) (l : list A) :
  StronglySorted R l → NoDup l →
  (∀ x y, x ∈ l → y ∈ l → x ≠ y → R x y → R' x y) →
  StronglySorted R' l.
Proof.
  induction l as [|x l IH]; [constructor|].
  intros [Hx Hl]%StronglySorted_cons [Hfresh Hnd]%NoDup_cons Hstr.
  apply StronglySorted_cons. split.
  - rewrite Forall_forall in Hx. apply Forall_forall. intros y Hy.
    apply Hstr; [by left | by right | | by apply Hx]. intros ->. done.
  - apply IH; [done..|]. intros y z Hy Hz. apply Hstr; by right.
Qed.

Lemma docsOf_elem (a : string) (db : Candles) (d : CandleDoc) :
  d ∈ docsOf a db ↔ ∃ ts, db !! (a, ts) = Some d.
Proof.
  unfold docsOf. rewrite list_elem_of_omap. split.
  - intros ([[b ts] d'] & Hin%elem_of_map_to_list & He). simpl in He.
    destruct (decide (b = a)) as [->|]; [|done]. simplify_eq. eauto.
  - intros [ts Hd]. exists ((a, ts), d). split; [by apply elem_of_map_to_list|].
    simpl. by rewrite decide_True.
Qed.

Lemma docsOf_indexed (a : string) (db : Candles) (d : CandleDoc) :
  indexed db → d ∈ docsOf a db → db !! (a, timestamp d) = Some d.
Proof.
  intros Hi [ts Hd]%docsOf_elem. pose proof (Hi _ _ Hd) as Hk.
  unfold keyOf in Hk. injection Hk as _ <-. done.
Qed.

Lemma docsOf_length (a : string) (db : Candles) :
  length (docsOf a db) = countDocuments a db.
Proof.
  unfold countDocuments, timestampsOf, docsOf.
  induction (map_to_list db) as [|kv l IH]; simpl; [done|].
  destruct (decide (kv.1.1 = a)); simpl; [f_equal; exact IH | exact IH].
Qed.

Lemma docsOf_timestamps (a : string) (db : Candles) :
  indexed db → timestamp <$> docsOf a db = timestampsOf a db.
Proof.
  intros Hi. unfold timestampsOf, docsOf.
  assert (∀ kv, kv ∈ map_to_list db → timestamp kv.2 = kv.1.2) as Hts.
  { intros [[b ts] d] Hin%elem_of_map_to_list. pose proof (Hi _ _ Hin) as Hk.
    unfold keyOf in Hk. by injection Hk as _ <-. }
  induction (map_to_list db) as [|kv l IH]; simpl; [done|].
  assert (∀ kv', kv' ∈ l → timestamp kv'.2 = kv'.1.2) as Hl
    by (intros; apply Hts; by right).
  destruct (decide (kv.1.1 = a)); simpl.
  - f_equal; [apply Hts; by left | exact (IH Hl)].
  - exact (IH Hl).
Qed.

Lemma timestampsOf_NoDup (a : string) (db : Candles) : NoDup (timestampsOf a db).
Proof.
  unfold timestampsOf. pose proof (NoDup_fst_map_to_list db) as Hnd.
  induction (map_to_list db) as [|[[b ts] d] l IH]; simpl; [constructor|].
  simpl in Hnd. apply NoDup_cons in Hnd as [Hfresh Hnd].
  destruct (decide (b = a)) as [->|]; simpl; [|by apply IH].
  apply NoDup_cons. split; [|by apply IH].
  intros ([[b' ts'] d'] & Hin & He)%list_elem_of_omap. simpl in He.
  destruct (decide (b' = a)) as [->|]; [|done]. injection He as ->.
  apply Hfresh. apply list_elem_of_fmap. by exists ((a, ts), d').
Qed.

Lemma docsOf_NoDup (a : string) (db : Candles) :
  indexed db → NoDup (docsOf a db).
Proof.
  intros Hi. apply (NoDup_fmap_1 timestamp).
  rewrite docsOf_timestamps by done. apply timestampsOf_NoDup.
Qed.

(** X13. On a collection whose documents sit under their own keys,
    [getRecentCandles(token, limit)] returns [min(limit, count)] documents
    for a positive limit and all [count] documents for the limit 0 (which
    the driver reads as no limit), all of them candles of the token, in
    strictly increasing order of timestamp; every candle of the token that
    is left out is older than every one returned; and the last one returned
    is the token's newest candle. *)
Theorem recent_candles_newest_oldest_first (a : string) (limit : nat) (db : Candles) :
  indexed db →
  length (getRecentCandles a limit db)
  = (if limit =? 0 then countDocuments a db else limit `min` countDocuments a db)
  ∧ (∀ d, d ∈ getRecentCandles a limit db → db !! (a, timestamp d) = Some d)
  ∧ StronglySorted (λ x y, (timestamp x < timestamp y)%Z) (getRecentCandles a limit db)
  ∧ (∀ d ts d', d ∈ getRecentCandles a limit db → db !! (a, ts) = Some d' →
                d' ∉ getRecentCandles a limit db → (ts < timestamp d)%Z)
  ∧ timestamp <$> last (getRecentCandles a limit db) = getLatestCandleTime a db.
Proof.
  intros Hi. unfold getRecentCandles. rewrite limitTo_take.
  set (ms := merge_sort newerFirst (docsOf a db)).
  set (k := if limit =? 0 then length ms else limit).
  assert (ms ≡ₚ docsOf a db) as Hperm by apply merge_sort_Permutation.
  assert (StronglySorted newerFirst ms) as Hsorted.
  { unfold ms. apply StronglySorted_merge_sort; apply _. }
  assert (NoDup ms) as Hnd by (rewrite Hperm; by apply docsOf_NoDup).
  assert (∀ d, d ∈ ms → db !! (a, timestamp d) = Some d) as Hin.
  { intros d Hd. rewrite Hperm in Hd. by apply docsOf_indexed. }
  assert (∀ x y, x ∈ ms → y ∈ ms → x ≠ y → timestamp x ≠ timestamp y) as Hdistinct.
  { intros x y Hx%Hin Hy%Hin Hne E. rewrite E in Hx. congruence. }
  assert (∀ x, x ∈ take k ms → x ∈ ms) as Htake.
  { intros x (i & Hx%list_elem_of_lookup_2 & _)%elem_of_take. done. }
  split_and!.
  - rewrite length_reverse, length_take. unfold k.
    rewrite (Permutation_length Hperm), docsOf_length.
    destruct (limit =? 0); [apply Nat.min_id | done].
  - intros d Hd. rewrite elem_of_reverse in Hd. by apply Hin, Htake.
  - apply (StronglySorted_strict newerFirst (flip (λ x y, (timestamp x < timestamp y)%Z)))
      in Hsorted; [|done|].
    2:{ intros x y Hx Hy Hne Hle. unfold flip, newerFirst in *.
        specialize (Hdistinct x y Hx Hy Hne). lia. }
    rewrite <- (take_drop k ms) in Hsorted.
    apply StronglySorted_app_1_l, StronglySorted_reverse in Hsorted. exact Hsorted.
  - intros d ts d' Hd Hd' Hout. rewrite elem_of_reverse in Hd.
    assert (d' ∈ ms) as Hd'ms by (rewrite Hperm; apply docsOf_elem; eauto).
    assert (timestamp d' = ts) as <-.
    { pose proof (Hi _ _ Hd') as Hk. unfold keyOf in Hk. by injection Hk as _ <-. }
    assert (d' ∈ drop k ms) as Hdrop.
    { rewrite <- (take_drop k ms) in Hd'ms. apply elem_of_app in Hd'ms as [Ht|]; [|done].
      exfalso. apply Hout. by rewrite elem_of_reverse. }
    assert (newerFirst d d') as Hle.
    { eapply (StronglySorted_app_1_elem_of newerFirst (take k ms) (drop k ms));
        [by rewrite take_drop | done | done]. }
    assert (d ≠ d') as Hne.
    { intros ->. apply Hout. by rewrite elem_of_reverse. }
    specialize (Hdistinct d d' (Htake _ Hd) Hd'ms Hne). unfold newerFirst in Hle. lia.
  - rewrite last_reverse.
    assert (head (take k ms) = head ms) as ->.
    { unfold k. destruct limit; simpl; by destruct ms. }
    destruct ms as [|x rest] eqn:Ems; simpl.
    + symmetry. apply getLatest_None. intros ts.
      destruct (db !! (a, ts)) as [d|] eqn:E; [|done].
      assert (d ∈ docsOf a db) as Hd by (apply docsOf_elem; eauto).
      rewrite <- Hperm in Hd. by apply elem_of_nil in Hd.
    + symmetry. apply getLatest_Some. split.
      * rewrite (Hin x); [eauto | by left].
      * intros ts [d Hd].
        assert (d ∈ x :: rest) as Hdms by (rewrite Hperm; apply docsOf_elem; eauto).
        assert (timestamp d = ts) as <-.
        { pose proof (Hi _ _ Hd) as Hk. unfold keyOf in Hk. by injection Hk as _ <-. }
        apply StronglySorted_cons in Hsorted as [Hx _]. rewrite Forall_forall in Hx.
        apply elem_of_cons in Hdms as [-> | Hr]; [lia|]. by apply Hx.
Qed.

Lemma recent_candles_newest_oldest_first_witness :
  length (getRecentCandles "A" 2 fourDocs)
  = (if 2 =? 0 then countDocuments "A" fourDocs else 2 `min` countDocuments "A" fourDocs)
  ∧ (∀ d, d ∈ getRecentCandles "A" 2 fourDocs → fourDocs !! ("A"%string, timestamp d) = Some d)
  ∧ StronglySorted (λ x y, (timestamp x < timestamp y)%Z) (getRecentCandles "A" 2 fourDocs)
  ∧ (∀ d ts d', d ∈ getRecentCandles "A" 2 fourDocs → fourDocs !! ("A"%string, ts) = Some d' →
                d' ∉ getRecentCandles "A" 2 fourDocs → (ts < timestamp d)%Z)
  ∧ timestamp <$> last (getRecentCandles "A" 2 fourDocs) = getLatestCandleTime "A" fourDocs.
Proof.
  apply (recent_candles_newest_oldest_first "A" 2 fourDocs).
  unfold indexed. apply (bool_decide_unpack _). vm_compute. exact I.
Defined.

(** The two newest candles of A, oldest first; with the limit 0, all three. *)
Example recent_candles_of_four :
  getRecentCandles "A" 2 fourDocs = [docAt "A" 30000 3; docAt "A" 45000 4]
  ∧ getRecentCandles "A" 0 fourDocs
    = [docAt "A" 15000 2; docAt "A" 30000 3; docAt "A" 45000 4].
Proof. split; vm_compute; reflexivity. Qed.

Lemma backfillCandles_written (a : string) (p : option string) (cs : list OHLCV)
    (db : Candles) (x : OHLCV) :
  x ∈ cs → is_Some ((backfillCandles a p cs db).1 !! (a, o_timestamp x)).
Proof.
  intros Hx. rewrite backfillCandles_store.
  apply (insertMany_loop_written _ db (docOfOHLCV a p x)). by apply list_elem_of_fmap_2.
Qed.

End CandleStoreReads.

(** ** More on the backfill queue *)

Section BackfillQueueMore.

Import Gecko BackfillQueue.

(** *** [queueStatus] *)

Lemma countStatus_split (l : list Task) :
  length l = length (filter (λ t, status t = pending) l)
             + length (filter (λ t, status t = done) l)
             + length (filter (λ t, status t = failed) l).
Proof.
  induction l as [|t l IH]; [done|].
  rewrite !filter_cons. simpl length at 1.
  destruct (status t) eqn:E;
    repeat (first [rewrite decide_True by done | rewrite decide_False by done]);
    simpl; lia.
Qed.

Lemma countStatus_insert (st : Status) (q : gmap string Task) (a : string) (t : Task) :
  q !! a = None →
  countStatus st (<[a := t]> q) = (if decide (status t = st) then 1 else 0) + countStatus st q.
Proof.
  intros Hnone. unfold countStatus.
  rewrite (map_to_list_insert q a t Hnone). rewrite fmap_cons, filter_cons. simpl.
  by destruct (decide (status t = st)).
Qed.

(** X14. [queueStatus] adds up: the total is the sum of the pending, done
    and failed counts.  Enqueueing an address that has no entry raises the
    total and the pending count by one and leaves the other two; enqueueing
    one that has an entry changes no count. *)
Theorem queueStatus_adds_up (q : gmap string Task) (token : Enqueued) (d : Z) :
  qs_total (queueStatus q)
  = qs_pending (queueStatus q) + qs_done (queueStatus q) + qs_failed (queueStatus q)
  ∧ (q !! e_address token = None →
     queueStatus (enqueue token d q)
     = mkQueueStatus (S (qs_total (queueStatus q))) (S (qs_pending (queueStatus q)))
                     (qs_done (queueStatus q)) (qs_failed (queueStatus q)))
  ∧ (is_Some (q !! e_address token) →
     queueStatus (enqueue token d q) = queueStatus q).
Proof.
  split_and!.
  - unfold queueStatus, countStatus. simpl.
    rewrite <- countStatus_split, length_fmap. symmetry. apply length_map_to_list.
  - intros Hnone. unfold queueStatus, enqueue. rewrite Hnone.
    rewrite !countStatus_insert by done. simpl.
    by rewrite map_size_insert_None.
  - intros [t Ht]. unfold enqueue. by rewrite Ht.
Qed.

(** *** [remove] *)

(** X15. [remove] deletes the entry of the address and nothing else, and is
    harmless on an address without entry.  Removing and enqueueing again is
    the way to reset a task: the entry is then a new one, pending with no
    attempt made and no cool-down to wait for, whatever it was before (failed
    included). *)
Theorem remove_then_enqueue_resets (token : Enqueued) (d : Z) (q : gmap string Task) :
  remove (e_address token) q !! e_address token = None
  ∧ (∀ b, b ≠ e_address token → remove (e_address token) q !! b = q !! b)
  ∧ (q !! e_address token = None → remove (e_address token) q = q)
  ∧ (∃ t, enqueue token d (remove (e_address token) q) !! e_address token = Some t
          ∧ status t = pending ∧ attempts t = 0 ∧ lastAttempt t = None
          ∧ error t = None ∧ enqueuedAt t = d
          ∧ ∀ retryBefore, eligible retryBefore t = true)
  ∧ (∀ b, b ≠ e_address token →
          enqueue token d (remove (e_address token) q) !! b = q !! b).
Proof.
  unfold remove. split_and!.
  - apply lookup_delete_eq.
  - intros b Hne. by apply lookup_delete_ne.
  - apply delete_id.
  - unfold enqueue. rewrite lookup_delete_eq, lookup_insert_eq.
    eexists. split; [reflexivity|]. by split_and!.
  - intros b Hne. unfold enqueue. rewrite lookup_delete_eq.
    rewrite lookup_insert_ne by done. by apply lookup_delete_ne.
Qed.

(** *** What a drain does to the queue *)

Ltac item_cases :=
  unfold processItem, processWithPool, maybeMarkFailed;
  repeat (case_match; simpl in *; simplify_eq; try done).

Lemma processItem_attempted (item cur : Task) (env : Env) (s : Sys) :
  queue s !! address item = Some cur →
  ∃ t', queue (processItem item env s) !! address item = Some t'
        ∧ attempted (now env) cur t'.
Proof.
  intros Hcur. unfold attempted.
  item_cases;
    repeat (progress (simpl; rewrite ?lookup_alter_eq, ?Hcur)); simpl;
    (eexists; split; [reflexivity|]); simpl; split_and!; done.
Qed.

Lemma processItem_dom (item : Task) (env : Env) (s : Sys) (b : string) :
  is_Some (queue (processItem item env s) !! b) ↔ is_Some (queue s !! b).
Proof.
  destruct (decide (b = address item)) as [->|Hne].
  - destruct (queue s !! address item) as [cur|] eqn:E.
    + destruct (processItem_attempted item cur env s E) as (t' & -> & _). split; eauto.
    + assert (queue (processItem item env s) !! address item = None) as ->; [|done].
      item_cases; repeat (progress (simpl; rewrite ?lookup_alter_eq, ?E)); done.
  - by rewrite processItem_other.
Qed.

Lemma processItems_attempted (items : list Task) (env : Env) (s : Sys) (item : Task) :
  NoDup (address <$> items) →
  (∀ x, x ∈ items → queue s !! address x = Some x) →
  item ∈ items →
  ∃ t', queue (foldl (λ acc x, processItem x env acc) s items) !! address item = Some t'
        ∧ attempted (now env) item t'.
Proof.
  revert s. induction items as [|x items IH]; intros s Hnd Hacc Hin.
  { by apply elem_of_nil in Hin. }
  rewrite fmap_cons in Hnd. apply NoDup_cons in Hnd as [Hfresh Hnd]. simpl.
  assert (∀ y, y ∈ items → address y ≠ address x) as Hne.
  { intros y Hy E. apply Hfresh. rewrite <- E. by apply list_elem_of_fmap_2. }
  apply elem_of_cons in Hin as [-> | Hin].
  - destruct (processItems_queue items env (processItem x env s) Hnd) as [Hother _].
    { intros y Hy. rewrite processItem_other by by apply Hne. apply Hacc. by right. }
    rewrite Hother by done. apply processItem_attempted. apply Hacc. by left.
  - apply IH; [done | | done].
    intros y Hy. rewrite processItem_other by by apply Hne. apply Hacc. by right.
Qed.

Lemma drain_keyed (n : nat) (env : Env) (s : Sys) :
  keyed (queue s) → draining s = false → keyed (queue (drain n env s)).
Proof.
  intros Hk Hd a t' Ht'.
  destruct (drain_queue n env s Hk Hd) as (_ & Hother & Hself).
  destruct (decide (a ∈ address <$> selectBatch n (now env) (queue s))) as [Hin|Hout].
  - apply list_elem_of_fmap in Hin as (item & -> & Hin).
    destruct (Hself item Hin) as (t'' & Ht'' & Ha & _). congruence.
  - rewrite Hother in Ht' by done. by apply Hk.
Qed.

Lemma drain_works_on_batch_aux (n : nat) (env : Env) (s : Sys) :
  keyed (queue s) → draining s = false →
  ∀ item, item ∈ selectBatch n (now env) (queue s) →
    ∃ t', queue (drain n env s) !! address item = Some t'
          ∧ attempted (now env) item t'
          ∧ keyed (queue (drain n env s))
          ∧ draining (drain n env s) = false.
Proof.
  intros Hk Hd item Hin.
  destruct (drain_queue n env s Hk Hd) as (Hflag & _ & _).
  assert (∃ t', queue (drain n env s) !! address item = Some t'
                ∧ attempted (now env) item t') as (t' & Ht' & Hatt).
  { rewrite drain_unfold by done. simpl.
    apply (processItems_attempted _ env (with_draining true s)); [| |done].
    - by apply selectBatch_NoDup.
    - intros x Hx. simpl. by apply (selectBatch_elem _ _ _ _ Hk Hx). }
  exists t'. split_and!; [done | done | by apply drain_keyed | done].
Qed.

(** X16. A drain works on its batch only: the batch has at most
    [batchSize] tasks when that is positive (a [batchSize] of 0 is no limit
    to the driver), all of them pending; afterwards each of them has
    exactly one more attempt, dated with the time of the drain, and its
    identity and enqueue date unchanged; every other entry is untouched, no
    entry is added or removed, and the busy flag is down again.  A drain
    called while the flag is up does nothing. *)
Theorem drain_works_on_its_batch (n : nat) (env : Env) (s : Sys) :
  keyed (queue s) →
  (draining s = true → drain n env s = s)
  ∧ (draining s = false →
     (0 < n → length (selectBatch n (now env) (queue s)) ≤ n)
     ∧ (∀ item, item ∈ selectBatch n (now env) (queue s) →
          queue s !! address item = Some item ∧ status item = pending
          ∧ ∃ t', queue (drain n env s) !! address item = Some t'
                  ∧ attempted (now env) item t')
     ∧ (∀ b, b ∉ address <$> selectBatch n (now env) (queue s) →
          queue (drain n env s) !! b = queue s !! b)
     ∧ (∀ b, is_Some (queue (drain n env s) !! b) ↔ is_Some (queue s !! b))
     ∧ draining (drain n env s) = false).
Proof.
  intros Hk. split.
  { intros Hd. unfold drain. by rewrite Hd. }
  intros Hd. destruct (drain_queue n env s Hk Hd) as (Hflag & Hother & _).
  split_and!.
  - intros Hn. unfold selectBatch. rewrite limitTo_length.
    destruct (Nat.eqb_spec n 0); lia.
  - intros item Hin. destruct (selectBatch_elem _ _ _ _ Hk Hin) as [Hq Hp].
    split_and!; [done..|]. rewrite drain_unfold by done. simpl.
    apply (processItems_attempted _ env (with_draining true s)); [| |done].
    + by apply selectBatch_NoDup.
    + intros x Hx. simpl. by apply (selectBatch_elem _ _ _ _ Hk Hx).
  - exact Hother.
  - intros b. rewrite drain_unfold by done. simpl.
    generalize (selectBatch n (now env) (queue s)). intros items.
    change (queue s) with (queue (with_draining true s)).
    generalize (with_draining true s). clear. intros s. revert s.
    induction items as [|x items IH]; intros s; simpl; [done|].
    by rewrite IH, processItem_dom.
  - exact Hflag.
Qed.

Lemma drain_works_on_its_batch_witness :
  (draining (with_queue threeTasks initial) = true →
   drain 2 (noPool (5 * minute)) (with_queue threeTasks initial)
   = with_queue threeTasks initial)
  ∧ (draining (with_queue threeTasks initial) = false →
     (0 < 2 →
      length (selectBatch 2 (now (noPool (5 * minute))) (queue (with_queue threeTasks initial)))
      ≤ 2)
     ∧ (∀ item,
          item ∈ selectBatch 2 (now (noPool (5 * minute))) (queue (with_queue threeTasks initial)) →
          queue (with_queue threeTasks initial) !! address item = Some item
          ∧ status item = pending
          ∧ ∃ t', queue (drain 2 (noPool (5 * minute)) (with_queue threeTasks initial))
                    !! address item = Some t'
                  ∧ attempted (now (noPool (5 * minute))) item t')
     ∧ (∀ b,
          b ∉ address <$> selectBatch 2 (now (noPool (5 * minute)))
                            (queue (with_queue threeTasks initial)) →
          queue (drain 2 (noPool (5 * minute)) (with_queue threeTasks initial)) !! b
          = queue (with_queue threeTasks initial) !! b)
     ∧ (∀ b, is_Some (queue (drain 2 (noPool (5 * minute)) (with_queue threeTasks initial)) !! b)
             ↔ is_Some (queue (with_queue threeTasks initial) !! b))
     ∧ draining (drain 2 (noPool (5 * minute)) (with_queue threeTasks initial)) = false).
Proof.
  apply (drain_works_on_its_batch 2 (noPool (5 * minute)) (with_queue threeTasks initial)).
  change (map_Forall (λ a t, address t = a) threeTasks).
  apply (bool_decide_unpack _). vm_compute. exact I.
Defined.

(** The drain of two out of three: the tasks without attempts go first, the
    older of them first.  With a batch size of 0 all three are selected. *)
Example drain_two_of_three :
  address <$> selectBatch 2 (5 * minute) threeTasks = ["C"; "B"]%string
  ∧ address <$> selectBatch 0 (5 * minute) threeTasks = ["C"; "B"; "A"]%string
  ∧ (attempts <$> queue (drain 2 (noPool (5 * minute)) (with_queue threeTasks initial))
                  !! "C"%string) = Some 1
  ∧ queue (drain 2 (noPool (5 * minute)) (with_queue threeTasks initial)) !! "A"%string
    = threeTasks !! "A"%string.
Proof. by vm_compute. Qed.

(** *** The order of the batch *)

#[local] Instance task_le_trans : Transitive task_le.
Proof. intros x y z. unfold task_le. lia. Qed.

#[local] Instance task_le_total : Total task_le.
Proof. intros x y. unfold task_le. lia. Qed.

(** X17. The batch of a drain is ordered by attempts, then by enqueue date,
    and it is the front of that order: a task that could have been selected
    (pending, cool-down over) but is left out comes after every selected task
    in it, so it never has fewer attempts than a selected one.  The batch
    holds as many tasks as the limit allows, and every eligible task when
    the limit is 0, which the driver reads as no limit. *)
Theorem drain_takes_fewest_attempts_first (n : nat) (d : Z) (q : gmap string Task) :
  keyed q →
  StronglySorted task_le (selectBatch n d q)
  ∧ (∀ t b, q !! address t = Some t → eligible (d - RETRY_AFTER_MS) t = true →
            t ∉ selectBatch n d q → b ∈ selectBatch n d q →
            task_le b t ∧ attempts b ≤ attempts t)
  ∧ length (selectBatch n d q)
    = (if n =? 0
       then length (filter (λ t, eligible (d - RETRY_AFTER_MS) t = true) (map_to_list q).*2)
       else n `min` length (filter (λ t, eligible (d - RETRY_AFTER_MS) t = true)
                                   (map_to_list q).*2)).
Proof.
  intros Hk. unfold selectBatch. rewrite limitTo_take.
  set (el := filter (λ t, eligible (d - RETRY_AFTER_MS) t = true) (map_to_list q).*2).
  set (ms := merge_sort task_le el).
  set (k := if n =? 0 then length ms else n).
  assert (StronglySorted task_le ms) as Hsorted.
  { unfold ms. apply StronglySorted_merge_sort; apply _. }
  assert (ms ≡ₚ el) as Hperm by apply merge_sort_Permutation.
  split_and!.
  - rewrite <- (take_drop k ms) in Hsorted. by apply StronglySorted_app_1_l in Hsorted.
  - intros t b Ht He Hout Hb.
    assert (t ∈ ms) as Hms.
    { rewrite Hperm. apply list_elem_of_filter. split; [done|].
      apply list_elem_of_fmap. exists (address t, t). split; [done|].
      by apply elem_of_map_to_list. }
    assert (t ∈ drop k ms) as Hdrop.
    { rewrite <- (take_drop k ms) in Hms. by apply elem_of_app in Hms as [?|?]. }
    assert (task_le b t) as Hle.
    { eapply (StronglySorted_app_1_elem_of task_le (take k ms) (drop k ms));
        [by rewrite take_drop | done | done]. }
    split; [done|]. unfold task_le in Hle. lia.
  - rewrite length_take. unfold k. rewrite (Permutation_length Hperm).
    destruct (n =? 0); [apply Nat.min_id | done].
Qed.

Lemma drain_takes_fewest_attempts_first_witness :
  StronglySorted task_le (selectBatch 2 (5 * minute) threeTasks)
  ∧ (∀ t b, threeTasks !! address t = Some t →
            eligible (5 * minute - RETRY_AFTER_MS) t = true →
            t ∉ selectBatch 2 (5 * minute) threeTasks →
            b ∈ selectBatch 2 (5 * minute) threeTasks →
            task_le b t ∧ attempts b ≤ attempts t)
  ∧ length (selectBatch 2 (5 * minute) threeTasks)
    = (if 2 =? 0
       then length (filter (λ t, eligible (5 * minute - RETRY_AFTER_MS) t = true)
                           (map_to_list threeTasks).*2)
       else 2 `min` length (filter (λ t, eligible (5 * minute - RETRY_AFTER_MS) t = true)
                                   (map_to_list threeTasks).*2)).
Proof.
  apply (drain_takes_fewest_attempts_first 2 (5 * minute) threeTasks).
  change (map_Forall (λ a t, address t = a) threeTasks).
  apply (bool_decide_unpack _). vm_compute. exact I.
Defined.

(** *** The cool-down *)

(** X18. A task is not selected again before its cool-down is over: a
    second drain less than two minutes (or exactly two minutes) after a
    drain selects none of the tasks that drain has worked on, so that over
    both drains each of them gets one attempt, not two. *)
Theorem drain_respects_cooldown (n1 n2 : nat) (env1 env2 : Env) (s : Sys) (item : Task) :
  keyed (queue s) → draining s = false →
  (now env2 - RETRY_AFTER_MS ≤ now env1)%Z →
  item ∈ selectBatch n1 (now env1) (queue s) →
  (address item ∉ address <$> selectBatch n2 (now env2) (queue (drain n1 env1 s)))
  ∧ (attempts <$> queue (drain n2 env2 (drain n1 env1 s)) !! address item)
    = Some (attempts item + 1).
Proof.
  intros Hk Hd Hsoon Hin.
  destruct (drain_works_on_batch_aux n1 env1 s Hk Hd item Hin) as (t' & Ht' & Hatt & Hk' & Hd').
  assert (address item ∉ address <$> selectBatch n2 (now env2) (queue (drain n1 env1 s)))
    as Hskip.
  { intros (x & Ha & Hx)%list_elem_of_fmap.
    destruct (selectBatch_elem _ _ _ _ Hk' Hx) as [Hq _].
    rewrite <- Ha, Ht' in Hq. injection Hq as <-.
    unfold selectBatch in Hx. rewrite limitTo_take in Hx.
    apply elem_of_take in Hx as (i & Hx%list_elem_of_lookup_2 & _).
    rewrite merge_sort_Permutation in Hx.
    apply list_elem_of_filter in Hx as [He _]. unfold eligible in He.
    destruct Hatt as (_ & _ & _ & _ & _ & Hlast). rewrite Hlast in He.
    apply andb_true_iff in He as [_ He]. apply Z.ltb_lt in He. lia. }
  split; [done|].
  destruct (drain_queue n2 env2 _ Hk' Hd') as (_ & Hother & _).
  rewrite Hother, Ht' by done. simpl. destruct Hatt as (_ & _ & _ & _ & -> & _). done.
Qed.

Lemma drain_respects_cooldown_witness :
  ("C"%string ∉ address <$> selectBatch 5 (now (noPool (6 * minute)))
                   (queue (drain 2 (noPool (5 * minute)) (with_queue threeTasks initial))))
  ∧ (attempts <$> queue (drain 5 (noPool (6 * minute))
                           (drain 2 (noPool (5 * minute)) (with_queue threeTasks initial)))
                  !! "C"%string)
    = Some (0 + 1).
Proof.
  apply (drain_respects_cooldown 2 5 (noPool (5 * minute)) (noPool (6 * minute))
           (with_queue threeTasks initial)
           (mkTask "C" "CCC" "" None pending 0 None None 20 None)).
  - change (map_Forall (λ a t, address t = a) threeTasks).
    apply (bool_decide_unpack _). vm_compute. exact I.
  - reflexivity.
  - vm_compute. discriminate.
  - vm_compute. apply list_elem_of_here.
Defined.

(** *** A successful item *)

Lemma str_or_null_Some (o : option string) (x : string) :
  str_or_null o = Some x → o = Some x.
Proof.
  unfold str_or_null. destruct o as [y|]; [|done].
  destruct (decide (y = ""%string)); [done|]. by intros [= ->].
Qed.

Lemma processWithPool_success (item : Task) (pool : string) (env : Env) (s : Sys) :
  getBackfillData env (Some pool) ≠ [] →
  trackToken_throws env (address item) = false →
  queue (processWithPool item pool env s)
  = alter (markDone (now env)) (address item) (queue s)
  ∧ candles (processWithPool item pool env s)
    = (Storage.backfillCandles (address item) (Some pool)
         (getBackfillData env (Some pool)) (candles s)).1
  ∧ tokens (processWithPool item pool env s) = tokens s
  ∧ (∀ cm, manager s = Some cm →
       ∃ cm', manager (processWithPool item pool env s) = Some cm'
              ∧ is_Some (CandleManager.tracked cm' !! address item)).
Proof.
  intros Hne Hthrow. unfold processWithPool.
  destruct (getBackfillData env (Some pool)) as [|x fetched] eqn:Ef; [done|].
  simpl length. simpl Nat.eqb. cbv iota.
  destruct (manager s) as [cm|] eqn:Em; simpl; rewrite Em; simpl.
  2:{ split_and!; try done. }
  destruct (CandleManager.has (CandleManager.tracked cm) (address item)) eqn:Eh; simpl.
  - split_and!; try done. intros cm0 [= <-]. exists cm. split; [done|].
    by apply has_true.
  - destruct (trackToken s); simpl; rewrite ?Hthrow; simpl;
      (split_and!; try done; intros cm0 [= <-]; eexists; split; [reflexivity|];
       unfold CandleManager.addToken; rewrite Eh; simpl; rewrite lookup_insert_eq; eauto).
Qed.

(** X19. When the pool of a queued token is known or resolves, the source
    answers with candles and registering the token does not throw,
    [processItem] completes the task: it is done, with no error, a completion
    date, the pool recorded and one more attempt counted; every fetched
    candle has a document; the manager, when injected, tracks the token; and
    a pool that had to be resolved is written to the Token document. *)
Theorem processItem_completes (item : Task) (pool : string) (env : Env) (s : Sys) :
  queue s !! address item = Some item →
  (str_or_null (poolAddress item) = Some pool
   ∨ (str_or_null (poolAddress item) = None
      ∧ str_or_null (resolvePoolAddress env (address item)) = Some pool)) →
  getBackfillData env (Some pool) ≠ [] →
  trackToken_throws env (address item) = false →
  (∃ t', queue (processItem item env s) !! address item = Some t'
         ∧ status t' = done ∧ error t' = None ∧ completedAt t' = Some (now env)
         ∧ poolAddress t' = Some pool ∧ attempts t' = attempts item + 1)
  ∧ (∀ x, x ∈ getBackfillData env (Some pool) →
          is_Some (candles (processItem item env s) !! (address item, Storage.o_timestamp x)))
  ∧ (∀ cm, manager s = Some cm →
       ∃ cm', manager (processItem item env s) = Some cm'
              ∧ is_Some (CandleManager.tracked cm' !! address item))
  ∧ (∀ tok, tokens s !! address item = Some tok →
       str_or_null (poolAddress item) = None →
       t_poolAddress <$> tokens (processItem item env s) !! address item = Some (Some pool)).
Proof.
  intros Hq Hpool Hne Hthrow. unfold processItem.
  destruct Hpool as [Hknown | [Hunknown Hres]].
  - rewrite Hknown.
    destruct (processWithPool_success item pool env
                (with_queue (alter (startAttempt (now env)) (address item) (queue s)) s)
                Hne Hthrow) as (Hqueue & Hcandles & Htokens & Hmanager).
    split_and!.
    + rewrite Hqueue. simpl. rewrite !lookup_alter_eq, Hq. simpl.
      eexists. split; [reflexivity|]. simpl. split_and!; try done.
      by apply str_or_null_Some.
    + intros x Hx. rewrite Hcandles. simpl.
      destruct (backfillCandles_written (address item) (Some pool)
                  (getBackfillData env (Some pool)) (candles s) x Hx) as [d Hd]. eauto.
    + exact Hmanager.
    + intros tok _ Hnone. congruence.
  - rewrite Hunknown, Hres.
    destruct (processWithPool_success item pool env
                (with_tokens (alter (setTokenPool pool) (address item)
                                (tokens (with_queue (alter (startAttempt (now env))
                                                       (address item) (queue s)) s)))
                   (with_queue (alter (setPool pool) (address item)
                                  (queue (with_queue (alter (startAttempt (now env))
                                                        (address item) (queue s)) s)))
                      (with_queue (alter (startAttempt (now env)) (address item) (queue s)) s)))
                Hne Hthrow) as (Hqueue & Hcandles & Htokens & Hmanager).
    split_and!.
    + rewrite Hqueue. simpl. rewrite !lookup_alter_eq, Hq. simpl.
      eexists. split; [reflexivity|]. simpl. by split_and!.
    + intros x Hx. rewrite Hcandles. simpl.
      destruct (backfillCandles_written (address item) (Some pool)
                  (getBackfillData env (Some pool)) (candles s) x Hx) as [d Hd]. eauto.
    + exact Hmanager.
    + intros tok Htok _. rewrite Htokens. simpl. rewrite lookup_alter_eq, Htok. done.
Qed.

Lemma processItem_completes_witness :
  (∃ t', queue (processItem (mkTask "A" "AAA" "" None pending 0 None None 7 None)
                  (poolFound (3 * minute)) (run cleared [OpAudit 7])) !! "A"%string = Some t'
         ∧ status t' = done ∧ error t' = None ∧ completedAt t' = Some (3 * minute)%Z
         ∧ poolAddress t' = Some "pool-a"%string ∧ attempts t' = 0 + 1)
  ∧ (∀ x, x ∈ getBackfillData (poolFound (3 * minute)) (Some "pool-a"%string) →
          is_Some (candles (processItem (mkTask "A" "AAA" "" None pending 0 None None 7 None)
                              (poolFound (3 * minute)) (run cleared [OpAudit 7]))
                     !! ("A"%string, Storage.o_timestamp x)))
  ∧ (∀ cm, manager (run cleared [OpAudit 7]) = Some cm →
       ∃ cm', manager (processItem (mkTask "A" "AAA" "" None pending 0 None None 7 None)
                         (poolFound (3 * minute)) (run cleared [OpAudit 7])) = Some cm'
              ∧ is_Some (CandleManager.tracked cm' !! "A"%string))
  ∧ (∀ tok, tokens (run cleared [OpAudit 7]) !! "A"%string = Some tok →
       str_or_null None = None →
       t_poolAddress <$> tokens (processItem (mkTask "A" "AAA" "" None pending 0 None None 7 None)
                                   (poolFound (3 * minute)) (run cleared [OpAudit 7]))
                         !! "A"%string
       = Some (Some "pool-a"%string)).
Proof.
  apply (processItem_completes (mkTask "A" "AAA" "" None pending 0 None None 7 None)
           "pool-a" (poolFound (3 * minute)) (run cleared [OpAudit 7])).
  - vm_compute. reflexivity.
  - right. split; vm_compute; reflexivity.
  - vm_compute. discriminate.
  - reflexivity.
Defined.

(** *** What the queue never touches *)

Lemma sameButPool_refl (t : Token) : sameButPool t t.
Proof. by unfold sameButPool. Qed.

Lemma keepsManager_refl (cm : CandleManager.t) : keepsManager cm cm.
Proof. by unfold keepsManager. Qed.

Lemma keeps_refl (s : Sys) : keeps s s.
Proof.
  unfold keeps. split_and!; try done.
  - intros a. destruct (tokens s !! a); constructor. apply sameButPool_refl.
  - destruct (manager s); constructor. apply keepsManager_refl.
Qed.

Lemma keeps_trans (s1 s2 s3 : Sys) : keeps s1 s2 → keeps s2 s3 → keeps s1 s3.
Proof.
  intros (Hc1 & Ht1 & Hm1 & Hj1) (Hc2 & Ht2 & Hm2 & Hj2). unfold keeps. split_and!.
  - eauto.
  - intros a. specialize (Ht1 a). specialize (Ht2 a).
    destruct Ht1 as [t t' (?&?&?&?&?)|]; inversion Ht2 as [? t'' (?&?&?&?&?)|]; subst;
      constructor. unfold sameButPool. split_and!; congruence.
  - destruct Hm1 as [cm cm' (Ha & Hb & Hl)|]; inversion Hm2 as [? cm'' (Ha' & Hb' & Hl')|];
      subst; constructor. unfold keepsManager. split_and!.
    + eauto.
    + intros a [m Hm]. rewrite Hb' by eauto. apply Hb. eauto.
    + congruence.
  - set_solver.
Qed.

Lemma keeps_queue (q : gmap string Task) (s : Sys) : keeps s (with_queue q s).
Proof. exact (keeps_refl s). Qed.

Lemma keeps_draining (d : bool) (s : Sys) : keeps s (with_draining d s).
Proof. exact (keeps_refl s). Qed.

Lemma addToken_keeps (a : string) (meta : CandleManager.Meta) (cm : CandleManager.t) :
  keepsManager cm (CandleManager.addToken a meta cm).
Proof.
  unfold CandleManager.addToken.
  destruct (CandleManager.has (CandleManager.tracked cm) a) eqn:Eh; [apply keepsManager_refl|].
  assert (CandleManager.tracked cm !! a = None) as Hnone.
  { destruct (CandleManager.tracked cm !! a) eqn:E; [|done].
    assert (CandleManager.has (CandleManager.tracked cm) a = true) as Ht
      by (apply has_true; eauto). congruence. }
  unfold keepsManager. simpl. split_and!; [| |done].
  - intros b m Hb. rewrite lookup_insert_ne; [done|]. intros ->. congruence.
  - intros b [m Hb]. rewrite lookup_insert_ne; [done|]. intros ->. congruence.
Qed.

Lemma maybeMarkFailed_keeps (item : Task) (s : Sys) : keeps s (maybeMarkFailed item s).
Proof. unfold maybeMarkFailed. destruct (_ <=? _); [apply keeps_queue | apply keeps_refl]. Qed.

Lemma processWithPool_keeps (item : Task) (pool : string) (env : Env) (s : Sys) :
  keeps s (processWithPool item pool env s).
Proof.
  unfold processWithPool. destruct (length _ =? 0); [apply maybeMarkFailed_keeps|].
  set (s3 := with_candles _ s).
  assert (keeps s s3) as H3.
  { unfold keeps, s3. simpl. split_and!; try done.
    - intros k d Hk. by rewrite backfillCandles_lookup, Hk.
    - intros a. destruct (tokens s !! a); constructor. apply sameButPool_refl.
    - destruct (manager s); constructor. apply keepsManager_refl. }
  apply (keeps_trans _ _ _ H3). clear H3. generalize s3. clear s3. intros s3.
  assert (∀ cm cm' s', manager s3 = Some cm → keepsManager cm cm' → jupiter s3 ⊆ jupiter s' →
            candles s' = candles s3 → tokens s' = tokens s3 → manager s' = Some cm' →
            keeps s3 s') as Hm.
  { intros cm cm' s' Em Hcm Hj Hc Ht Hm'. unfold keeps. rewrite Hc, Ht, Hm', Em.
    split_and!; try done.
    - intros a. destruct (tokens s3 !! a); constructor. apply sameButPool_refl.
    - by constructor. }
  destruct (manager s3) as [cm|] eqn:Em; simpl.
  2:{ apply keeps_queue. }
  destruct (negb _); simpl; [|apply keeps_queue].
  destruct (trackToken s3) eqn:Et; simpl.
  2:{ eapply Hm; [done | apply addToken_keeps | done..]. }
  destruct (trackToken_throws env (address item)); simpl.
  - unfold maybeMarkFailed. destruct (_ <=? _); simpl;
      (eapply Hm; [done | apply addToken_keeps | done..]).
  - eapply Hm; [done | apply addToken_keeps | simpl; set_solver | done..].
Qed.

Lemma setTokenPool_keeps (pool a : string) (s : Sys) :
  keeps s (with_tokens (alter (setTokenPool pool) a (tokens s)) s).
Proof.
  unfold keeps. simpl. split_and!; try done.
  - intros b. destruct (decide (b = a)) as [->|Hne].
    + rewrite lookup_alter_eq. destruct (tokens s !! a); constructor. by unfold sameButPool.
    + rewrite lookup_alter_ne by done. destruct (tokens s !! b); constructor.
      apply sameButPool_refl.
  - destruct (manager s); constructor. apply keepsManager_refl.
Qed.

Lemma processItem_keeps (item : Task) (env : Env) (s : Sys) :
  keeps s (processItem item env s).
Proof.
  unfold processItem.
  set (s1 := with_queue _ s). apply (keeps_trans _ s1); [apply keeps_queue|].
  destruct (str_or_null (poolAddress item)); [apply processWithPool_keeps|].
  destruct (str_or_null (resolvePoolAddress env (address item))) as [pool|];
    [|apply maybeMarkFailed_keeps].
  eapply keeps_trans; [|apply processWithPool_keeps].
  apply (keeps_trans _ (with_queue (alter (setPool pool) (address item) (queue s1)) s1));
    [apply keeps_queue|].
  exact (setTokenPool_keeps pool (address item) _).
Qed.

Lemma processItems_keeps (items : list Task) (env : Env) (s : Sys) :
  keeps s (foldl (λ acc item, processItem item env acc) s items).
Proof.
  revert s. induction items as [|item items IH]; intros s; simpl; [apply keeps_refl|].
  eapply keeps_trans; [apply processItem_keeps | apply IH].
Qed.

Lemma drain_keeps (n : nat) (env : Env) (s : Sys) : keeps s (drain n env s).
Proof.
  unfold drain. destruct (draining s); [apply keeps_refl|].
  destruct (selectBatch _ _ _) as [|item items]; [exact (keeps_refl s)|].
  apply (keeps_trans _ (with_draining true s)); [apply keeps_draining|].
  eapply keeps_trans; [apply processItems_keeps | apply keeps_draining].
Qed.

Lemma audit_keeps (d : Z) (s : Sys) : keeps s (auditAndEnqueueMissing d s).
Proof.
  unfold auditAndEnqueueMissing.
  generalize ((map_to_list (tokens s)).*2). intros l.
  revert s. induction l as [|token l IH]; intros s0; simpl; [apply keeps_refl|].
  eapply keeps_trans; [|apply IH].
  destruct (_ =? 0); [apply keeps_queue | apply keeps_refl].
Qed.

Lemma step_keeps (s : Sys) (op : Op) : keeps s (step s op).
Proof.
  destruct op; simpl;
    [apply keeps_queue | apply keeps_queue | apply drain_keeps | apply audit_keeps].
Qed.

Lemma run_keeps (ops : list Op) (s : Sys) : keeps s (run s ops).
Proof.
  revert s. induction ops as [|op ops IH]; intros s; [apply keeps_refl|].
  eapply keeps_trans; [apply step_keeps | apply IH].
Qed.

(** X20. Whatever is done to the queue (enqueue, remove, drain, audit, in
    any order and in any world), no stored candle is removed or replaced,
    no Token document is created or deleted and none changes in a field
    other than its pool address, and a token the candle manager tracks keeps
    its metadata and its forming candle; the last prices stay and no token
    leaves the price poller. *)
Theorem queue_work_keeps_the_stores (ops : list Op) (s : Sys) :
  (∀ k d, candles s !! k = Some d → candles (run s ops) !! k = Some d)
  ∧ (∀ a, match tokens s !! a, tokens (run s ops) !! a with
          | Some t, Some t' =>
              t_address t' = t_address t ∧ t_symbol t' = t_symbol t
              ∧ t_name t' = t_name t ∧ t_launchedAt t' = t_launchedAt t
              ∧ t_isActive t' = t_isActive t
          | None, None => True
          | _, _ => False
          end)
  ∧ match manager s, manager (run s ops) with
    | Some cm, Some cm' =>
        (∀ a m, CandleManager.tracked cm !! a = Some m
                → CandleManager.tracked cm' !! a = Some m
                  ∧ CandleManager.buffers cm' !! a = CandleManager.buffers cm !! a)
        ∧ CandleManager.lastPrices cm' = CandleManager.lastPrices cm
    | None, None => True
    | _, _ => False
    end
  ∧ jupiter s ⊆ jupiter (run s ops).
Proof.
  destruct (run_keeps ops s) as (Hc & Ht & Hm & Hj). split_and!; [done | | | done].
  - intros a. by destruct (Ht a).
  - destruct Hm as [cm cm' (Ha & Hb & Hl)|]; [|done]. split; [|done].
    intros a m Hm. split; [by apply Ha | apply Hb; eauto].
Qed.

(** *** What the audit enqueues *)

Lemma audit_fold_lookup (d : Z) (l : list Token) (s : Sys) (a : string) :
  queue (foldl (λ acc token,
                  if Storage.countDocuments (t_address token) (candles acc) =? 0
                  then with_queue
                         (enqueue (mkEnqueued (t_address token) (t_symbol token)
                                              (t_name token) (t_poolAddress token))
                                  d (queue acc)) acc
                  else acc) s l) !! a
  = match queue s !! a with
    | Some t => Some t
    | None =>
        match head (filter (λ token, t_address token = a) l) with
        | Some token =>
            if Storage.countDocuments a (candles s) =? 0 then Some (taskOf token d) else None
        | None => None
        end
    end.
Proof.
  revert s. induction l as [|x l IH]; intros s; simpl.
  { by destruct (queue s !! a). }
  rewrite IH. clear IH. rewrite filter_cons.
  destruct (Storage.countDocuments (t_address x) (candles s) =? 0) eqn:Ec; simpl.
  - unfold enqueue at 1. simpl.
    destruct (decide (t_address x = a)) as [<-|Hne]; simpl.
    + destruct (queue s !! t_address x) eqn:Eq; simpl; rewrite ?Eq; [done|].
      rewrite lookup_insert_eq. by rewrite Ec.
    + destruct (queue s !! t_address x) eqn:Eq; simpl; [done|].
      by rewrite lookup_insert_ne.
  - destruct (decide (t_address x = a)) as [<-|Hne]; simpl; [|done].
    rewrite Ec. destruct (queue s !! t_address x); [done|].
    by destruct (head _).
Qed.

Lemma head_filter_address (m : gmap string Token) (a : string) :
  keyedTokens m →
  head (filter (λ token, t_address token = a) (map_to_list m).*2) = m !! a.
Proof.
  intros Hk.
  destruct (head _) as [token|] eqn:Eh.
  - assert (token ∈ filter (λ token, t_address token = a) (map_to_list m).*2) as Hin.
    { destruct (filter _ _) as [|y rest]; [done|]. injection Eh as ->. by left. }
    apply list_elem_of_filter in Hin as [Ha Hin].
    apply list_elem_of_fmap in Hin as ([k t] & -> & Hin). simpl in *.
    apply elem_of_map_to_list in Hin. rewrite <- Ha, (Hk _ _ Hin). done.
  - destruct (m !! a) as [token|] eqn:Em; [|done].
    assert (token ∈ filter (λ token, t_address token = a) (map_to_list m).*2) as Hin.
    { apply list_elem_of_filter. split; [by apply (Hk _ _ Em)|].
      apply list_elem_of_fmap. exists (a, token). split; [done|].
      by apply elem_of_map_to_list. }
    destruct (filter _ _) as [|y rest]; [by apply elem_of_nil in Hin | done].
Qed.

(** X21. With Token documents under their addresses, the audit settles each
    address on its own: a queue entry that exists stays as it is; a token
    without entry and without candles gets a fresh pending entry made of its
    symbol, name and pool, with no attempts and the date of the audit; a
    token that has candles, and an address that is no token, get none. *)
Theorem audit_enqueues_tokens_without_candles (d : Z) (s : Sys) (a : string) :
  keyedTokens (tokens s) →
  queue (auditAndEnqueueMissing d s) !! a
  = match queue s !! a, tokens s !! a with
    | Some t, _ => Some t
    | None, Some token =>
        if Storage.countDocuments a (candles s) =? 0
        then Some (mkTask a (str_or (t_symbol token) "") (str_or (t_name token) "")
                          (str_or_null (t_poolAddress token)) pending 0 None None d None)
        else None
    | None, None => None
    end.
Proof.
  intros Hk. unfold auditAndEnqueueMissing. rewrite audit_fold_lookup.
  rewrite head_filter_address by done.
  destruct (queue s !! a); [done|].
  destruct (tokens s !! a) as [token|] eqn:Et; [|done].
  unfold taskOf. by rewrite (Hk _ _ Et).
Qed.

Lemma audit_enqueues_tokens_without_candles_witness :
  queue (auditAndEnqueueMissing 7 cleared) !! "A"%string
  = match queue cleared !! "A"%string, tokens cleared !! "A"%string with
    | Some t, _ => Some t
    | None, Some token =>
        if Storage.countDocuments "A" (candles cleared) =? 0
        then Some (mkTask "A" (str_or (t_symbol token) "") (str_or (t_name token) "")
                          (str_or_null (t_poolAddress token)) pending 0 None None 7 None)
        else None
    | None, None => None
    end.
Proof.
  apply (audit_enqueues_tokens_without_candles 7 cleared "A").
  change (map_Forall (λ k t, t_address t = k) (tokens cleared)).
  apply (bool_decide_unpack _). vm_compute. exact I.
Defined.

(** C4. After the audit every token of the registry without candles has a
    queue entry.  A token that had none gets a fresh
    one: pending, no attempt made, enqueued at the time of the audit.  A
    token that had an entry keeps it as it was, whatever its status and
    attempts: [enqueue] inserts, it never resets. *)
Theorem audit_enqueues_missing_keeps_existing (d : Z) (s : Sys) (k : string) (token : Token) :
  tokens s !! k = Some token →
  Storage.countDocuments (t_address token) (candles s) = 0 →
  match queue s !! t_address token with
  | Some t => queue (auditAndEnqueueMissing d s) !! t_address token = Some t
  | None =>
      ∃ t', queue (auditAndEnqueueMissing d s) !! t_address token = Some t'
            ∧ status t' = pending ∧ attempts t' = 0
            ∧ lastAttempt t' = None ∧ enqueuedAt t' = d
  end.
Proof.
  intros Hk Hc. unfold auditAndEnqueueMissing. rewrite audit_fold_lookup.
  destruct (queue s !! t_address token) as [t|]; [done|].
  assert (token ∈ filter (λ token', t_address token' = t_address token)
                         (map_to_list (tokens s)).*2) as Hin.
  { apply list_elem_of_filter. split; [done|].
    apply list_elem_of_fmap. exists (k, token). split; [done|].
    by apply elem_of_map_to_list. }
  destruct (filter _ _) as [|token' rest]; [by apply elem_of_nil in Hin|].
  simpl. rewrite Hc. simpl. eexists. split; [reflexivity|]. done.
Qed.

Lemma audit_enqueues_missing_keeps_existing_witness :
  match queue restarted !! "A"%string with
  | Some t => queue (auditAndEnqueueMissing (20 * minute) restarted) !! "A"%string = Some t
  | None =>
      ∃ t', queue (auditAndEnqueueMissing (20 * minute) restarted) !! "A"%string = Some t'
            ∧ status t' = pending ∧ attempts t' = 0
            ∧ lastAttempt t' = None ∧ enqueuedAt t' = (20 * minute)%Z
  end.
Proof.
  apply (audit_enqueues_missing_keeps_existing (20 * minute) restarted "A"
           (mkToken "A" (Some "AAA"%string) None None None true)).
  - vm_compute. reflexivity.
  - vm_compute. reflexivity.
Defined.

(** The claim as it was worded fails on the registry whose one token has no
    candle and an entry that is failed with 5 attempts: after the audit that
    entry is not pending with 0 attempts. *)
Lemma audit_does_not_refresh_failed_entry :
  ¬ (∀ k token,
       tokens restarted !! k = Some token →
       Storage.countDocuments (t_address token) (candles restarted) = 0 →
       ∃ t, queue (auditAndEnqueueMissing (20 * minute) restarted) !! t_address token = Some t
            ∧ status t = pending ∧ attempts t = 0).
Proof.
  intros H.
  destruct (H "A"%string (mkToken "A" (Some "AAA"%string) None None None true))
    as (t & Ht & Hs & Ha).
  - vm_compute. reflexivity.
  - vm_compute. reflexivity.
  - vm_compute in Ht. injection Ht as <-. discriminate Hs.
Qed.

(** *** The gap fill, token by token *)

Lemma gapFillTokens_elem (m : gmap string Token) (token : Token) :
  keyedTokens m →
  token ∈ gapFillTokens m ↔
    m !! t_address token = Some token ∧ t_isActive token = true
    ∧ is_Some (t_poolAddress token).
Proof.
  intros Hk. unfold gapFillTokens. rewrite list_elem_of_filter, list_elem_of_fmap. split.
  - intros [[Ha Hp] ([k t] & -> & Hin)]. simpl in *.
    apply elem_of_map_to_list in Hin. rewrite (Hk _ _ Hin). done.
  - intros (Hm & Ha & Hp). split; [done|]. exists (t_address token, token).
    split; [done|]. by apply elem_of_map_to_list.
Qed.

Lemma gapFill_own (env : Env) (s : Sys) (token : Token) :
  keyedTokens (tokens s) → token ∈ gapFillTokens (tokens s) →
  Storage.agreeOn (t_address token) (candles (gapFillOnStartup env s))
                  (fillStore env token (candles s)).
Proof.
  intros Hk Hin. rewrite gapFillOnStartup_fillStores. simpl.
  apply fillStores_own; [by apply gapFillTokens_NoDup | done | done].
Qed.

(** X22. At start-up, a token that is active, has a pool and whose newest
    candle is at least [GAP_THRESHOLD_MS] old is fetched again: afterwards
    its candles are exactly what [backfillCandles] makes of the stored ones
    and the answer of the source, whatever the other tokens needed. *)
Theorem gap_fill_refetches_stale_token
    (env : Env) (s : Sys) (a p : string) (token : Token) (latest : Z) :
  keyedTokens (tokens s) →
  tokens s !! a = Some token →
  t_isActive token = true → t_poolAddress token = Some p →
  Storage.getLatestCandleTime a (candles s) = Some latest →
  (GAP_THRESHOLD_MS ≤ now env - latest)%Z →
  ∀ ts, candles (gapFillOnStartup env s) !! (a, ts)
        = (Storage.backfillCandles a (Some p) (getBackfillData env (Some p)) (candles s)).1
            !! (a, ts).
Proof.
  intros Hk Ht Ha Hp Hl Hgap ts.
  assert (t_address token = a) as Haddr by apply (Hk _ _ Ht).
  assert (token ∈ gapFillTokens (tokens s)) as Hin.
  { apply gapFillTokens_elem; [done|]. rewrite Haddr, Hp. eauto. }
  pose proof (gapFill_own env s token Hk Hin ts) as Hown. rewrite Haddr in Hown.
  rewrite Hown, fillStore_eq, Haddr, Hl, Hp.
  destruct (now env - latest <? GAP_THRESHOLD_MS)%Z eqn:E; [apply Z.ltb_lt in E; lia|].
  by destruct (getBackfillData env (Some p)) as [|x fetched].
Qed.

Lemma gap_fill_refetches_stale_token_witness :
  candles (gapFillOnStartup tenMinutesLater stopped) !! ("A"%string, (3 * minute)%Z)
  = (Storage.backfillCandles "A" (Some "pool-a"%string)
       (getBackfillData tenMinutesLater (Some "pool-a"%string)) (candles stopped)).1
      !! ("A"%string, (3 * minute)%Z).
Proof.
  refine (gap_fill_refetches_stale_token tenMinutesLater stopped "A" "pool-a"
            (mkToken "A" (Some "AAA"%string) None (Some "pool-a"%string) None true) minute
            _ _ _ _ _ _ (3 * minute)%Z).
  - change (map_Forall (λ k t, t_address t = k) (tokens stopped)).
    apply (bool_decide_unpack _). vm_compute. exact I.
  - vm_compute. reflexivity.
  - reflexivity.
  - reflexivity.
  - vm_compute. reflexivity.
  - vm_compute. discriminate.
Defined.

(** X23. The gap fill changes nothing but candles, and only of stale tokens:
    the queue, the Token documents, the candle manager and the poller are as
    before, and an address keeps exactly its candles when it is no token, or
    a token that is inactive, without pool, without any candle, or whose
    newest candle is younger than [GAP_THRESHOLD_MS]. *)
Theorem gap_fill_leaves_fresh_tokens (env : Env) (s : Sys) (a : string) :
  keyedTokens (tokens s) →
  match tokens s !! a with
  | None => True
  | Some token =>
      t_isActive token = false ∨ t_poolAddress token = None
      ∨ match Storage.getLatestCandleTime a (candles s) with
        | None => True
        | Some latest => (now env - latest < GAP_THRESHOLD_MS)%Z
        end
  end →
  (∀ ts, candles (gapFillOnStartup env s) !! (a, ts) = candles s !! (a, ts))
  ∧ queue (gapFillOnStartup env s) = queue s
  ∧ tokens (gapFillOnStartup env s) = tokens s
  ∧ manager (gapFillOnStartup env s) = manager s
  ∧ jupiter (gapFillOnStartup env s) = jupiter s.
Proof.
  intros Hk Hcase. split; [|by rewrite gapFillOnStartup_fillStores].
  intros ts.
  destruct (decide (a ∈ t_address <$> gapFillTokens (tokens s))) as [Hin | Hout].
  2:{ rewrite gapFillOnStartup_fillStores. simpl. by apply fillStores_elsewhere. }
  apply list_elem_of_fmap in Hin as (token & -> & Hin).
  rewrite (gapFill_own env s token Hk Hin ts), fillStore_eq.
  apply gapFillTokens_elem in Hin as (Hm & Ha & [p Hp]); [|done].
  rewrite Hm in Hcase. destruct Hcase as [Hcase | [Hcase | Hcase]]; [congruence..|].
  destruct (Storage.getLatestCandleTime _ _) as [latest|]; [|done].
  by apply Z.ltb_lt in Hcase as ->.
Qed.

Lemma gap_fill_leaves_fresh_tokens_witness :
  (∀ ts, candles (gapFillOnStartup tenMinutesLater stopped) !! ("B"%string, ts)
         = candles stopped !! ("B"%string, ts))
  ∧ queue (gapFillOnStartup tenMinutesLater stopped) = queue stopped
  ∧ tokens (gapFillOnStartup tenMinutesLater stopped) = tokens stopped
  ∧ manager (gapFillOnStartup tenMinutesLater stopped) = manager stopped
  ∧ jupiter (gapFillOnStartup tenMinutesLater stopped) = jupiter stopped.
Proof.
  apply (gap_fill_leaves_fresh_tokens tenMinutesLater stopped "B").
  - change (map_Forall (λ k t, t_address t = k) (tokens stopped)).
    apply (bool_decide_unpack _). vm_compute. exact I.
  - vm_compute. right. left. reflexivity.
Defined.

End BackfillQueueMore.

(** ** What a discovery cycle marks *)

Section DiscoveryMarks.

Import Discovery.

Lemma mcFilter_partition (mcMap : gmap string Q) (l : list Migrated)
    (acc : list Migrated * gset string) :
  (foldl (mcFilter mcMap) acc l).2
    ∪ list_to_set (address <$> (foldl (mcFilter mcMap) acc l).1)
  = acc.2 ∪ list_to_set (address <$> acc.1) ∪ list_to_set (address <$> l).
Proof.
  revert acc. induction l as [|x l IH]; intros acc; simpl.
  { set_solver. }
  rewrite IH. unfold mcFilter.
  destruct (mcMap !! address x) as [mc|]; [destruct (negb _)|]; simpl;
    rewrite ?fmap_app, ?list_to_set_app; simpl; set_solver.
Qed.

Lemma length_eqb_0 {A : Type} (l : list A) : (length l =? 0) = true ↔ l = [].
Proof. destruct l; simpl; split; done. Qed.

(** The tokens a cycle works on, as a set of addresses. *)
Lemma processable_elem (tokens : list Migrated) (tokenDb : gmap string BackfillQueue.Token)
    (seen0 : gset string) (a : string) :
  a ∈ address <$>
        filter (λ t, address t ≠ ""%string ∧ (address t ∉ seen0)
                     ∧ ¬ (address t ∈ filter (λ a, a ∉ seen0)
                                           (filter (λ a, a ≠ ""%string) (map address tokens))
                          ∧ (BackfillQueue.t_isActive <$> tokenDb !! address t) = Some true))
               tokens
  ↔ a ≠ ""%string ∧ (a ∉ seen0) ∧ a ∈ address <$> tokens
    ∧ (BackfillQueue.t_isActive <$> tokenDb !! a) ≠ Some true.
Proof.
  rewrite list_elem_of_fmap. split.
  - intros (t & -> & Ht). apply list_elem_of_filter in Ht as [(Hne & Hseen & Hact) Ht].
    split_and!; [done | done | by apply list_elem_of_fmap_2 |].
    intros Hdb. apply Hact. split; [|done].
    apply list_elem_of_filter. split; [done|]. apply list_elem_of_filter. split; [done|].
    by apply (list_elem_of_fmap_2 address).
  - intros (Hne & Hseen & Hin & Hact).
    apply list_elem_of_fmap in Hin as (t & -> & Ht). exists t. split; [done|].
    apply list_elem_of_filter. split; [|done]. split_and!; [done | done |].
    intros [_ Hdb]. done.
Qed.

Lemma discoveryLoop_marked (tokens : list Migrated)
    (tokenDb : gmap string BackfillQueue.Token) (mcMap : gmap string Q)
    (abortAt : option nat) (seen : gset string) (a : string) :
  (a ∈ discoveryLoop tokens tokenDb mcMap abortAt seen →
   a ∈ afterCapCheck seen
   ∨ (a ≠ ""%string ∧ a ∈ address <$> tokens
      ∧ (BackfillQueue.t_isActive <$> tokenDb !! a) ≠ Some true))
  ∧ (abortAt = None →
     a ∈ afterCapCheck seen
     ∨ (a ≠ ""%string ∧ a ∈ address <$> tokens
        ∧ (BackfillQueue.t_isActive <$> tokenDb !! a) ≠ Some true) →
     a ∈ discoveryLoop tokens tokenDb mcMap abortAt seen).
Proof.
  pose proof (processable_elem tokens tokenDb (afterCapCheck seen) a) as Hp.
  unfold discoveryLoop. cbv zeta. fold (afterCapCheck seen).
  revert Hp. generalize (afterCapCheck seen). intros seen0 Hp.
  assert (∀ X : gset string, seen0 ⊆ X → a ∈ seen0 → a ∈ X) as Hlow by set_solver.
  destruct (length tokens =? 0) eqn:E0.
  { apply length_eqb_0 in E0 as ->. split; [by left|].
    intros _ [? | (_ & Hin & _)]; [done|]. by apply elem_of_nil in Hin. }
  destruct (length (filter _ (filter _ _)) =? 0) eqn:E1.
  { apply length_eqb_0 in E1. split; [by left|].
    intros _ [? | (Hne & Hin & _)]; [done|].
    destruct (decide (a ∈ seen0)) as [|Hout]; [done|].
    assert (a ∈ filter (λ a, a ∉ seen0) (filter (λ a, a ≠ ""%string) (map address tokens)))
      as Hin'.
    { apply list_elem_of_filter. split; [done|]. by apply list_elem_of_filter. }
    rewrite E1 in Hin'. by apply elem_of_nil in Hin'. }
  revert Hp.
  match goal with
  | |- context [foldl (mcFilter mcMap) _ ?p] => generalize p
  end.
  intros processTokens Hp.
  assert (a ∈ seen0 ∪ list_to_set (address <$> processTokens)
          ↔ a ∈ seen0
            ∨ (a ≠ ""%string ∧ a ∈ address <$> tokens
               ∧ (BackfillQueue.t_isActive <$> tokenDb !! a) ≠ Some true)) as Hall.
  { rewrite elem_of_union, elem_of_list_to_set, Hp.
    destruct (decide (a ∈ seen0)); [by split; left | tauto]. }
  pose proof (mcFilter_partition mcMap processTokens ([], seen0)) as Hpart.
  destruct (mcFilter_foldl mcMap processTokens ([], seen0)) as (H1 & H2 & H3).
  simpl in Hpart, H1, H2, H3.
  destruct (length processTokens =? 0) eqn:E2.
  { apply length_eqb_0 in E2 as ->. split; [by left|]. intros _ Hr.
    apply Hall in Hr. set_solver. }
  destruct (length (foldl (mcFilter mcMap) ([], seen0) processTokens).1 =? 0) eqn:E3.
  { apply length_eqb_0 in E3. rewrite E3 in Hpart. split.
    - intros Ha. apply Hall. set_solver.
    - intros _ Hr. apply Hall in Hr. set_solver. }
  rewrite mark_foldl. split.
  - intros Ha. apply Hall. apply elem_of_union in Ha as [Ha | Ha]; [set_solver|].
    apply elem_of_list_to_set in Ha. apply list_elem_of_fmap in Ha as (t & -> & Ht).
    apply visited_elem in Ht.
    assert (address t ∈ (foldl (mcFilter mcMap) ([], seen0) processTokens).2
              ∪ list_to_set (address <$> (foldl (mcFilter mcMap) ([], seen0) processTokens).1))
      as Hin.
    { apply elem_of_union. right. apply elem_of_list_to_set. by apply list_elem_of_fmap_2. }
    rewrite Hpart in Hin. set_solver.
  - intros -> Hr. apply Hall in Hr. simpl. rewrite Hpart. set_solver.
Qed.

(** X24. A discovery cycle marks as seen only addresses of its batch that are
    not empty and not those of tokens active in the Token collection, on top
    of what the set held after the cap check; when no iteration throws it
    marks every one of them, whatever the market caps are. *)
Theorem cycle_marks_the_tokens_it_may_process (tokens : list Migrated)
    (tokenDb : gmap string BackfillQueue.Token) (mcMap : gmap string Q)
    (abortAt : option nat) (seen : gset string) (a : string) :
  (a ∈ discoveryLoop tokens tokenDb mcMap abortAt seen →
   a ∈ afterCapCheck seen
   ∨ (a ≠ ""%string ∧ a ∈ address <$> tokens
      ∧ (BackfillQueue.t_isActive <$> tokenDb !! a) ≠ Some true))
  ∧ (a ∈ discoveryLoop tokens tokenDb mcMap None seen ↔
     a ∈ afterCapCheck seen
     ∨ (a ≠ ""%string ∧ a ∈ address <$> tokens
        ∧ (BackfillQueue.t_isActive <$> tokenDb !! a) ≠ Some true)).
Proof.
  split; [apply discoveryLoop_marked|].
  split; [apply discoveryLoop_marked|]. by apply discoveryLoop_marked.
Qed.

(** X25. A batch that a cycle worked through without a throw is skipped as a
    whole by the next cycle, as long as the seen set is within [MAX_SEEN] and
    no token of the batch was deactivated in between: the set stays as it
    is, whatever the market caps are and wherever that cycle would throw. *)
Theorem batch_worked_through_is_skipped (tokens : list Migrated)
    (tokenDb tokenDb' : gmap string BackfillQueue.Token) (mcMap mcMap' : gmap string Q)
    (abortAt : option nat) (seen : gset string) :
  size (discoveryLoop tokens tokenDb mcMap None seen) ≤ MAX_SEEN →
  (∀ a, (BackfillQueue.t_isActive <$> tokenDb !! a) = Some true →
        (BackfillQueue.t_isActive <$> tokenDb' !! a) = Some true) →
  discoveryLoop tokens tokenDb' mcMap' abortAt (discoveryLoop tokens tokenDb mcMap None seen)
  = discoveryLoop tokens tokenDb mcMap None seen.
Proof.
  intros Hsize Hactive.
  assert (afterCapCheck (discoveryLoop tokens tokenDb mcMap None seen)
          = discoveryLoop tokens tokenDb mcMap None seen) as Hcap.
  { unfold afterCapCheck. destruct (Nat.ltb_spec MAX_SEEN (size (discoveryLoop tokens tokenDb mcMap None seen))); [lia | done]. }
  apply set_eq. intros a. split.
  - intros Ha. apply discoveryLoop_marked in Ha. rewrite Hcap in Ha.
    destruct Ha as [Ha | (Hne & Hin & Hact)]; [done|].
    apply discoveryLoop_marked; [done|]. right. split_and!; [done | done |].
    intros Hdb. apply Hact, Hactive, Hdb.
  - intros Ha.
    destruct (discoveryLoop_between tokens tokenDb' mcMap' abortAt
                (discoveryLoop tokens tokenDb mcMap None seen)) as [Hlow _].
    rewrite Hcap in Hlow. by apply Hlow.
Qed.

Lemma batch_worked_through_is_skipped_witness :
  discoveryLoop (batchOf ["1"; "2"; "3"]%string) ∅ {[ "2"%string := 5000%Q ]} (Some 0)
                (discoveryLoop (batchOf ["1"; "2"; "3"]%string) ∅ {[ "1"%string := 1000%Q ]}
                               None ∅)
  = discoveryLoop (batchOf ["1"; "2"; "3"]%string) ∅ {[ "1"%string := 1000%Q ]} None ∅.
Proof.
  apply (batch_worked_through_is_skipped (batchOf ["1"; "2"; "3"]%string) ∅ ∅
           {[ "1"%string := 1000%Q ]} {[ "2"%string := 5000%Q ]} (Some 0) ∅).
  - apply Nat.leb_le. vm_compute. reflexivity.
  - intros a Ha. exact Ha.
Defined.

End DiscoveryMarks.

(** ** The feeds of graduated tokens *)

Section MoralisFeeds.

Import Discovery Moralis.

Lemma foldl_concat {A B : Type} (f : A → B → A) (acc : A) (ls : list (list B)) :
  foldl (λ acc l, foldl f acc l) acc ls = foldl f acc (concat ls).
Proof.
  revert acc. induction ls as [|l ls IH]; intros acc; simpl; [done|].
  by rewrite IH, foldl_app.
Qed.

Lemma head_filter_app_l {A : Type} (P : A → Prop) `{!∀ x, Decision (P x)}
    (l k : list A) (x : A) :
  x ∈ l → P x → head (filter P (l ++ k)) = head (filter P l).
Proof.
  intros Hx HP. rewrite filter_app.
  assert (x ∈ filter P l) as Hin by (by apply list_elem_of_filter).
  destruct (filter P l); [by apply elem_of_nil in Hin | done].
Qed.

Lemma dedup_foldl (l : list Migrated) (seen : gset string) (out : list Migrated) :
  seen = list_to_set (address <$> out) →
  NoDup (address <$> out) →
  (∀ t, t ∈ out → address t ≠ ""%string) →
  NoDup (address <$> (foldl dedup (seen, out) l).2)
  ∧ (∀ t, t ∈ (foldl dedup (seen, out) l).2 → address t ≠ ""%string)
  ∧ (foldl dedup (seen, out) l).2 `sublist_of` out ++ l
  ∧ (∀ a, a ≠ ""%string →
          head (filter (λ t, address t = a) (foldl dedup (seen, out) l).2)
          = head (filter (λ t, address t = a) (out ++ l))).
Proof.
  revert seen out. induction l as [|x l IH]; intros seen out Hseen Hnd Hne; simpl.
  { rewrite app_nil_r. done. }
  unfold dedup at 2 4 6 8. simpl.
  destruct (decide (address x ≠ ""%string ∧ address x ∉ seen)) as [[Hx Hfresh] | Hskip].
  - replace (out ++ x :: l) with ((out ++ [x]) ++ l) by (by rewrite <- app_assoc).
    apply IH.
    + apply set_eq. intros a. rewrite Hseen, fmap_app.
      rewrite elem_of_union, !elem_of_list_to_set, elem_of_app. simpl. set_solver.
    + rewrite fmap_app. apply NoDup_app. split_and!; [done | | apply NoDup_singleton].
      intros a Ha Ha'. apply list_elem_of_singleton in Ha' as ->.
      apply Hfresh. rewrite Hseen. by apply elem_of_list_to_set.
    + intros t [Ht | Ht%list_elem_of_singleton]%elem_of_app; [by apply Hne | by subst].
  - destruct (IH seen out Hseen Hnd Hne) as (G1 & G2 & G3 & G4).
    split_and!; [done | done | |].
    + etrans; [exact G3|]. apply sublist_app; [done|]. by apply sublist_cons.
    + intros a Ha. rewrite G4 by done.
      destruct (decide (address x = a)) as [Hxa | Hxa].
      * assert (a ∈ seen) as Hin.
        { destruct (decide (a ∈ seen)) as [|Hout]; [done|]. destruct Hskip. by rewrite Hxa. }
        rewrite Hseen in Hin. apply elem_of_list_to_set in Hin.
        apply list_elem_of_fmap in Hin as (t & Hta & Ht).
        rewrite !(head_filter_app_l (λ t, address t = a) out _ t) by done. done.
      * rewrite !filter_app, filter_cons_False by done. done.
Qed.

(** X26. [getMigratedTokens] returns every token of the feeds that has an
    address once: no address is empty or repeated, the tokens keep the order
    of the feeds, and for an address offered several times it is the first
    offer that is returned.  [lastUpdate] is set to the present exactly when
    some token is returned. *)
Theorem migrated_tokens_are_deduplicated (now : Z) (results : list (list Migrated))
    (lastUpdate : Z) :
  NoDup (address <$> (getMigratedTokens now results lastUpdate).1)
  ∧ (∀ t, t ∈ (getMigratedTokens now results lastUpdate).1 → address t ≠ ""%string)
  ∧ (getMigratedTokens now results lastUpdate).1 `sublist_of` concat results
  ∧ (∀ a, a ≠ ""%string →
          head (filter (λ t, address t = a) (getMigratedTokens now results lastUpdate).1)
          = head (filter (λ t, address t = a) (concat results)))
  ∧ (getMigratedTokens now results lastUpdate).2
    = match (getMigratedTokens now results lastUpdate).1 with
      | [] => lastUpdate
      | _ => now
      end.
Proof.
  unfold getMigratedTokens. simpl. rewrite foldl_concat.
  destruct (dedup_foldl (concat results) ∅ []) as (G1 & G2 & G3 & G4).
  { done. }
  { constructor. }
  { intros t Ht. by apply elem_of_nil in Ht. }
  split_and!; [done | done | done | done |].
  by destruct (foldl dedup (∅, []) (concat results)).2.
Qed.

(** The two overlapping feeds: the token without address is dropped, and of
    the tokens 1 and 2 the offers of the first feed are kept. *)
Example two_feeds_merged :
  getMigratedTokens 9 twoFeeds 0
  = ([mkMigrated "1" "ONE" "" None; mkMigrated "2" "TWO" "" None;
      mkMigrated "3" "THREE" "" None], 9%Z).
Proof. vm_compute. reflexivity. Qed.

End MoralisFeeds.

(** ** Market caps and volumes from DexScreener *)

Section DexScreenerBatches.

Import DexScreener.

Lemma slices_spec (fuel i : nat) (addresses : list string) :
  length addresses ≤ i + fuel →
  concat (slices fuel i addresses) = drop i addresses
  ∧ Forall (λ b, 0 < length b ≤ BATCH_SIZE) (slices fuel i addresses).
Proof.
  revert i. induction fuel as [|fuel IH]; intros i Hfuel; simpl.
  { rewrite drop_ge by lia. done. }
  destruct (Nat.ltb_spec i (length addresses)) as [Hlt | Hge].
  2:{ rewrite drop_ge by lia. done. }
  destruct (IH (i + BATCH_SIZE)) as [Hcat Hall]; [unfold BATCH_SIZE; lia|].
  split.
  - simpl. rewrite Hcat, <- drop_drop. apply take_drop.
  - constructor; [|done]. rewrite length_take, length_drop. unfold BATCH_SIZE. lia.
Qed.

Lemma slices_fuel (fuel fuel' i : nat) (addresses : list string) :
  length addresses ≤ i + fuel → fuel ≤ fuel' →
  slices fuel' i addresses = slices fuel i addresses.
Proof.
  revert fuel' i. induction fuel as [|fuel IH]; intros fuel' i Hfuel Hle.
  - destruct fuel' as [|fuel']; simpl; [done|].
    destruct (Nat.ltb_spec i (length addresses)); [lia | done].
  - destruct fuel' as [|fuel']; [lia|]. simpl.
    destruct (Nat.ltb_spec i (length addresses)); [|done].
    f_equal. apply IH; [unfold BATCH_SIZE|]; lia.
Qed.

Lemma collect_answered (value : Pair → Q) (get : list string → option (list Pair))
    (addresses : list string) :
  collect value get (Some addresses) = foldl (keepMax value) ∅ (answered get addresses).
Proof.
  unfold collect, answered.
  destruct (length addresses =? 0) eqn:E.
  { destruct addresses; [done | discriminate E]. }
  generalize (requests addresses). generalize (∅ : gmap string Q).
  intros r l. revert r. induction l as [|b l IH]; intros r; simpl; [done|].
  rewrite IH. destruct (get b) as [pairs|]; simpl; [|done]. by rewrite foldl_app.
Qed.

(** X27. The requests [getMarketCaps] and [getVolume5m] send carry every
    address once, in order, in groups of at least one and at most
    [BATCH_SIZE]; the loop ends by its own test (more steps would add no
    request), and a request that fails only loses its own pairs: the result
    is the running maximum over the pairs of all answers that arrived. *)
Theorem requests_cover_addresses (value : Pair → Q)
    (get : list string → option (list Pair)) (addresses : list string) :
  concat (requests addresses) = addresses
  ∧ Forall (λ b, 0 < length b ≤ BATCH_SIZE) (requests addresses)
  ∧ (∀ extra, slices (length addresses + extra) 0 addresses = requests addresses)
  ∧ collect value get (Some addresses)
    = foldl (keepMax value) ∅ (answered get addresses).
Proof.
  destruct (slices_spec (length addresses) 0 addresses) as [Hcat Hall]; [lia|].
  split_and!; [done | done | |].
  - intros extra. apply slices_fuel; lia.
  - apply collect_answered.
Qed.

Lemma keepMax_lookup (value : Pair → Q) (r : gmap string Q) (x : Pair) (a : string) :
  keepMax value r x !! a
  = if decide (str_or_null (baseToken_address x) = Some a)
    then match r !! a with
         | None => Some (value x)
         | Some old => if Strategy.gtb (value x) old then Some (value x) else Some old
         end
    else r !! a.
Proof.
  unfold keepMax. destruct (str_or_null (baseToken_address x)) as [addr|] eqn:Ea.
  2:{ by rewrite decide_False. }
  destruct (decide (Some addr = Some a)) as [[= ->] | Hne].
  - destruct (r !! a) as [old|] eqn:Er; [|by rewrite lookup_insert_eq].
    destruct (Strategy.gtb _ _); [by rewrite lookup_insert_eq | done].
  - assert (addr ≠ a) by congruence.
    destruct (r !! addr) as [old|]; [destruct (Strategy.gtb _ _)|];
      by rewrite ?lookup_insert_ne.
Qed.

Lemma keepMax_foldl (value : Pair → Q) (pairs : list Pair) (r : gmap string Q) (a : string) :
  match foldl (keepMax value) r pairs !! a with
  | None =>
      r !! a = None
      ∧ ∀ p, p ∈ pairs → str_or_null (baseToken_address p) ≠ Some a
  | Some v =>
      (r !! a = Some v
       ∨ ∃ p, p ∈ pairs ∧ str_or_null (baseToken_address p) = Some a ∧ value p = v)
      ∧ (∀ v0, r !! a = Some v0 → (v0 <= v)%Q)
      ∧ (∀ p, p ∈ pairs → str_or_null (baseToken_address p) = Some a → (value p <= v)%Q)
  end.
Proof.
  revert r. induction pairs as [|x l IH]; intros r; simpl.
  { destruct (r !! a) as [v|] eqn:Er.
    - split_and!; [by left | intros v0 [= ->]; apply Qle_refl |].
      intros p Hp. by apply elem_of_nil in Hp.
    - split; [done|]. intros p Hp. by apply elem_of_nil in Hp. }
  specialize (IH (keepMax value r x)). rewrite keepMax_lookup in IH.
  destruct (foldl (keepMax value) (keepMax value r x) l !! a) as [v|].
  - destruct IH as (Hfrom & Hold & Hall).
    destruct (decide (str_or_null (baseToken_address x) = Some a)) as [Hx | Hx].
    + assert ((value x <= v)%Q ∧ (∀ v0, r !! a = Some v0 → (v0 <= v)%Q)
              ∧ (r !! a = Some v
                 ∨ ∃ p, p ∈ x :: l ∧ str_or_null (baseToken_address p) = Some a
                        ∧ value p = v)) as (Hxv & Hrv & Hsrc).
      { destruct (r !! a) as [old|] eqn:Er.
        - destruct (Strategy.gtb (value x) old) eqn:Eg.
          + apply gtb_lt in Eg. split_and!.
            * by apply Hold.
            * intros v0 [= <-]. eapply Qle_trans; [by apply Qlt_le_weak|]. by apply Hold.
            * destruct Hfrom as [[= <-] | (p & Hp & Ha & Hv)].
              -- right. exists x. split_and!; [by left | done | done].
              -- right. exists p. split_and!; [by right | done | done].
          + assert (value x <= old)%Q as Hle.
            { destruct (Qlt_le_dec old (value x)) as [Hlt | Hle]; [|done].
              apply gtb_lt in Hlt. congruence. }
            split_and!.
            * eapply Qle_trans; [exact Hle|]. by apply Hold.
            * intros v0 [= <-]. by apply Hold.
            * destruct Hfrom as [[= <-] | (p & Hp & Ha & Hv)]; [by left|].
              right. exists p. split_and!; [by right | done | done].
        - split_and!.
          + by apply Hold.
          + intros v0 [=].
          + destruct Hfrom as [[= <-] | (p & Hp & Ha & Hv)].
            * right. exists x. split_and!; [by left | done | done].
            * right. exists p. split_and!; [by right | done | done]. }
      split_and!; [done | done |].
      intros p [-> | Hp]%elem_of_cons Ha; [done | by apply Hall].
    + split_and!.
      * destruct Hfrom as [? | (p & Hp & Ha & Hv)]; [by left|].
        right. exists p. split_and!; [by right | done | done].
      * done.
      * intros p [-> | Hp]%elem_of_cons Ha; [done | by apply Hall].
  - destruct IH as [Hnone Hall].
    destruct (decide (str_or_null (baseToken_address x) = Some a)) as [Hx | Hx].
    { destruct (r !! a); [destruct (Strategy.gtb _ _)|]; done. }
    split; [done|]. intros p [-> | Hp]%elem_of_cons; [done | by apply Hall].
Qed.

(** X28. For every address, [getMarketCaps] holds the highest market cap
    (the fully diluted value where the cap is missing, 0 where both are)
    among the pairs of that base token in the answers that arrived, and
    [getVolume5m] the highest 5-minute volume; an address has no entry
    exactly when no such pair came.  Pairs without base-token address are
    ignored. *)
Theorem highest_value_per_token (get : list string → option (list Pair))
    (addresses : list string) (a : string) :
  ( match getMarketCaps get (Some addresses) !! a with
    | None => ∀ p, p ∈ answered get addresses → str_or_null (baseToken_address p) ≠ Some a
    | Some v =>
        (∃ p, p ∈ answered get addresses ∧ str_or_null (baseToken_address p) = Some a
              ∧ mcOf p = v)
        ∧ (∀ p, p ∈ answered get addresses → str_or_null (baseToken_address p) = Some a →
                (mcOf p <= v)%Q)
    end )
  ∧ ( match getVolume5m get (Some addresses) !! a with
      | None => ∀ p, p ∈ answered get addresses → str_or_null (baseToken_address p) ≠ Some a
      | Some v =>
          (∃ p, p ∈ answered get addresses ∧ str_or_null (baseToken_address p) = Some a
                ∧ volOf p = v)
          ∧ (∀ p, p ∈ answered get addresses → str_or_null (baseToken_address p) = Some a →
                  (volOf p <= v)%Q)
      end ).
Proof.
  unfold getMarketCaps, getVolume5m. rewrite !collect_answered. split.
  - pose proof (keepMax_foldl mcOf (answered get addresses) ∅ a) as H.
    destruct (foldl (keepMax mcOf) ∅ (answered get addresses) !! a) as [v|].
    + destruct H as ([H | H] & _ & Hall); [by rewrite lookup_empty in H | done].
    + by destruct H.
  - pose proof (keepMax_foldl volOf (answered get addresses) ∅ a) as H.
    destruct (foldl (keepMax volOf) ∅ (answered get addresses) !! a) as [v|].
    + destruct H as ([H | H] & _ & Hall); [by rewrite lookup_empty in H | done].
    + by destruct H.
Qed.

(** Forty addresses: two requests, of 30 and of 10; the first one fails, the
    second answers with two pairs of token 30, one pair without address and
    one of token 31 that has only a fully diluted value. *)
Example forty_addresses :
  length <$> requests forty = [30; 10]
  ∧ getMarketCaps secondOnly (Some forty)
    = {[ "30"%string := 9%Q; "31"%string := 7%Q ]}.
Proof. split; vm_compute; reflexivity. Qed.

End DexScreenerBatches.

(** ** Pruning and alerts *)

Section Maintenance.

Import App.

Lemma untouched_refl (a : string) (w : World) : untouched a w w.
Proof. by unfold untouched. Qed.

Lemma untouched_trans (a : string) (w1 w2 w3 : World) :
  untouched a w1 w2 → untouched a w2 w3 → untouched a w1 w3.
Proof.
  unfold untouched. intros (A1 & A2 & A3 & A4 & A5 & A6 & A7) (B1 & B2 & B3 & B4 & B5 & B6 & B7).
  split_and!; try congruence. by rewrite B6.
Qed.

Lemma untouched_pruned (a : string) (w1 w2 w3 : World) :
  untouched a w1 w2 → pruned a w2 w3 → pruned a w1 w3.
Proof.
  unfold untouched, pruned.
  intros (A1 & A2 & A3 & A4 & A5 & A6 & A7) (B1 & B2 & B3 & B4 & B5 & B6 & B7).
  split_and!; try done. by rewrite B1, A1.
Qed.

Lemma pruned_untouched (a : string) (w1 w2 w3 : World) :
  pruned a w1 w2 → untouched a w2 w3 → pruned a w1 w3.
Proof.
  unfold untouched, pruned.
  intros (A1 & A2 & A3 & A4 & A5 & A6 & A7) (B1 & B2 & B3 & B4 & B5 & B6 & B7).
  split_and!; try congruence. by rewrite B6.
Qed.

Lemma prune_untouched (a b : string) (w : World) : a ≠ b → untouched a w (prune b w).
Proof.
  intros Hne. unfold untouched, prune, BackfillQueue.remove, CandleManager.removeToken. simpl.
  rewrite lookup_alter_ne, !lookup_delete_ne by done. split_and!; try done. set_solver.
Qed.

Lemma prune_pruned (a : string) (w : World) : pruned a w (prune a w).
Proof.
  unfold pruned, prune, BackfillQueue.remove, CandleManager.removeToken. simpl.
  rewrite lookup_alter_eq, !lookup_delete_eq. split_and!; try done. set_solver.
Qed.

Lemma pruneReason_untouched (volMap : gmap string Q) (now : Z) (a : string) (w w' : World) :
  untouched a w w' → candles w' = candles w →
  pruneReason volMap now w' a = pruneReason volMap now w a.
Proof.
  intros (_ & _ & Ht & _) Hc. unfold pruneReason. by rewrite Ht, Hc.
Qed.

Lemma maintain_fold (volMap : gmap string Q) (now : Z) (l : list string) (w : World) :
  NoDup l →
  candles (foldl (maintain volMap now) w l) = candles w
  ∧ sent (foldl (maintain volMap now) w l) = sent w
  ∧ tokenAlerts (foldl (maintain volMap now) w l) = tokenAlerts w
  ∧ ∀ a, if decide (a ∈ l ∧ is_Some (pruneReason volMap now w a))
         then pruned a w (foldl (maintain volMap now) w l)
         else untouched a w (foldl (maintain volMap now) w l).
Proof.
  revert w. induction l as [|x l IH]; intros w Hnd; simpl.
  { split_and!; done. }
  apply NoDup_cons in Hnd as [Hfresh Hnd].
  destruct (IH (maintain volMap now w x) Hnd) as (Hc & Hs & Ha & Hall).
  assert (candles (maintain volMap now w x) = candles w
          ∧ sent (maintain volMap now w x) = sent w
          ∧ tokenAlerts (maintain volMap now w x) = tokenAlerts w) as (Hc1 & Hs1 & Ha1).
  { unfold maintain. by destruct (pruneReason volMap now w x). }
  split_and!; [congruence..|].
  intros a. specialize (Hall a).
  destruct (decide (a = x)) as [-> | Hne].
  - rewrite decide_False in Hall by (by intros [? _]).
    unfold maintain in *. destruct (pruneReason volMap now w x) as [r|] eqn:Er.
    + rewrite decide_True by (split; [by left | eauto]).
      eapply pruned_untouched; [apply prune_pruned | done].
    + rewrite decide_False by (by intros [_ [? ?]]). done.
  - assert (untouched a w (maintain volMap now w x)) as Hstep.
    { unfold maintain. destruct (pruneReason volMap now w x);
        [by apply prune_untouched | apply untouched_refl]. }
    rewrite (pruneReason_untouched volMap now a w _ Hstep Hc1) in Hall.
    destruct (decide (a ∈ l ∧ is_Some (pruneReason volMap now w a))) as [[Hin Hr] | Hno].
    + rewrite decide_True by (split; [by right | done]).
      eapply untouched_pruned; done.
    + rewrite decide_False.
      * eapply untouched_trans; done.
      * intros [[? | Hin]%elem_of_cons Hr]; [done|]. by apply Hno.
Qed.

Lemma young_is_not_old (now d : Z) :
  (now - d ≤ 7200000)%Z → Strategy.gtb (inject_Z (now - d) / 3600000)%Q 2 = false.
Proof.
  intros Hage. destruct (Strategy.gtb _ _) eqn:Eg; [|done].
  apply gtb_lt in Eg. exfalso. apply (Qlt_not_le _ _ Eg).
  apply Qle_shift_div_r; [done|]. unfold Qle. simpl. lia.
Qed.

(** X29. [maintenanceLoop] stops tracking exactly the tracked tokens for
    which it finds a reason, each judged by the state at the start: such a
    token leaves the candle manager, the price poller, the alert cache and
    the backfill queue, and its Token document is set inactive; every other
    address keeps all of that.  Candles, delivered alerts and the persisted
    alert fields are never touched.  The reason is the one the code finds,
    its market cap being the binary64 product of the latest close and the
    supply.  In particular a tracked token with an answered 5-minute volume
    below 100 is pruned, and one with a volume of at least 100 that was
    launched at most two hours ago is kept. *)
Theorem maintenance_prunes_what_is_due (volMap : gmap string Q) (now : Z) (w : World)
    (a : string) :
  candles (maintenanceLoop volMap now w) = candles w
  ∧ sent (maintenanceLoop volMap now w) = sent w
  ∧ tokenAlerts (maintenanceLoop volMap now w) = tokenAlerts w
  ∧ (is_Some (CandleManager.tracked (manager w) !! a) →
     is_Some (pruneReason volMap now w a) →
     pruned a w (maintenanceLoop volMap now w))
  ∧ (CandleManager.tracked (manager w) !! a = None ∨ pruneReason volMap now w a = None →
     untouched a w (maintenanceLoop volMap now w))
  ∧ (∀ v, is_Some (CandleManager.tracked (manager w) !! a) →
          volMap !! a = Some v → (v < 100)%Q →
          pruned a w (maintenanceLoop volMap now w))
  ∧ (∀ v meta d, volMap !! a = Some v → (100 <= v)%Q →
                 CandleManager.tracked (manager w) !! a = Some meta →
                 CandleManager.m_launchedAt meta = Some d → (now - d ≤ 7200000)%Z →
                 untouched a w (maintenanceLoop volMap now w)).
Proof.
  assert (candles (maintenanceLoop volMap now w) = candles w
          ∧ sent (maintenanceLoop volMap now w) = sent w
          ∧ tokenAlerts (maintenanceLoop volMap now w) = tokenAlerts w
          ∧ (is_Some (CandleManager.tracked (manager w) !! a) →
             is_Some (pruneReason volMap now w a) →
             pruned a w (maintenanceLoop volMap now w))
          ∧ (CandleManager.tracked (manager w) !! a = None ∨ pruneReason volMap now w a = None →
             untouched a w (maintenanceLoop volMap now w))) as (Hc & Hs & Ha & Hdue & Hkeep).
  { unfold maintenanceLoop.
    pose proof (NoDup_fst_map_to_list (CandleManager.tracked (manager w))) as Hnd.
    assert (a ∈ (map_to_list (CandleManager.tracked (manager w))).*1
            ↔ is_Some (CandleManager.tracked (manager w) !! a)) as Hin.
    { rewrite list_elem_of_fmap. split.
      - intros ([k m] & -> & Hk%elem_of_map_to_list). eauto.
      - intros [m Hm]. exists (a, m). split; [done|]. by apply elem_of_map_to_list. }
    revert Hnd Hin. generalize ((map_to_list (CandleManager.tracked (manager w))).*1).
    intros l Hnd Hin.
    destruct (length l =? 0) eqn:E.
    { destruct l; [|discriminate E]. split_and!; try done.
      intros Ht. apply Hin in Ht. by apply elem_of_nil in Ht. }
    destruct (maintain_fold volMap now l w Hnd) as (Hc & Hs & Ha & Hall).
    specialize (Hall a). split_and!; try done.
    - intros Ht Hr. rewrite decide_True in Hall; [done|]. split; [by apply Hin | done].
    - intros Hno. rewrite decide_False in Hall; [done|]. intros [Ht%Hin Hr].
      destruct Hno as [Hno | Hno]; [rewrite Hno in Ht | rewrite Hno in Hr];
        by destruct Ht || by destruct Hr. }
  split_and!; try done.
  - intros v Ht Hv Hlow. apply Hdue; [done|]. unfold pruneReason. rewrite Hv.
    assert (ltb v 100 = true) as ->; [|eauto].
    unfold ltb. destruct (Qle_bool 100 v) eqn:E; [|done].
    apply Qle_bool_iff in E. by apply Qlt_not_le in Hlow.
  - intros v meta d Hv Hhigh Ht Hd Hage. apply Hkeep. right.
    unfold pruneReason. rewrite Hv, Ht. simpl. rewrite Hd. simpl.
    assert (ltb v 100 = false) as ->.
    { unfold ltb. apply Qle_bool_iff in Hhigh. by rewrite Hhigh. }
    rewrite young_is_not_old by done.
    destruct (latestCandle a (candles w)) as [c|]; [|done].
    destruct (Qeq_bool _ _); [done|]. by destruct (ltb _ _).
Qed.

End Maintenance.

(** ** The candle handler *)

Section CandleHandler.

Import App.

Variable EMA_calculate : nat → list Q → list Q.
Variable RSI_calculate : nat → list Q → list Q.

Lemma saveCandle_indexed (c : CandleManager.Candle) (db : Storage.Candles) :
  Storage.indexed db → Storage.indexed (Storage.saveCandle c db).1.
Proof.
  intros Hi k d. rewrite saveCandle_lookup. destruct (db !! k) eqn:Ek.
  - intros [= <-]. by apply (Hi k).
  - destruct (decide _) as [<-|]; [|done]. by intros [= <-].
Qed.

Lemma getRecentCandles_elem (a : string) (n : nat) (db : Storage.Candles)
    (d : Storage.CandleDoc) :
  d ∈ Storage.getRecentCandles a n db → d ∈ Storage.docsOf a db.
Proof.
  unfold Storage.getRecentCandles. rewrite limitTo_take, elem_of_reverse.
  intros (i & Hd%list_elem_of_lookup_2 & _)%elem_of_take.
  by rewrite merge_sort_Permutation in Hd.
Qed.

Lemma getRecentCandles_nonempty (a : string) (n : nat) (db : Storage.Candles) (ts : Z) :
  is_Some (db !! (a, ts)) → 0 < n → Storage.getRecentCandles a n db ≠ [].
Proof.
  intros [d Hd] Hn Hnil.
  assert (d ∈ Storage.docsOf a db) as Hin by (apply docsOf_elem; eauto).
  rewrite <- (merge_sort_Permutation Storage.newerFirst) in Hin.
  unfold Storage.getRecentCandles, limitTo in Hnil.
  destruct (merge_sort Storage.newerFirst (Storage.docsOf a db)) as [|x l];
    [by apply elem_of_nil in Hin|].
  destruct n as [|n]; [lia|]. simpl in Hnil.
  rewrite reverse_cons in Hnil. by destruct (reverse (take n l)).
Qed.

Lemma checkStrategy_Fired (history : list Strategy.Candle) (rvs : bool)
    (signal : Strategy.Signal) :
  Strategy.checkStrategy EMA_calculate RSI_calculate (Some history) rvs
  = Strategy.Fired signal →
  ∃ latest, last history = Some latest
            ∧ Strategy.s_tokenAddress signal = Strategy.tokenAddress latest
            ∧ Strategy.s_price signal = Strategy.close latest.
Proof.
  unfold Strategy.checkStrategy. intros H.
  repeat (case_match; try discriminate). all: injection H as <-. all: eauto.
Qed.

(** X30. The handler of the [candle] event, on a Candle collection whose
    documents sit under their own keys: the candle is stored unless its key
    is taken, and no other candle changes; nothing that belongs to another
    token changes.  The market cap is the product of a price and the supply
    as the code computes it, in binary64.  A candle that closes below a
    market cap of 2000 gets the token pruned and no alert.  Otherwise tokens,
    queue, manager and poller stay, and either nothing else happens, or
    exactly one alert is delivered: for this token, with a market cap that
    is not below 5000; the alert cache then holds this market cap and the
    present, and keeps a first alert it already had. *)
Theorem candle_handler_saves_prunes_alerts (requireVolumeSpike sendThrows : bool) (now : Z)
    (candle : CandleManager.Candle) (w : World) :
  Storage.indexed (candles w) →
  let a := CandleManager.tokenAddress candle in
  let w' := onCandle EMA_calculate RSI_calculate requireVolumeSpike sendThrows now candle w in
  (∀ k, candles w' !! k
        = match candles w !! k with
          | Some d => Some d
          | None => if decide (Storage.keyOf (Storage.docOfCandle candle) = k)
                    then Some (Storage.docOfCandle candle) else None
          end)
  ∧ (∀ b, b ≠ a → untouched b w w' ∧ tokenAlerts w' !! b = tokenAlerts w !! b)
  ∧ (ltb (js_mul (CandleManager.close candle) PUMP_FUN_SUPPLY) 2000 = true →
     pruned a w w' ∧ sent w' = sent w ∧ tokenAlerts w' = tokenAlerts w)
  ∧ (ltb (js_mul (CandleManager.close candle) PUMP_FUN_SUPPLY) 2000 = false →
     tokens w' = tokens w ∧ queue w' = queue w ∧ manager w' = manager w
     ∧ trackedMints w' = trackedMints w
     ∧ ((sent w' = sent w ∧ lastAlertData w' = lastAlertData w
         ∧ tokenAlerts w' = tokenAlerts w)
        ∨ ∃ alert e',
            sent w' = sent w ++ [alert]
            ∧ sendThrows = false
            ∧ Strategy.s_tokenAddress (a_signal alert) = a
            ∧ a_marketCap alert = js_mul (Strategy.s_price (a_signal alert)) PUMP_FUN_SUPPLY
            ∧ ltb (a_marketCap alert) 5000 = false
            ∧ a_prev alert = lastAlertData w !! a
            ∧ lastAlertData w' !! a = Some e'
            ∧ marketCap e' = a_marketCap alert ∧ sentAt e' = now
            ∧ match lastAlertData w !! a with
              | Some e =>
                  (Qeq_bool (firstMarketCap e) 0 = false →
                   firstMarketCap e' = firstMarketCap e)
                  ∧ (firstSentAt e ≠ 0%Z → firstSentAt e' = firstSentAt e)
              | None => firstMarketCap e' = a_marketCap alert ∧ firstSentAt e' = now
              end)).
Proof.
  intros Hi a w'.
  set (w1 := mkWorld (Storage.saveCandle candle (candles w)).1 (tokens w) (tokenAlerts w)
                     (queue w) (manager w) (trackedMints w) (lastAlertData w) (sent w)).
  assert (Storage.getRecentCandles a 60 (candles w1) ≠ []) as Hhist.
  { apply (getRecentCandles_nonempty a 60 _ (CandleManager.timestamp candle)); [|lia].
    simpl. rewrite saveCandle_lookup.
    destruct (candles w !! _); [eauto|]. rewrite decide_True by done. eauto. }
  assert (∀ b, untouched b w w1) as Hw1 by (intros b; by unfold untouched).
  assert (∀ k, candles w1 !! k
               = match candles w !! k with
                 | Some d => Some d
                 | None => if decide (Storage.keyOf (Storage.docOfCandle candle) = k)
                           then Some (Storage.docOfCandle candle) else None
                 end) as Hsave by (intros k; apply saveCandle_lookup).
  assert (Storage.indexed (candles w1)) as Hi1 by (by apply saveCandle_indexed).
  unfold w', onCandle. cbv zeta. fold a. fold w1.
  destruct (length (Storage.getRecentCandles a 60 (candles w1)) =? 0) eqn:E0.
  { by apply length_eqb_0 in E0. }
  destruct (ltb (js_mul (CandleManager.close candle) PUMP_FUN_SUPPLY) 2000) eqn:Elow.
  { split_and!; [done | | | done].
    - intros b Hb. split; [|done].
      eapply untouched_trans; [apply Hw1 | by apply prune_untouched].
    - intros _. split; [|done].
      eapply untouched_pruned; [apply Hw1 | apply prune_pruned]. }
  destruct (Strategy.checkStrategy _ _ _ _) as [|signal|] eqn:Es;
    try (split_and!; [done | done | done | intros _; split_and!; try done; by left]).
  destruct (ltb (js_mul (Strategy.s_price signal) PUMP_FUN_SUPPLY) 5000) eqn:Emc;
    try (split_and!; [done | done | done | intros _; split_and!; try done; by left]).
  unfold sendAlert. destruct sendThrows;
    try (split_and!; [done | done | done | intros _; split_and!; try done; by left]).
  assert (Strategy.s_tokenAddress signal = a) as Haddr.
  { apply checkStrategy_Fired in Es as (latest & Hlast & -> & _).
    change (map (withSymbol ?s) ?l) with (withSymbol s <$> l) in Hlast.
    rewrite fmap_last in Hlast.
    destruct (last (Storage.getRecentCandles a 60 (candles w1))) as [d|] eqn:Ed; [|done].
    injection Hlast as <-. simpl.
    assert (d ∈ Storage.getRecentCandles a 60 (candles w1)) as Hd
      by (by apply last_Some_elem_of).
    apply getRecentCandles_elem, docsOf_elem in Hd as [ts Hd].
    pose proof (Hi1 _ _ Hd) as Hk. unfold Storage.keyOf in Hk. by injection Hk. }
  rewrite Haddr. simpl. split_and!; [done | | done |].
  - intros b Hb. split.
    + unfold untouched. simpl. rewrite lookup_insert_ne by done. done.
    + destruct (tokens w !! a); [|done]. by rewrite lookup_insert_ne.
  - intros _. split_and!; try done. right.
    eexists _, _. split_and!; try done.
    + by rewrite lookup_insert_eq.
    + done.
    + done.
    + simpl. destruct (lastAlertData w !! a) as [e|]; [|done].
      split; [by intros -> | intros Hne; by apply Z.eqb_neq in Hne as ->].
Qed.

End CandleHandler.

Lemma candle_handler_saves_prunes_alerts_witness :
  App.pruned "A" App.flatWorld
    (App.onCandle Strategy.EMA_calculate Strategy.RSI_calculate false false 99
                  App.lowCandle App.flatWorld)
  ∧ App.sent (App.onCandle Strategy.EMA_calculate Strategy.RSI_calculate false false 99
                           App.lowCandle App.flatWorld)
    = App.sent App.flatWorld
  ∧ App.tokenAlerts (App.onCandle Strategy.EMA_calculate Strategy.RSI_calculate false false 99
                                  App.lowCandle App.flatWorld)
    = App.tokenAlerts App.flatWorld.
Proof.
  assert (Storage.indexed (App.candles App.flatWorld)) as Hi.
  { unfold Storage.indexed. apply (bool_decide_unpack _). vm_compute. exact I. }
  pose proof (candle_handler_saves_prunes_alerts Strategy.EMA_calculate Strategy.RSI_calculate
                false false 99 App.lowCandle App.flatWorld Hi) as H.
  cbv zeta in H. destruct H as (_ & _ & H & _). apply H. vm_compute. reflexivity.
Defined.

(** At the thresholds the products are the rounded ones: a candle closing at
    2e-6 has a market cap of 2000, not below, and the token stays tracked;
    a latest close of 4.9999999999999996e-06 gives 5000, not below, and the
    maintenance loop finds no reason to prune the old token. *)
Example thresholds_are_rounded :
  js_mul App.twoMillionths App.PUMP_FUN_SUPPLY = 2000%Q
  ∧ (App.twoMillionths * App.PUMP_FUN_SUPPLY < 2000)%Q
  ∧ is_Some (CandleManager.tracked
               (App.manager (App.onCandle Strategy.EMA_calculate Strategy.RSI_calculate
                                          false false 99 App.thresholdCandle App.flatWorld))
               !! "A"%string)
  ∧ js_mul App.nearlyFiveMillionths App.PUMP_FUN_SUPPLY = 5000%Q
  ∧ (App.nearlyFiveMillionths * App.PUMP_FUN_SUPPLY < 5000)%Q
  ∧ App.pruneReason ∅ (3 * 3600000) App.oldWorld "A" = None
  ∧ App.maintenanceLoop ∅ (3 * 3600000) App.oldWorld = App.oldWorld.
Proof.
  split_and!; try (by vm_compute).
  vm_compute. eauto.
Qed.

(** The candle at price 2 after forty candles at price 1: the handler stores
    it and delivers one alert, at a market cap of two billion; the candle at
    a market cap of 1000 ends the tracking of the token. *)
Example candle_handler_runs :
  App.a_marketCap <$> App.sent (App.onCandle Strategy.EMA_calculate Strategy.RSI_calculate
                                             false false 99 App.risingCandle App.flatWorld)
  = [2000000000%Q]
  ∧ CandleManager.tracked
      (App.manager (App.onCandle Strategy.EMA_calculate Strategy.RSI_calculate
                                 false false 99 App.lowCandle App.flatWorld)) = ∅.
Proof. split; vm_compute; reflexivity. Qed.
